(** * Street-merge engine of the pbf tool: a shallow embedding of
    [command/street_merge.go] and the properties of its specification.

    Go values are modelled as follows.
    - [string] is Go's [string]: a sequence of bytes (UTF-8 when it holds
      text).  Comparison, prefix tests and replacement work on bytes, as in Go;
      [range] over a string decodes UTF-8.
    - [int] is [Z].
    - [float64] is [spec_float] at precision 53 with exponent bound 1024 (IEEE-754
      binary64), with the operations of the standard library's [SpecFloat].
    - [*street] is an index into a store of streets; slices of pointers are
      lists of indices.
    - [map[string][]*street] is an association list; the order in which
      [range] visits its keys is a parameter of the model. *)

From Stdlib Require Import ZArith List String Ascii Bool Lia Permutation Sorted.
From Stdlib Require Import Floats.SpecFloat.
Import ListNotations.

Local Open Scope string_scope.
Local Open Scope Z_scope.
Local Open Scope list_scope.

(* ================================================================== *)
(** * Part I: the program                                               *)
(* ================================================================== *)

(** ** Go strings *)

Module GoString.

Definition byteZ (a : ascii) : Z := Z.of_N (N_of_ascii a).
Definition byte_of (z : Z) : ascii := ascii_of_N (Z.to_N z).

Definition RuneError : Z := 0xFFFD.

Definition between (lo hi b : Z) : bool := (lo <=? b) && (b <=? hi).

(** First code point of a non-empty string and the number of bytes it
    takes, as [for _, r := range s] decodes it: an ill-formed sequence gives
    [RuneError] and advances by one byte. *)
Definition decodeRune (s : string) : Z * nat :=
  match s with
  | EmptyString => (RuneError, 1%nat)
  | String a0 t =>
    let b0 := byteZ a0 in
    if b0 <? 0x80 then (b0, 1%nat)
    else if between 0xC2 0xDF b0 then
      match t with
      | String a1 _ =>
        let b1 := byteZ a1 in
        if between 0x80 0xBF b1
        then (Z.lor (Z.shiftl (Z.land b0 0x1F) 6) (Z.land b1 0x3F), 2%nat)
        else (RuneError, 1%nat)
      | _ => (RuneError, 1%nat)
      end
    else if between 0xE0 0xEF b0 then
      match t with
      | String a1 (String a2 _) =>
        let b1 := byteZ a1 in
        let b2 := byteZ a2 in
        let lo := if b0 =? 0xE0 then 0xA0 else 0x80 in
        let hi := if b0 =? 0xED then 0x9F else 0xBF in
        if between lo hi b1 && between 0x80 0xBF b2
        then (Z.lor (Z.lor (Z.shiftl (Z.land b0 0x0F) 12)
                           (Z.shiftl (Z.land b1 0x3F) 6))
                    (Z.land b2 0x3F), 3%nat)
        else (RuneError, 1%nat)
      | _ => (RuneError, 1%nat)
      end
    else if between 0xF0 0xF4 b0 then
      match t with
      | String a1 (String a2 (String a3 _)) =>
        let b1 := byteZ a1 in
        let b2 := byteZ a2 in
        let b3 := byteZ a3 in
        let lo := if b0 =? 0xF0 then 0x90 else 0x80 in
        let hi := if b0 =? 0xF4 then 0x8F else 0xBF in
        if between lo hi b1 && between 0x80 0xBF b2 && between 0x80 0xBF b3
        then (Z.lor (Z.lor (Z.lor (Z.shiftl (Z.land b0 0x07) 18)
                                  (Z.shiftl (Z.land b1 0x3F) 12))
                           (Z.shiftl (Z.land b2 0x3F) 6))
                    (Z.land b3 0x3F), 4%nat)
        else (RuneError, 1%nat)
      | _ => (RuneError, 1%nat)
      end
    else (RuneError, 1%nat)
  end.

(** The code points [range s] yields; [skip] counts the bytes still
    belonging to the code point decoded last. *)
Fixpoint runes_from (skip : nat) (s : string) : list Z :=
  match s with
  | EmptyString => []
  | String _ t =>
    match skip with
    | S k => runes_from k t
    | O => let '(r, w) := decodeRune s in r :: runes_from (Nat.pred w) t
    end
  end.

Definition runes (s : string) : list Z := runes_from 0 s.

(** [string(r)] for a rune [r]: its UTF-8 encoding; a value that is not a
    code point becomes the encoding of [RuneError]. *)
Definition string_of_rune (r : Z) : string :=
  let b z := byte_of z in
  if (r <? 0) || (0x10FFFF <? r) || between 0xD800 0xDFFF r
  then String (b 0xEF) (String (b 0xBF) (String (b 0xBD) EmptyString))
  else if r <=? 0x7F then String (b r) EmptyString
  else if r <=? 0x7FF then
    String (b (Z.lor 0xC0 (Z.shiftr r 6)))
      (String (b (Z.lor 0x80 (Z.land r 0x3F))) EmptyString)
  else if r <=? 0xFFFF then
    String (b (Z.lor 0xE0 (Z.shiftr r 12)))
      (String (b (Z.lor 0x80 (Z.land (Z.shiftr r 6) 0x3F)))
         (String (b (Z.lor 0x80 (Z.land r 0x3F))) EmptyString))
  else
    String (b (Z.lor 0xF0 (Z.shiftr r 18)))
      (String (b (Z.lor 0x80 (Z.land (Z.shiftr r 12) 0x3F)))
         (String (b (Z.lor 0x80 (Z.land (Z.shiftr r 6) 0x3F)))
            (String (b (Z.lor 0x80 (Z.land r 0x3F))) EmptyString))).

(** The string holding the given code points, in UTF-8. *)
Definition utf8 (rs : list Z) : string :=
  String.concat "" (map string_of_rune rs).

(** [utf8.RuneCountInString]. *)
Definition RuneCountInString (s : string) : Z := Z.of_nat (List.length (runes s)).

(** [strings.HasPrefix(s, p)]. *)
Definition HasPrefix (s p : string) : bool := String.prefix p s.

(** [strings.Contains(s, sub)]. *)
Fixpoint Contains (s sub : string) : bool :=
  String.prefix sub s ||
  match s with
  | EmptyString => false
  | String _ t => Contains t sub
  end.

(** [strings.ReplaceAll(s, old, new)] for a non-empty [old]: the
    non-overlapping occurrences of [old] are replaced from left to right. *)
Fixpoint replace_from (old new : string) (skip : nat) (s : string) : string :=
  match s with
  | EmptyString => EmptyString
  | String a t =>
    match skip with
    | S k => replace_from old new k t
    | O =>
      if String.prefix old s
      then (new ++ replace_from old new (Nat.pred (String.length old)) t)%string
      else String a (replace_from old new 0 t)
    end
  end.

Definition ReplaceAll (s old new : string) : string := replace_from old new 0 s.

(** [strings.Split(s, sep)[0]] for a non-empty [sep]: the part of [s]
    before the first occurrence of [sep], all of [s] when there is none. *)
Fixpoint SplitHead (s sep : string) : string :=
  match s with
  | EmptyString => EmptyString
  | String a t => if String.prefix sep s then EmptyString else String a (SplitHead t sep)
  end.

(** Decimal digits of a non-negative number, most significant first. *)
Fixpoint digits (fuel : nat) (n : Z) (acc : string) : string :=
  match fuel with
  | O => acc
  | S f =>
    let acc' := String (byte_of (48 + n mod 10)) acc in
    if n <? 10 then acc' else digits f (n / 10) acc'
  end.

(** [strconv.Itoa]. *)
Definition Itoa (n : Z) : string :=
  if n <? 0 then String "-" (digits (Z.to_nat (- n) + 1) (- n) EmptyString)
  else digits (Z.to_nat n + 1) n EmptyString.

(** [sort.Strings]: ascending order of bytes. *)
Fixpoint insert_sorted (k : string) (l : list string) : list string :=
  match l with
  | [] => [k]
  | h :: t => if String.leb k h then k :: l else h :: insert_sorted k t
  end.

Definition SortStrings (l : list string) : list string :=
  fold_right insert_sorted [] l.

End GoString.

Import GoString.

(** ** Accent folding *)

(** [stringToRune]: a slice with one string per code point of [s] and one
    more, empty, string at the end ([make([]string, ll+1)]), and the number of
    code points. *)
Definition stringToRune (s : string) : list string * Z :=
  (map string_of_rune (runes s) ++ [EmptyString], RuneCountInString s).

Definition SOURCE_TEXT : string :=
  "ÀÁÂÃÈÉÊÌÍÒÓÔÕÙÚÝàáâãèéêìíòóôõùúýĂăĐđĨĩŨũƠơƯưẠạẢảẤấẦầẨẩẪẫẬậẮắẰằẲẳẴẵẶặẸẹẺẻẼẽẾếỀềỂểỄễỆệỈỉỊịỌọỎỏỐốỒồỔổỖỗỘộỚớỜờỞởỠỡỢợỤụỦủỨứỪừỬửỮữỰựỹỳỷỵỸỲỶỴ".

Definition DESTINATION_TEXT : string :=
  "AAAAEEEIIOOOOUUYaaaaeeeiioooouuyAaDdIiUuOoUuAaAaAaAaAaAaAaAaAaAaAaAaEeEeEeEeEeEeEeEeIiIiOoOoOoOoOoOoOoOoOoOoOoOoUuUuUuUuUuUuUuyyyyyyyy".

Definition SOURCE_CHARACTERS : list string := Eval vm_compute in fst (stringToRune SOURCE_TEXT).
Definition LL_LENGTH : Z := Eval vm_compute in snd (stringToRune SOURCE_TEXT).
Definition DESTINATION_CHARACTERS : list string :=
  Eval vm_compute in fst (stringToRune DESTINATION_TEXT).

(** [a[i]] on a slice of strings.  The program only indexes within bounds;
    the empty string stands for the run-time panic of an index out of
    range. *)
Definition index (a : list string) (i : Z) : string :=
  if i <? 0 then EmptyString else nth (Z.to_nat i) a EmptyString.

(** [binarySearch].  Go's [/] on [int] truncates toward zero ([Z.quot]).  The
    recursion of the source is on the interval [low..high], which shrinks at
    every call; [fuel] bounds its depth. *)
Fixpoint binarySearch_rec (fuel : nat) (sortedArray : list string) (key : string)
         (low high : Z) : Z :=
  let middle := Z.quot (low + high) 2 in
  if high <? low then -1
  else
    match fuel with
    | O => -1
    | S f =>
      if String.eqb key (index sortedArray middle) then middle
      else if String.ltb key (index sortedArray middle)
           then binarySearch_rec f sortedArray key low (middle - 1)
           else binarySearch_rec f sortedArray key (middle + 1) high
    end.

Definition binarySearch (sortedArray : list string) (key : string) (low high : Z) : Z :=
  binarySearch_rec (Z.to_nat (high - low + 1)) sortedArray key low high.

Definition removeAccentChar (ch : string) : string :=
  let index_ := binarySearch SOURCE_CHARACTERS ch 0 LL_LENGTH in
  if 0 <=? index_ then index DESTINATION_CHARACTERS index_ else ch.

(** The replacements [removeAccent] makes before the table lookup, in the
    order of the source; each pattern is given by its code points. *)
Definition replacements : list (string * string) :=
  [ (utf8 [0x1EF7], "y"); (utf8 [0x1EF3], "y"); (utf8 [0x1EF5], "y");
    (utf8 [0x79; 0x300], "y"); (utf8 [0x79; 0x301], "y"); (utf8 [0xF4; 0x301], "o");
    (utf8 [0xF4; 0x323], "o"); (utf8 [0x1A1; 0x323], "o"); (utf8 [0xF4; 0x300], "o");
    (utf8 [0x1A1; 0x300], "o"); (utf8 [0xF4; 0x303], "o"); (utf8 [0x1A1; 0x309], "o");
    (utf8 [0x6F; 0x301], "o"); (utf8 [0x6F; 0x309], "o"); (utf8 [0x6F; 0x303], "o");
    (utf8 [0xF2], "o"); (utf8 [0x6F; 0x300], "o"); (utf8 [0x6F; 0x323], "o");
    (utf8 [0xF0], "d"); (utf8 [0x103; 0x300], "a"); (utf8 [0xE2; 0x300], "a");
    (utf8 [0xE2; 0x323], "a"); (utf8 [0xE2; 0x309], "a"); (utf8 [0xE2; 0x301], "a");
    (utf8 [0xE3], "a"); (utf8 [0x61; 0x303], "a"); (utf8 [0x61; 0x300], "a");
    (utf8 [0x61; 0x323], "a"); (utf8 [0x61; 0x301], "a"); (utf8 [0x61; 0x309], "a");
    (utf8 [0xEA; 0x303], "e"); (utf8 [0xEA; 0x323], "e"); (utf8 [0xEA; 0x300], "e");
    (utf8 [0xEA; 0x301], "e"); (utf8 [0x65; 0x323], "e"); (utf8 [0x65; 0x300], "e");
    (utf8 [0x65; 0x301], "e"); (utf8 [0x65; 0x303], "e"); (utf8 [0x65; 0x309], "e");
    (utf8 [0x69; 0x300], "i"); (utf8 [0x69; 0x323], "i"); (utf8 [0x12F], "i");
    (utf8 [0x69; 0x301], "i"); (utf8 [0x69; 0x303], "i"); (utf8 [0x69; 0x309], "i");
    (utf8 [0x1B0; 0x303], "u"); (utf8 [0x1B0; 0x301], "u"); (utf8 [0x1B0; 0x323], "u");
    (utf8 [0x75; 0x303], "u"); (utf8 [0x75; 0x300], "u"); (utf8 [0x75; 0x309], "u");
    (utf8 [0x75; 0x323], "u"); (utf8 [0x75; 0x301], "u") ].

(** One [if strings.Contains(s, old) { s = strings.ReplaceAll(s, old, new) }]. *)
Definition replaceStep (s : string) (r : string * string) : string :=
  if Contains s (fst r) then ReplaceAll s (fst r) (snd r) else s.

Definition replacePass (s : string) : string := fold_left replaceStep replacements s.

Definition removeAccent (s : string) : string :=
  let s := replacePass s in
  String.concat "" (map (fun runeValue => removeAccentChar (string_of_rune runeValue)) (runes s)).

(** The positions of the table whose code point [removeAccent] leaves as it
    is: the upper-case letters Y with tilde, grave, hook and dot below, which
    stand after their place in the order the search relies on. *)
Definition missed : list nat := [130; 131; 132; 133]%nat.

Definition table_entry_ok (k : nat) : bool :=
  existsb (Nat.eqb k) missed
  || String.eqb (removeAccent (nth k SOURCE_CHARACTERS EmptyString))
                (nth k DESTINATION_CHARACTERS EmptyString).

(** ** Accent folding, on code points

    What [removeAccent] makes of a well-formed text, written on the code
    points of the text instead of its bytes; the theorems on [removeAccent]
    compare the two. *)

(** A code point: a number up to 0x10FFFF outside the surrogate range. *)
Definition codePoint (r : Z) : Prop :=
  0 <= r <= 0x10FFFF /\ ~ (0xD800 <= r <= 0xDFFF).










(** A byte that continues a code point. *)
Definition continuation (a : ascii) : bool := between 0x80 0xBF (byteZ a).

Fixpoint continuations (u : string) : bool :=
  match u with
  | EmptyString => true
  | String a t => continuation a && continuations t
  end.


Definition isCodePoint (r : Z) : bool :=
  (0 <=? r) && (r <=? 0x10FFFF) && negb ((0xD800 <=? r) && (r <=? 0xDFFF)).





(** ** The name-parser call *)

(** The types the JSON response is decoded into. *)
Record Classification := { Value : string; Label : string }.
Record Solution := { Score : Z; Classifications : list Classification }.
Record Response := { Solutions : list Solution }.

(** What a run of a function that may end the process gives: a returned
    value, or the end of the process with an exit status ([os.Exit],
    [log.Fatal]). *)
Inductive outcome (A : Type) : Type :=
| Returned (a : A)
| Exited (status : Z).
Arguments Returned {A} a.
Arguments Exited {A} status.

(** The result of [ioutil.ReadAll(response.Body)]. *)
Inductive read_result : Type :=
| ReadOk (data : string)
| ReadErr (err : string).

(** The result of [http.Get(url)]: an error, or a response with its status
    code and a body to read.  [http.Get] reports no error for a status outside
    2xx. *)
Inductive get_result : Type :=
| GetErr (err : string)
| GetOk (StatusCode : Z) (Body : read_result).

(** The world outside [streetNameParser]: the server behind [http.Get], and
    [json.Unmarshal], which gives the fields it has decoded into a zero
    [Response] and possibly an error. *)
Record parser_env := {
  http_Get : string -> get_result;
  json_Unmarshal : string -> Response * option string
}.

(** The replacement of [(], [)], ['] and [*] by [%20] that the regular
    expression [\(|\)|'|\*] makes with [ReplaceAllString]. *)
Fixpoint removeString (url : string) : string :=
  match url with
  | EmptyString => EmptyString
  | String a t =>
    if (Ascii.eqb a "(" || Ascii.eqb a ")" || Ascii.eqb a "'" || Ascii.eqb a "*")%char
    then ("%20" ++ removeString t)%string
    else String a (removeString t)
  end.

Definition parserURL (searchText : string) : string :=
  let url := ("http://parser.map4d.vn/parser/parse?text=" ++ searchText)%string in
  let url := ReplaceAll url " " "%20" in
  removeString url.

(** The loop over [classifications]: [return ""] at a [housenumber], the
    value of a [street] kept in [streetName]. *)
Fixpoint scanClassifications (classifications : list Classification) (streetName : string)
  : string :=
  match classifications with
  | [] => streetName
  | classification :: rest =>
    if String.eqb (Label classification) "housenumber" then ""
    else if String.eqb (Label classification) "street"
         then scanClassifications rest (Value classification)
         else scanClassifications rest streetName
  end.

(** Lines 834-847: what [streetNameParser] returns for a decoded response. *)
Definition classify (responseObject : Response) : string :=
  match Solutions responseObject with
  | solution0 :: _ =>
    match Classifications solution0 with
    | [] => ""
    | classifications => scanClassifications classifications ""
    end
  | [] => ""
  end.

(** [solutions[0].classifications], empty when there is no solution. *)
Definition firstClassifications (responseObject : Response) : list Classification :=
  match Solutions responseObject with
  | solution0 :: _ => Classifications solution0
  | [] => []
  end.

Definition streetNameParser (env : parser_env) (searchText : string) : outcome string :=
  match http_Get env (parserURL searchText) with
  | GetErr _ => Exited 1                                  (* fmt.Print; os.Exit(1) *)
  | GetOk _ body =>
    match body with
    | ReadErr _ => Exited 1                               (* log.Fatal(err) *)
    | ReadOk responseData =>
      (* the error of json.Unmarshal is not looked at *)
      let responseObject := fst (json_Unmarshal env responseData) in
      Returned (classify responseObject)
    end
  end.

(** Worlds used as examples: a parser that answers with two solutions; a
    refused connection; a body that cannot be read; the same answer with
    status 500. *)
Definition two_solutions : Response :=
  {| Solutions :=
       [ {| Score := 9;
            Classifications := [ {| Value := "duong"; Label := "prefix" |};
                                 {| Value := "Abc"; Label := "street" |} ] |};
         {| Score := 1;
            Classifications := [ {| Value := "12"; Label := "housenumber" |} ] |} ] |}.

Definition env_two_solutions : parser_env :=
  {| http_Get := fun _ => GetOk 200 (ReadOk "body");
     json_Unmarshal := fun _ => (two_solutions, None) |}.

Definition env_refused : parser_env :=
  {| http_Get := fun _ => GetErr "connection refused";
     json_Unmarshal := fun _ => (two_solutions, None) |}.

Definition env_unreadable : parser_env :=
  {| http_Get := fun _ => GetOk 200 (ReadErr "unexpected EOF");
     json_Unmarshal := fun _ => (two_solutions, None) |}.

Definition env_status_500 : parser_env :=
  {| http_Get := fun _ => GetOk 500 (ReadOk "body");
     json_Unmarshal := fun _ => (two_solutions, None) |}.

(** ** The command and its temporary file *)

(** The files that exist. *)
Definition filesystem := list string.

(** A computation of the process over the file system. *)
Definition proc (A : Type) : Type := filesystem -> outcome A * filesystem.

Definition ret {A} (a : A) : proc A := fun fs => (Returned a, fs).

Definition bind {A B} (m : proc A) (k : A -> proc B) : proc B :=
  fun fs =>
    match m fs with
    | (Returned a, fs') => k a fs'
    | (Exited status, fs') => (Exited status, fs')
    end.

Notation "x <- m ;; k" := (bind m (fun x => k))
  (at level 61, m at next level, right associativity).
Notation "m ;;; k" := (bind m (fun _ => k))
  (at level 61, right associativity).

(** [os.Exit(status)]: "the program terminates immediately; deferred
    functions are not run".  [log.Fatal] is a print followed by [os.Exit(1)]. *)
Definition os_Exit {A} (status : Z) : proc A := fun fs => (Exited status, fs).
Definition log_Fatal {A} : proc A := os_Exit 1.

Fixpoint remove_file (name : string) (fs : filesystem) : filesystem :=
  match fs with
  | [] => []
  | f :: t => if String.eqb f name then remove_file name t else f :: remove_file name t
  end.

(** [os.Remove(name)]; its error is not looked at. *)
Definition os_Remove (name : string) : proc unit :=
  fun fs => (Returned tt, remove_file name fs).

(** [defer d] at the head of a function body: [d] runs when the body
    returns, and does not run when the process exits inside the body. *)
Definition defer_ {A} (d : proc unit) (body : proc A) : proc A :=
  fun fs =>
    match body fs with
    | (Returned a, fs') => (Returned a, snd (d fs'))
    | (Exited status, fs') => (Exited status, fs')
    end.

(** What happens in one run of the command, as far as its exits go: the
    number of arguments, and whether the staging store, the name parser and
    the GeoJSON encoder fail. *)
Record run_events := {
  argc : nat;
  store_fails : bool;
  parser_fails : bool;
  marshal_fails : bool
}.

(** Modelled from the spec: [sqlite.Connection.Open], of package [sqlite] of
    this repository, is not under src/; "the temporary file is created ... at
    start", so opening the staging store on [filename] makes the file exist. *)
Definition conn_Open (filename : string) : proc unit :=
  fun fs => (Returned tt, filename :: fs).

(** [conn.Close()] leaves the file in place. *)
Definition conn_Close : proc unit := ret tt.

(** [parsePBF]: [os.Exit(1)] unless there is exactly one argument. *)
Definition parsePBF (ev : run_events) : proc unit :=
  if Nat.eqb (argc ev) 1 then ret tt else os_Exit 1.

(** [generateStreetsFromWays]: [log.Fatal] when the query or a row fails. *)
Definition generateStreetsFromWays (ev : run_events) : proc unit :=
  if store_fails ev then log_Fatal else ret tt.

(** [joinStreets], as far as the process goes: it ends in [streetNameParser]
    when the call to the parser fails. *)
Definition joinStreets_proc (ev : run_events) : proc unit :=
  if parser_fails ev then os_Exit 1 else ret tt.

(** The loop of [Print]: [os.Exit(1)] when a street cannot be marshalled. *)
Definition printStreets (ev : run_events) : proc unit :=
  if marshal_fails ev then os_Exit 1 else ret tt.

(** [StreetMerge]; [filename] is the name [lib.TempFileName] gives. *)
Definition StreetMerge (filename : string) (ev : run_events) : proc unit :=
  defer_ (os_Remove filename)
    (conn_Open filename ;;;
     defer_ conn_Close
       (parsePBF ev ;;;
        generateStreetsFromWays ev ;;;
        joinStreets_proc ev ;;;
        printStreets ev ;;;
        ret tt)).

(** A run of the command without an argument. *)
Definition run_without_argument : run_events :=
  {| argc := 0; store_fails := false; parser_fails := false; marshal_fails := false |}.

(** ** float64 *)

Definition float64 : Type := spec_float.

Module F64.

Definition prec : Z := 53.
Definition emax : Z := 1024.

Definition add (x y : float64) : float64 := SFadd prec emax x y.
Definition sub (x y : float64) : float64 := SFsub prec emax x y.
Definition mul (x y : float64) : float64 := SFmul prec emax x y.
Definition div (x y : float64) : float64 := SFdiv prec emax x y.
Definition sqrt (x : float64) : float64 := SFsqrt prec emax x.

(** Go's [==], [<], [<=], [>], [>=] on float64: false when an operand is
    NaN. *)
Definition eqb (x y : float64) : bool := SFeqb x y.
Definition ltb (x y : float64) : bool := SFltb x y.
Definition leb (x y : float64) : bool := SFleb x y.
Definition gtb (x y : float64) : bool := SFltb y x.
Definition geb (x y : float64) : bool := SFleb y x.

Definition zero : float64 := S754_zero false.
Definition nan : float64 := S754_nan.

Definition is_nan (x : float64) : bool :=
  match x with S754_nan => true | _ => false end.

Definition is_zero (x : float64) : bool :=
  match x with S754_zero _ => true | _ => false end.

(** The float64 of an integer (exact up to 2^53). *)
Definition of_Z (z : Z) : float64 := binary_normalize prec emax z 0 false.

(** The float64 nearest to [m / 10^k]: the value of the decimal constant
    with digits [m] and [k] digits after the point, for [m] and [10^k] below
    2^53. *)
Definition decimal (m : Z) (k : Z) : float64 := div (of_Z m) (of_Z (10 ^ k)).

(** [math.Min] and [math.Max]. *)
Definition min (x y : float64) : float64 :=
  match x, y with
  | S754_infinity true, _ | _, S754_infinity true => S754_infinity true
  | S754_nan, _ | _, S754_nan => S754_nan
  | S754_zero sx, S754_zero sy => S754_zero (sx || sy)
  | _, _ => if ltb x y then x else y
  end.

Definition max (x y : float64) : float64 :=
  match x, y with
  | S754_infinity false, _ | _, S754_infinity false => S754_infinity false
  | S754_nan, _ | _, S754_nan => S754_nan
  | S754_zero sx, S754_zero sy => S754_zero (sx && sy)
  | _, _ => if ltb y x then x else y
  end.

End F64.

(** ** Geometry: the operations of go.geo that the program calls

    Package [github.com/paulmach/go.geo] is a dependency of the repository;
    the definitions of this module follow its functions [Point.DistanceFrom],
    [Point.Equals], [PointSet.First], [PointSet.Last], [PointSet.Bound],
    [Path.Distance], [NewBound], [Bound.Intersects], [Bound.Contains],
    [Line.Bound], [Line.Side], [Line.Intersects] and [Path.IntersectsPath]. *)

Module geo.

(** [type Point [2]float64]: longitude, latitude. *)
Definition Point : Type := (float64 * float64)%type.

Definition origin : Point := (F64.zero, F64.zero).

(** [type Path struct { PointSet }]. *)
Definition PointSet : Type := list Point.

Definition DistanceFrom (p point : Point) : float64 :=
  let d0 := F64.sub (fst point) (fst p) in
  let d1 := F64.sub (snd point) (snd p) in
  F64.sqrt (F64.add (F64.mul d0 d0) (F64.mul d1 d1)).

Definition Equals (p point : Point) : bool :=
  F64.eqb (fst p) (fst point) && F64.eqb (snd p) (snd point).

(** [First] and [Last] return [nil] on an empty point set, and the program
    then panics on the first use; every path the program makes has two
    points or more, and [origin] stands for the missing point. *)
Definition First (ps : PointSet) : Point := hd origin ps.
Definition Last (ps : PointSet) : Point := last ps origin.

(** [Path.Distance]: the sum of the distances between successive points. *)
Fixpoint Distance_from (sum : float64) (ps : PointSet) : float64 :=
  match ps with
  | p :: ((q :: _) as t) => Distance_from (F64.add sum (DistanceFrom p q)) t
  | _ => sum
  end.

Definition Distance (ps : PointSet) : float64 := Distance_from F64.zero ps.

(** [type Line struct { a, b Point }]. *)
Definition Line : Type := (Point * Point)%type.

(** [type Bound struct { sw, ne *Point }]. *)
Definition Bound : Type := (Point * Point)%type.

Definition NewBound (west east south north : float64) : Bound :=
  ((F64.min east west, F64.min north south), (F64.max east west, F64.max north south)).

(** [Line.Bound]. *)
Definition Line_Bound (l : Line) : Bound :=
  let '(a, b) := l in
  NewBound (F64.max (fst a) (fst b)) (F64.min (fst a) (fst b))
           (F64.max (snd a) (snd b)) (F64.min (snd a) (snd b)).

(** [PointSet.Bound]: the rectangle around the points; [NewBound(0, 0, 0, 0)]
    for an empty set. *)
Definition PointSet_Bound (ps : PointSet) : Bound :=
  match ps with
  | [] => NewBound F64.zero F64.zero F64.zero F64.zero
  | _ =>
    let '(minX, minY, maxX, maxY) :=
      fold_left
        (fun acc v =>
           let '(minX, minY, maxX, maxY) := acc in
           (F64.min minX (fst v), F64.min minY (snd v),
            F64.max maxX (fst v), F64.max maxY (snd v)))
        ps
        (S754_infinity false, S754_infinity false, S754_infinity true, S754_infinity true) in
    NewBound maxX minX maxY minY
  end.

(** [Bound.Intersects]: true also when the two rectangles touch. *)
Definition Bound_Intersects (b bound : Bound) : bool :=
  let '(sw, ne) := b in
  let '(sw', ne') := bound in
  if F64.ltb (fst ne) (fst sw') || F64.gtb (fst sw) (fst ne')
     || F64.ltb (snd ne) (snd sw') || F64.gtb (snd sw) (snd ne')
  then false else true.

(** [Bound.Contains]: the point is in the rectangle or on its border. *)
Definition Bound_Contains (b : Bound) (point : Point) : bool :=
  let '(sw, ne) := b in
  if F64.ltb (snd point) (snd sw) || F64.ltb (snd ne) (snd point) then false
  else if F64.ltb (fst point) (fst sw) || F64.ltb (fst ne) (fst point) then false
  else true.

(** [Line.Side]: 1 when the point is to the right of the line, -1 when it
    is to the left, 0 when it is on it. *)
Definition Side (l : Line) (p : Point) : Z :=
  let '(a, b) := l in
  let val := F64.sub (F64.mul (F64.sub (fst b) (fst a)) (F64.sub (snd p) (snd b)))
                     (F64.mul (F64.sub (snd b) (snd a)) (F64.sub (fst p) (fst b))) in
  if F64.ltb val F64.zero then 1
  else if F64.gtb val F64.zero then -1
  else 0.

(** [Line.Intersects]: whether two segments meet.  The end points of each
    are on different sides of the other; or an end point of one is on the
    line through the other and within its bound. *)
Definition Line_Intersects (l line : Line) : bool :=
  let s1 := Side l (fst line) in
  let s2 := Side l (snd line) in
  let s3 := Side line (fst l) in
  let s4 := Side line (snd l) in
  if negb (s1 =? s2) && negb (s3 =? s4) then true
  else
    let lBound := Line_Bound l in
    if (s1 =? 0) && Bound_Contains lBound (fst line) then true
    else if (s2 =? 0) && Bound_Contains lBound (snd line) then true
    else
      let lineBound := Line_Bound line in
      if (s3 =? 0) && Bound_Contains lineBound (fst l) then true
      else if (s4 =? 0) && Bound_Contains lineBound (snd l) then true
      else false.

(** The segments between successive points of a path. *)
Fixpoint segments (ps : PointSet) : list Line :=
  match ps with
  | p :: ((q :: _) as t) => (p, q) :: segments t
  | _ => []
  end.

(** [Path.IntersectsPath]: false when the bounds of the two paths do not
    meet; otherwise, whether some segment of [p] meets some segment of
    [path]. *)
Definition IntersectsPath (p path : PointSet) : bool :=
  if negb (Bound_Intersects (PointSet_Bound p) (PointSet_Bound path)) then false
  else
    existsb (fun pLine => existsb (fun pathLine => Line_Intersects pLine pathLine)
                                  (segments path))
            (segments p).

End geo.

(** ** Streets *)

Record street := {
  Path : geo.PointSet;
  Name : string;
  Oneway : string;
  WayId : Z
}.

Record Vector := { dX : float64; dY : float64 }.

Definition createPathVector (pos1 pos2 : geo.Point) : Vector :=
  let ydiff := F64.sub (snd pos2) (snd pos1) in
  let xdiff := F64.sub (fst pos2) (fst pos1) in
  {| dX := xdiff; dY := ydiff |}.

Definition cosBetween2Vectors (a b : Vector) : float64 :=
  let dividend := F64.add (F64.mul (dX a) (dX b)) (F64.mul (dY a) (dY b)) in
  let divisor := F64.mul (F64.sqrt (F64.add (F64.mul (dX a) (dX a)) (F64.mul (dY a) (dY a))))
                         (F64.sqrt (F64.add (F64.mul (dX b) (dX b)) (F64.mul (dY b) (dY b)))) in
  let cos := F64.div dividend divisor in
  cos.

Definition isTwoPathsSameDirection (a b : Vector) : bool :=
  let cos := cosBetween2Vectors a b in
  F64.gtb cos F64.zero && F64.leb cos (F64.of_Z 1).

Definition getShortestDistance (Path1 Path2 : geo.PointSet) : float64 :=
  let shortestDistance := geo.DistanceFrom (geo.First Path1) (geo.First Path2) in
  let shortestDistance :=
    if F64.gtb shortestDistance (geo.DistanceFrom (geo.First Path1) (geo.Last Path2))
    then geo.DistanceFrom (geo.First Path1) (geo.Last Path2) else shortestDistance in
  let shortestDistance :=
    if F64.gtb shortestDistance (geo.DistanceFrom (geo.Last Path1) (geo.First Path2))
    then geo.DistanceFrom (geo.Last Path1) (geo.First Path2) else shortestDistance in
  let shortestDistance :=
    if F64.gtb shortestDistance (geo.DistanceFrom (geo.Last Path1) (geo.Last Path2))
    then geo.DistanceFrom (geo.Last Path1) (geo.Last Path2) else shortestDistance in
  shortestDistance.

Definition shortestDistanceWhenSameDirection (Path1 Path2 : geo.PointSet) : float64 :=
  let shortestDistance := geo.DistanceFrom (geo.Last Path1) (geo.First Path2) in
  let shortestDistance :=
    if F64.gtb shortestDistance (geo.DistanceFrom (geo.First Path1) (geo.Last Path2))
    then geo.DistanceFrom (geo.First Path1) (geo.Last Path2) else shortestDistance in
  shortestDistance.


(** ** The store of streets, slices of pointers, cluster maps *)

(** A [*street] is the position of the street in the store. *)
Definition ptr : Type := nat.
Definition store : Type := list street.

Definition nil_street : street := {| Path := []; Name := ""; Oneway := ""; WayId := 0 |}.

Definition deref (h : store) (p : ptr) : street := nth p h nil_street.

(** Assignment through a pointer. *)
Fixpoint update (h : store) (p : ptr) (f : street -> street) : store :=
  match h, p with
  | [], _ => []
  | s :: t, O => f s :: t
  | s :: t, Datatypes.S p' => s :: update t p' f
  end.

Definition set_Name (n : string) (s : street) : street :=
  {| Path := Path s; Name := n; Oneway := Oneway s; WayId := WayId s |}.

Definition set_Path (ps : geo.PointSet) (s : street) : street :=
  {| Path := ps; Name := Name s; Oneway := Oneway s; WayId := WayId s |}.

Definition PathOf (h : store) (p : ptr) : geo.PointSet := Path (deref h p).

(** [len(s)] and [s[i]] on a slice of pointers.  The program indexes within
    bounds. *)
Definition len (s : list ptr) : Z := Z.of_nat (List.length s).
Definition at_ (s : list ptr) (i : Z) : ptr := nth (Z.to_nat i) s 0%nat.

Fixpoint removeStreet_from (k : Z) (s : list ptr) (index_ : Z) : list ptr :=
  match s with
  | [] => []
  | x :: t =>
    if index_ =? k then removeStreet_from (k + 1) t index_
    else x :: removeStreet_from (k + 1) t index_
  end.

(** [removeStreet]: a new slice without the element at [index]. *)
Definition removeStreet (s : list ptr) (index_ : Z) : list ptr := removeStreet_from 0 s index_.

(** [map[string][]*street]. *)
Definition smap : Type := list (string * list ptr).

Fixpoint lookup (m : smap) (k : string) : option (list ptr) :=
  match m with
  | [] => None
  | (k', v) :: t => if String.eqb k' k then Some v else lookup t k
  end.

(** [m[k] = v]. *)
Fixpoint assign (m : smap) (k : string) (v : list ptr) : smap :=
  match m with
  | [] => [(k, v)]
  | (k', v') :: t => if String.eqb k' k then (k, v) :: t else (k', v') :: assign t k v
  end.

(** [if _, ok := m[k]; !ok { m[k] = []*street{x} } else { m[k] = append(m[k], x) }],
    and [m[k] = append(m[k], x)]. *)
Definition append_to (m : smap) (k : string) (x : ptr) : smap :=
  match lookup m k with
  | None => assign m k [x]
  | Some v => assign m k (v ++ [x])
  end.

Definition keys (m : smap) : list string := map fst m.

(** The pointers held by a map. *)
Definition pointers (m : smap) : list ptr := List.concat (map snd m).

(** What the program takes from outside [joinStreets]: [strings.ToLower]; the
    answer of the name parser to each text (a fixed function); and, for each
    of the [range] loops over a map (numbered in the order of the source),
    the order in which the keys of the map are visited. *)
Record environment := {
  ToLower : string -> string;
  parse : string -> string;
  range_order : nat -> list string -> list string
}.

(** The entries of a map in the order [range] visits them. *)
Definition range_ (E : environment) (loop_id : nat) (m : smap) : list (string * list ptr) :=
  map (fun k => (k, match lookup m k with Some v => v | None => [] end))
      (range_order E loop_id (keys m)).

(** ** Loops *)

(** The result of running a piece of the program with a bound on the number
    of loop iterations. *)
Inductive result (A : Type) : Type :=
| Done (a : A)
| Panic            (* a run-time panic: nil pointer, index out of range *)
| OutOfFuel.       (* the bound was reached *)
Arguments Done {A} a.
Arguments Panic {A}.
Arguments OutOfFuel {A}.

Definition rbind {A B} (r : result A) (k : A -> result B) : result B :=
  match r with
  | Done a => k a
  | Panic => Panic
  | OutOfFuel => OutOfFuel
  end.

(** One iteration of a [for] loop: go on with a new state, leave the loop, or
    panic. *)
Inductive flow (S : Type) : Type :=
| Next (s : S)
| Stop (s : S)
| Fault.
Arguments Next {S} s.
Arguments Stop {S} s.
Arguments Fault {S}.

Fixpoint loop {S : Type} (body : S -> flow S) (fuel : nat) (s : S) : result S :=
  match fuel with
  | O => OutOfFuel
  | Datatypes.S f =>
    match body s with
    | Next s' => loop body f s'
    | Stop s' => Done s'
    | Fault => Panic
    end
  end.

(** A loop over a list whose body may fail. *)
Fixpoint foreach {A S : Type} (body : A -> S -> result S) (l : list A) (s : S) : result S :=
  match l with
  | [] => Done s
  | a :: t => rbind (body a s) (foreach body t)
  end.

(** ** Helpers of the merge stages *)

Fixpoint set_nth (l : list ptr) (i : nat) (x : ptr) : list ptr :=
  match l, i with
  | [], _ => []
  | _ :: t, O => x :: t
  | y :: t, Datatypes.S i' => y :: set_nth t i' x
  end.

(** [temp := s[i]; s[i] = s[j]; s[j] = temp]. *)
Definition swap (l : list ptr) (i j : nat) : list ptr :=
  match nth_error l i, nth_error l j with
  | Some a, Some b => set_nth (set_nth l i b) j a
  | _, _ => l
  end.

(** [sortStreetsDescLength]: the two nested loops of the source, swapping in
    place. *)
Definition sortStreetsDescLength (h : store) (streets : list ptr) : list ptr :=
  let n := List.length streets in
  fold_left
    (fun sortedStreets i =>
       fold_left
         (fun sortedStreets j =>
            if F64.gtb (geo.Distance (PathOf h (nth j sortedStreets 0%nat)))
                       (geo.Distance (PathOf h (nth i sortedStreets 0%nat)))
            then swap sortedStreets i j else sortedStreets)
         (seq i (n - i)) sortedStreets)
    (seq 0 (n - 1)) streets.

Fixpoint getLongestStreetIndex_from (h : store) (streets : list ptr) (i : Z)
         (distance : float64) (index_ : Z) : Z :=
  match streets with
  | [] => index_
  | st :: t =>
    if F64.ltb distance (geo.Distance (PathOf h st))
    then getLongestStreetIndex_from h t (i + 1) (geo.Distance (PathOf h st)) i
    else getLongestStreetIndex_from h t (i + 1) distance index_
  end.

Definition getLongestStreetIndex (h : store) (streets : list ptr) : Z :=
  getLongestStreetIndex_from h streets 0 F64.zero 0.

(** [removeRoundabout]: every street whose first and last point are at
    distance 0 is taken out. *)
Definition removeRoundabout (h : store) (streets : list ptr) : list ptr :=
  filter (fun st => negb (F64.eqb (geo.DistanceFrom (geo.First (PathOf h st))
                                                    (geo.Last (PathOf h st))) F64.zero))
         streets.

Definition shortestDistanceToOtherStreets (h : store) (current : ptr) (streets : list ptr)
  : float64 :=
  match streets with
  | [] => F64.zero
  | s0 :: rest =>
    fold_left
      (fun shortestDistance si =>
         let distance := getShortestDistance (PathOf h current) (PathOf h si) in
         if F64.gtb shortestDistance distance then distance else shortestDistance)
      rest (getShortestDistance (PathOf h current) (PathOf h s0))
  end.

Definition shortestDistanceToOtherSameDirectionStreets (h : store) (current : ptr)
           (streets : list ptr) : float64 :=
  match streets with
  | [] => F64.zero
  | s0 :: rest =>
    fold_left
      (fun shortestDistance si =>
         let distance := shortestDistanceWhenSameDirection (PathOf h current) (PathOf h si) in
         if F64.gtb shortestDistance distance then distance else shortestDistance)
      rest (shortestDistanceWhenSameDirection (PathOf h current) (PathOf h s0))
  end.

(** The closure [reversePath] of the merge stages reverses the points of a
    path in place. *)
Definition reversePath (h : store) (p : ptr) : store :=
  update h p (fun s => set_Path (rev (Path s)) s).

(** [for _, point := range src.Path.PointSet { if point.Equals(match) { continue };
    dst.Path.Push(&point) }], where [match] points at position [matchIndex]
    of the points of [dst]. *)
Definition pushPoints (h : store) (dst src : ptr) (matchIndex : nat) : store :=
  let match_ := nth matchIndex (PathOf h dst) geo.origin in
  let points := filter (fun point => negb (geo.Equals point match_)) (PathOf h src) in
  update h dst (fun s => set_Path (Path s ++ points) s).

(** The position [Last()] points at. *)
Definition lastIndex (h : store) (p : ptr) : nat := Nat.pred (List.length (PathOf h p)).

(** The four ways the stages join [src] onto [dst]. *)

(** [match = dst.Last()]; push. *)
Definition mergeLastFirst (h : store) (dst src : ptr) : store :=
  pushPoints h dst src (lastIndex h dst).

(** [match = dst.First()]; flip both; push; flip both back. *)
Definition mergeFirstLast (h : store) (dst src : ptr) : store :=
  let h := reversePath h dst in
  let h := reversePath h src in
  let h := pushPoints h dst src 0 in
  let h := reversePath h dst in
  reversePath h src.

(** [match = dst.Last()]; flip [src]; push; flip [src] back. *)
Definition mergeLastLast (h : store) (dst src : ptr) : store :=
  let matchIndex := lastIndex h dst in
  let h := reversePath h src in
  let h := pushPoints h dst src matchIndex in
  reversePath h src.

(** [match = dst.First()]; flip [dst]; push; flip [dst] back. *)
Definition mergeFirstFirst (h : store) (dst src : ptr) : store :=
  let h := reversePath h dst in
  let h := pushPoints h dst src 0 in
  reversePath h dst.

Definition distanceGroup : float64 := F64.decimal 3 3.      (* 0.003 *)
Definition distanceTolerance : float64 := F64.decimal 3 3.  (* 0.003 *)

(** ** joinStreets, stage by stage *)

(** *** Name normalisation (lines 174-215) *)

(** The prefix the source writes with its accents: d-stroke, u-horn,
    o-horn-grave, n, g. *)
Definition duong_with_sign : string := utf8 [0x111; 0x1B0; 0x1EDD; 0x6E; 0x67].

(** The names the loop skips before it calls the parser. *)
Definition ignored (normName : string) : bool :=
  HasPrefix normName "kiet" || HasPrefix normName "hem" ||
  HasPrefix normName "cau" || HasPrefix normName "vong xuyen".

(** One iteration of [for _, st := range streets]. *)
Definition normalizeStreet (E : environment) (acc : smap * store) (st : ptr) : smap * store :=
  let '(nameMap, h) := acc in
  let normName := ToLower E (Name (deref h st)) in
  let normNameHasSign := normName in
  let normName := removeAccent normName in
  if ignored normName then acc
  else if String.eqb normName "ngo chu huy man" then acc
  else
    let normName :=
      if negb (HasPrefix normNameHasSign duong_with_sign)
      then parse E ("duong " ++ normName)%string
      else parse E normName in
    if String.eqb normName "" then acc
    else (append_to nameMap normName st, update h st (set_Name normName)).

Definition normalizeStreets (E : environment) (streets : list ptr) (h : store) : smap * store :=
  fold_left (normalizeStreet E) streets ([], h).

(** *** Proximity groups (lines 223-265) *)

Module Proximity.

Record state := {
  strs : list ptr;
  i : Z;
  baseStreet : option ptr;
  normName : string;
  group : Z;
  streetGroup : list ptr;
  groupDistanceNameMap : smap
}.

(** One iteration of [for i := 0; i < len(strs); i++], with the [i++]. *)
Definition body (E : environment) (h : store) (s : state) : flow state :=
  if i s <? len (strs s) then
    if i s =? 0 then
      let baseStreet' := at_ (strs s) 0 in
      let normName' := ToLower E (Name (deref h baseStreet')) in
      let normName' := (normName' ++ "__" ++ Itoa (group s))%string in
      Next {| strs := strs s; i := 0 + 1;
              baseStreet := Some baseStreet';
              normName := normName';
              group := group s + 1;
              streetGroup := [baseStreet'];
              groupDistanceNameMap := assign (groupDistanceNameMap s) normName' [baseStreet'] |}
    else
      let currentStreet := at_ (strs s) (i s) in
      if F64.ltb (shortestDistanceToOtherStreets h currentStreet (streetGroup s)) distanceGroup
      then
        Next {| strs := removeStreet (strs s) (i s); i := 0 + 1;
                baseStreet := baseStreet s;
                normName := normName s;
                group := group s;
                streetGroup := streetGroup s ++ [currentStreet];
                groupDistanceNameMap :=
                  append_to (groupDistanceNameMap s) (normName s) currentStreet |}
      else if i s =? len (strs s) - 1 then
        Next {| strs := removeStreet (strs s) 0; i := -1 + 1;
                baseStreet := baseStreet s;
                normName := normName s;
                group := group s;
                streetGroup := streetGroup s;
                groupDistanceNameMap := groupDistanceNameMap s |}
      else
        Next {| strs := strs s; i := i s + 1;
                baseStreet := baseStreet s;
                normName := normName s;
                group := group s;
                streetGroup := streetGroup s;
                groupDistanceNameMap := groupDistanceNameMap s |}
  else Stop s.

(** The state before the first iteration, for one entry of [nameMap]. *)
Definition init (E : environment) (h : store) (strs0 : list ptr) (m : smap) : state :=
  {| strs := strs0; i := 0; baseStreet := None;
     normName := ToLower E (Name (deref h (at_ strs0 0)));
     group := 1; streetGroup := [];
     groupDistanceNameMap := m |}.

(** The body of [for _, strs := range nameMap]. *)
Definition entry (E : environment) (h : store) (fuel : nat)
           (kv : string * list ptr) (m : smap) : result smap :=
  let strs0 := sortStreetsDescLength h (snd kv) in
  match strs0 with
  | [] => Panic                                   (* strs[0] *)
  | _ =>
    rbind (loop (body E h) fuel (init E h strs0 m))
          (fun s => Done (groupDistanceNameMap s))
  end.

Definition run (E : environment) (h : store) (fuel : nat) (nameMap : smap) : result smap :=
  foreach (entry E h fuel) (range_ E 1 nameMap) [].

End Proximity.

(** *** Direction groups (lines 270-354) *)

Module Direction.

Record state := {
  strs : list ptr;
  i : Z;
  baseStreet : option ptr;
  baseVector : option Vector;
  normName : string;
  group : Z;
  groupDirectionNameMap : smap
}.

(** [if i == len(strs) - 1 { strs = removeStreet(strs, 0); i = -1 }]. *)
Definition atLast (strs : list ptr) (i : Z) : list ptr * Z :=
  if i =? len strs - 1 then (removeStreet strs 0, -1) else (strs, i).

Definition body (h : store) (groupStreetName : string) (s : state) : flow state :=
  if i s <? len (strs s) then
    let '(baseStreet', baseVector') :=
      if i s =? 0
      then (Some (at_ (strs s) 0),
            Some (createPathVector (geo.First (PathOf h (at_ (strs s) 0)))
                                   (geo.Last (PathOf h (at_ (strs s) 0)))))
      else (baseStreet s, baseVector s) in
    if String.eqb (Oneway (deref h (at_ (strs s) (i s)))) "yes" then
      (* "create a new group street": the body of [if len(strs) <= 1] and of
         [if i == 0], which are the same *)
      let newGroup :=
        match baseStreet' with
        | None => Fault
        | Some b =>
          let normName' := (groupStreetName ++ "--" ++ Itoa (group s))%string in
          Next {| strs := strs s; i := i s + 1;
                  baseStreet := baseStreet'; baseVector := baseVector';
                  normName := normName';
                  group := group s + 1;
                  groupDirectionNameMap := append_to (groupDirectionNameMap s) normName' b |}
        end in
      if len (strs s) <=? 1 then newGroup
      else if i s =? 0 then newGroup
      else
        let currentStreet := at_ (strs s) (i s) in
        match baseVector' with
        | None => Fault
        | Some bv =>
          let same :=
            isTwoPathsSameDirection bv
              (createPathVector (geo.First (PathOf h currentStreet))
                                (geo.Last (PathOf h currentStreet))) in
          let '(m1, strs1, i1) :=
            if same
            then (append_to (groupDirectionNameMap s) (normName s) currentStreet,
                  removeStreet (strs s) (i s), i s - 1)
            else (groupDirectionNameMap s, strs s, i s) in
          let '(strs2, i2) := atLast strs1 i1 in
          Next {| strs := strs2; i := i2 + 1;
                  baseStreet := baseStreet'; baseVector := baseVector';
                  normName := normName s;
                  group := group s;
                  groupDirectionNameMap := m1 |}
        end
    else
      let m1 := append_to (groupDirectionNameMap s) groupStreetName (at_ (strs s) (i s)) in
      let strs1 := removeStreet (strs s) (i s) in
      let i1 := i s - 1 in
      let '(strs2, i2) := atLast strs1 i1 in
      Next {| strs := strs2; i := i2 + 1;
              baseStreet := baseStreet'; baseVector := baseVector';
              normName := normName s;
              group := group s;
              groupDirectionNameMap := m1 |}
  else Stop s.

Definition init (groupStreetName : string) (strs0 : list ptr) (m : smap) : state :=
  {| strs := strs0; i := 0; baseStreet := None; baseVector := None;
     normName := groupStreetName; group := 0;
     groupDirectionNameMap := m |}.

Definition entry (h : store) (fuel : nat) (kv : string * list ptr) (m : smap) : result smap :=
  let strs0 := sortStreetsDescLength h (snd kv) in
  rbind (loop (body h (fst kv)) fuel (init (fst kv) strs0 m))
        (fun s => Done (groupDirectionNameMap s)).

Definition run (E : environment) (h : store) (fuel : nat) (groupDistanceNameMap : smap)
  : result smap :=
  foreach (entry h fuel) (range_ E 2 groupDistanceNameMap) [].

End Direction.

(** *** The distances and tests the three merge stages share *)

(** The distances between the end points of the base [b] and the candidate
    [c], and the direction test on their chords. *)
Definition dLastFirst (h : store) (b c : ptr) : float64 :=
  geo.DistanceFrom (geo.Last (PathOf h b)) (geo.First (PathOf h c)).
Definition dFirstLast (h : store) (b c : ptr) : float64 :=
  geo.DistanceFrom (geo.First (PathOf h b)) (geo.Last (PathOf h c)).
Definition dLastLast (h : store) (b c : ptr) : float64 :=
  geo.DistanceFrom (geo.Last (PathOf h b)) (geo.Last (PathOf h c)).
Definition dFirstFirst (h : store) (b c : ptr) : float64 :=
  geo.DistanceFrom (geo.First (PathOf h b)) (geo.First (PathOf h c)).

Definition sameDirection (h : store) (b c : ptr) : bool :=
  let vector1 := createPathVector (geo.First (PathOf h b)) (geo.Last (PathOf h b)) in
  let vector2 := createPathVector (geo.First (PathOf h c)) (geo.Last (PathOf h c)) in
  isTwoPathsSameDirection vector1 vector2.

(** [str1.Path.IntersectsPath(str2.Path)]: the test of the guard "not merge
    streets ..., intersect together but distance greater than distance
    range". *)
Definition intersects (h : store) (b c : ptr) : bool :=
  geo.IntersectsPath (PathOf h b) (PathOf h c).

(** [i == (len(strs) - 1) || len(strs) < 1]. *)
Definition atEnd (strs : list ptr) (i : Z) : bool :=
  (i =? len strs - 1) || (len strs <? 1).

(** *** mergeStreetSameDirection (lines 1115-1413) *)

Module SameDirection.

Definition distanceRange : float64 := F64.decimal 65 5.   (* 0.00065 *)

Record state := {
  strs : list ptr;
  i : Z;
  str1 : option ptr;
  normName : string;
  mergedStreetMap : smap;
  heap : store
}.

(** The end of an iteration that was not left by [continue]: "when reach
    to the last item of list street, then remove the first item and loop
    again"; then [i++]. *)
Definition finish (strName : string) (b : ptr) (strs' : list ptr) (i' : Z)
           (normName' : string) (m : smap) (h : store) : flow state :=
  if atEnd strs' i'
  then Next {| strs := removeStreet strs' 0; i := -1 + 1; str1 := Some b;
               normName := strName;
               mergedStreetMap := append_to m strName b; heap := h |}
  else Next {| strs := strs'; i := i' + 1; str1 := Some b;
               normName := normName'; mergedStreetMap := m; heap := h |}.

(** The guard's branch: nothing is merged; at the last item the base is
    emitted and the first item removed; [continue]. *)
Definition refuse (strName : string) (b : ptr) (s : state) : flow state :=
  if i s =? len (strs s) - 1
  then Next {| strs := removeStreet (strs s) 0; i := -1 + 1; str1 := Some b;
               normName := strName;
               mergedStreetMap := append_to (mergedStreetMap s) strName b;
               heap := heap s |}
  else Next {| strs := strs s; i := i s + 1; str1 := Some b;
               normName := normName s; mergedStreetMap := mergedStreetMap s;
               heap := heap s |}.

Definition body (strName : string) (s : state) : flow state :=
  if i s <? len (strs s) then
    if len (strs s) =? 1 then
      Next {| strs := strs s; i := i s + 1; str1 := str1 s; normName := normName s;
              mergedStreetMap := append_to (mergedStreetMap s) (normName s) (at_ (strs s) 0);
              heap := heap s |}
    else if i s =? 0 then
      Next {| strs := strs s; i := i s + 1; str1 := Some (at_ (strs s) 0);
              normName := normName s; mergedStreetMap := mergedStreetMap s;
              heap := heap s |}
    else
      match str1 s with
      | None => Fault
      | Some b =>
        let h := heap s in
        let m := mergedStreetMap s in
        let shortestDistanceToOtherStreets_ :=
          shortestDistanceToOtherStreets h b (removeStreet (strs s) 0) in
        let shortestDistanceToOtherSameDirectionStreets_ :=
          shortestDistanceToOtherSameDirectionStreets h b (removeStreet (strs s) 0) in
        let str2 := at_ (strs s) (i s) in
        let isTwoPathsSameDirection_ := sameDirection h b str2 in
        if String.eqb (Oneway (deref h str2)) "yes" then
          let shortestDistanceWhenSameDirection_ :=
            shortestDistanceWhenSameDirection (PathOf h b) (PathOf h str2) in
          if intersects h b str2 && F64.gtb shortestDistanceWhenSameDirection_ distanceRange
          then refuse strName b s
          else if isTwoPathsSameDirection_
                  && F64.eqb (dLastFirst h b str2) shortestDistanceToOtherSameDirectionStreets_
                  && F64.ltb shortestDistanceToOtherSameDirectionStreets_ distanceTolerance
          then finish strName b (removeStreet (strs s) (i s)) 0 (normName s) m
                      (mergeLastFirst h b str2)
          else if isTwoPathsSameDirection_
                  && F64.eqb (dFirstLast h b str2) shortestDistanceToOtherSameDirectionStreets_
                  && F64.ltb shortestDistanceToOtherSameDirectionStreets_ distanceTolerance
          then finish strName b (removeStreet (strs s) (i s)) 0 (normName s) m
                      (mergeFirstLast h b str2)
          else if (F64.eqb (dLastFirst h b str2) shortestDistanceToOtherSameDirectionStreets_
                   || F64.eqb (dFirstLast h b str2) shortestDistanceToOtherSameDirectionStreets_)
                  && F64.geb shortestDistanceToOtherSameDirectionStreets_ distanceTolerance
          then finish strName b (removeStreet (strs s) (i s)) (i s - 1) (normName s)
                      (append_to m (normName s) str2) h
          else finish strName b (strs s) (i s) (normName s) m h
        else
          let shortestDistance := getShortestDistance (PathOf h b) (PathOf h str2) in
          if intersects h b str2 && F64.gtb shortestDistance distanceRange
          then refuse strName b s
          else if F64.eqb (dLastFirst h b str2) shortestDistanceToOtherStreets_
                  && F64.ltb shortestDistanceToOtherStreets_ distanceTolerance
          then finish strName b (removeStreet (strs s) (i s)) 0 (normName s) m
                      (mergeLastFirst h b str2)
          else if F64.eqb (dFirstLast h b str2) shortestDistanceToOtherStreets_
                  && F64.ltb shortestDistanceToOtherStreets_ distanceTolerance
          then finish strName b (removeStreet (strs s) (i s)) 0 (normName s) m
                      (mergeFirstLast h b str2)
          else if F64.eqb (dLastLast h b str2) shortestDistanceToOtherStreets_
                  && F64.ltb shortestDistanceToOtherStreets_ distanceTolerance
          then finish strName b (removeStreet (strs s) (i s)) 0 (normName s) m
                      (mergeLastLast h b str2)
          else if F64.eqb (dFirstFirst h b str2) shortestDistanceToOtherStreets_
                  && F64.ltb shortestDistanceToOtherStreets_ distanceTolerance
          then finish strName b (removeStreet (strs s) (i s)) 0 (normName s) m
                      (mergeFirstFirst h b str2)
          else if F64.eqb (dLastFirst h b str2) shortestDistanceToOtherStreets_
                  || F64.eqb (dFirstLast h b str2) shortestDistanceToOtherStreets_
                  || F64.eqb (dLastLast h b str2) shortestDistanceToOtherStreets_
                  || F64.eqb (dFirstFirst h b str2) shortestDistanceToOtherStreets_
          then finish strName b (removeStreet (strs s) (i s)) (i s - 1) (normName s)
                      (append_to m (normName s) str2) h
          else finish strName b (strs s) (i s) (normName s) m h
      end
  else Stop s.

Definition init (strName : string) (strs0 : list ptr) (m : smap) (h : store) : state :=
  {| strs := strs0; i := 0; str1 := None; normName := strName;
     mergedStreetMap := m; heap := h |}.

(** The body of [for strName, strs := range nameMap]. *)
Definition entry (fuel : nat) (kv : string * list ptr) (mh : smap * store)
  : result (smap * store) :=
  let strs0 := sortStreetsDescLength (snd mh) (snd kv) in
  rbind (loop (body (fst kv)) fuel (init (fst kv) strs0 (fst mh) (snd mh)))
        (fun s => Done (mergedStreetMap s, heap s)).

Definition run (E : environment) (fuel : nat) (nameMap : smap) (h : store)
  : result (smap * store) :=
  foreach (entry fuel) (range_ E 3 nameMap) ([], h).

End SameDirection.

(** *** mergeLaneSameDirection (lines 1417-1707) *)

Module Lane.

Definition distanceRange : float64 := F64.decimal 5 4.   (* 0.0005 *)

Record state := {
  strs : list ptr;
  i : Z;
  mergedStreetMap : smap;
  heap : store
}.

(** The end of an iteration that was not left by [continue]; then [i++]. *)
Definition finish (normName : string) (baseStreet : ptr) (strs' : list ptr) (i' : Z)
           (m : smap) (h : store) : flow state :=
  if atEnd strs' i'
  then Next {| strs := removeStreet strs' i'; i := -1 + 1;
               mergedStreetMap := append_to m normName baseStreet; heap := h |}
  else Next {| strs := strs'; i := i' + 1; mergedStreetMap := m; heap := h |}.

(** The guard's branch: the candidate leaves the list, nothing is merged,
    the base is emitted at the end of the list; [continue]. *)
Definition refuse (normName : string) (baseStreet : ptr) (s : state) : flow state :=
  let strs' := removeStreet (strs s) (i s) in
  let i' := i s - 1 in
  Next {| strs := strs'; i := i' + 1;
          mergedStreetMap :=
            if atEnd strs' i' then append_to (mergedStreetMap s) normName baseStreet
            else mergedStreetMap s;
          heap := heap s |}.

Definition body (normName : string) (baseStreet : ptr) (s : state) : flow state :=
  if i s <? len (strs s) then
    let h := heap s in
    let m := mergedStreetMap s in
    let shortestDistanceToOtherStreets_ := shortestDistanceToOtherStreets h baseStreet (strs s) in
    let shortestDistanceToOtherSameDirectionStreets_ :=
      shortestDistanceToOtherSameDirectionStreets h baseStreet (strs s) in
    let currentStreet := at_ (strs s) (i s) in
    let isTwoPathsSameDirection_ := sameDirection h baseStreet currentStreet in
    if String.eqb (Oneway (deref h currentStreet)) "yes" then
      let shortestDistanceWhenSameDirection_ :=
        shortestDistanceWhenSameDirection (PathOf h baseStreet) (PathOf h currentStreet) in
      if (intersects h baseStreet currentStreet
          && F64.gtb shortestDistanceWhenSameDirection_ distanceRange)
         || F64.gtb shortestDistanceWhenSameDirection_ distanceTolerance
      then refuse normName baseStreet s
      else if isTwoPathsSameDirection_
              && F64.eqb (dLastFirst h baseStreet currentStreet)
                         shortestDistanceToOtherSameDirectionStreets_
              && F64.ltb shortestDistanceToOtherSameDirectionStreets_ distanceTolerance
      then finish normName baseStreet (removeStreet (strs s) (i s)) (-1) m
                  (mergeLastFirst h baseStreet currentStreet)
      else if isTwoPathsSameDirection_
              && F64.eqb (dFirstLast h baseStreet currentStreet)
                         shortestDistanceToOtherSameDirectionStreets_
              && F64.ltb shortestDistanceToOtherSameDirectionStreets_ distanceTolerance
      then finish normName baseStreet (removeStreet (strs s) (i s)) (-1) m
                  (mergeFirstLast h baseStreet currentStreet)
      else if (F64.eqb (dLastFirst h baseStreet currentStreet)
                       shortestDistanceToOtherSameDirectionStreets_
               || F64.eqb (dFirstLast h baseStreet currentStreet)
                          shortestDistanceToOtherSameDirectionStreets_)
              && F64.geb shortestDistanceToOtherSameDirectionStreets_ distanceTolerance
      then finish normName baseStreet (removeStreet (strs s) (i s)) (i s - 1)
                  (append_to m normName currentStreet) h
      else finish normName baseStreet (strs s) (i s) m h
    else
      let shortestDistance :=
        getShortestDistance (PathOf h baseStreet) (PathOf h currentStreet) in
      if intersects h baseStreet currentStreet && F64.gtb shortestDistance distanceRange
      then refuse normName baseStreet s
      else if F64.eqb (dLastFirst h baseStreet currentStreet) shortestDistanceToOtherStreets_
              && F64.ltb shortestDistanceToOtherStreets_ distanceTolerance
      then finish normName baseStreet (removeStreet (strs s) (i s)) (-1) m
                  (mergeLastFirst h baseStreet currentStreet)
      else if F64.eqb (dFirstLast h baseStreet currentStreet) shortestDistanceToOtherStreets_
              && F64.ltb shortestDistanceToOtherStreets_ distanceTolerance
      then finish normName baseStreet (removeStreet (strs s) (i s)) (-1) m
                  (mergeFirstLast h baseStreet currentStreet)
      else if F64.eqb (dLastLast h baseStreet currentStreet) shortestDistanceToOtherStreets_
              && F64.ltb shortestDistanceToOtherStreets_ distanceTolerance
      then finish normName baseStreet (removeStreet (strs s) (i s)) (-1) m
                  (mergeLastLast h baseStreet currentStreet)
      else if F64.eqb (dFirstFirst h baseStreet currentStreet) shortestDistanceToOtherStreets_
              && F64.ltb shortestDistanceToOtherStreets_ distanceTolerance
      then finish normName baseStreet (removeStreet (strs s) (i s)) (-1) m
                  (mergeFirstFirst h baseStreet currentStreet)
      else if F64.eqb (dLastFirst h baseStreet currentStreet) shortestDistanceToOtherStreets_
              || F64.eqb (dFirstLast h baseStreet currentStreet) shortestDistanceToOtherStreets_
              || F64.eqb (dLastLast h baseStreet currentStreet) shortestDistanceToOtherStreets_
              || F64.eqb (dFirstFirst h baseStreet currentStreet) shortestDistanceToOtherStreets_
      then finish normName baseStreet (removeStreet (strs s) (i s)) (i s - 1)
                  (append_to m normName currentStreet) h
      else finish normName baseStreet (strs s) (i s) m h
  else Stop s.

(** The body of [for strName, strs := range nameMap]. *)
Definition entry (fuel : nat) (kv : string * list ptr) (mh : smap * store)
  : result (smap * store) :=
  let '(m, h) := mh in
  let strs0 := sortStreetsDescLength h (snd kv) in
  let normName := SplitHead (fst kv) "--" in
  if len strs0 <? 1 then Done mh
  else if len strs0 =? 1 then Done (append_to m normName (at_ strs0 0), h)
  else
    let index_ := getLongestStreetIndex h strs0 in
    let baseStreet := at_ strs0 index_ in
    let strs1 := removeStreet strs0 index_ in
    rbind (loop (body normName baseStreet) fuel
                {| strs := strs1; i := 0; mergedStreetMap := m; heap := h |})
          (fun s => Done (mergedStreetMap s, heap s)).

Definition run (E : environment) (fuel : nat) (nameMap : smap) (h : store)
  : result (smap * store) :=
  foreach (entry fuel) (range_ E 4 nameMap) ([], h).

End Lane.

(** *** mergeStreet (lines 1710-1916) *)

Module Final.

Definition distanceRange : float64 := F64.decimal 3 4.   (* 0.0003 *)

Record state := {
  strs : list ptr;
  i : Z;
  mergedStreetMap : smap;
  heap : store
}.

Definition finish (normName : string) (baseStreet : ptr) (strs' : list ptr) (i' : Z)
           (m : smap) (h : store) : flow state :=
  if atEnd strs' i'
  then Next {| strs := removeStreet strs' i'; i := -1 + 1;
               mergedStreetMap := append_to m normName baseStreet; heap := h |}
  else Next {| strs := strs'; i := i' + 1; mergedStreetMap := m; heap := h |}.

(** The branch of a duplicate and of the guard: the candidate leaves the
    list, nothing is merged, the base is emitted at the end of the list;
    [continue]. *)
Definition refuse (normName : string) (baseStreet : ptr) (s : state) : flow state :=
  let strs' := removeStreet (strs s) (i s) in
  let i' := i s - 1 in
  Next {| strs := strs'; i := i' + 1;
          mergedStreetMap :=
            if atEnd strs' i' then append_to (mergedStreetMap s) normName baseStreet
            else mergedStreetMap s;
          heap := heap s |}.

Definition body (normName : string) (baseStreet : ptr) (s : state) : flow state :=
  if i s <? len (strs s) then
    let h := heap s in
    let m := mergedStreetMap s in
    let shortestDistanceToOtherStreets_ := shortestDistanceToOtherStreets h baseStreet (strs s) in
    let shortestDistanceToOtherSameDirectionStreets_ :=
      shortestDistanceToOtherSameDirectionStreets h baseStreet (strs s) in
    let currentStreet := at_ (strs s) (i s) in
    (* baseStreet.Path == currentStreet.Path: every street has a path object
       of its own, so the two pointers are equal when the streets are *)
    if Nat.eqb baseStreet currentStreet then refuse normName baseStreet s
    else
      let isTwoStreetsSameDirection := sameDirection h baseStreet currentStreet in
      if F64.eqb shortestDistanceToOtherSameDirectionStreets_ F64.zero
         && F64.eqb shortestDistanceToOtherSameDirectionStreets_ shortestDistanceToOtherStreets_
         && negb isTwoStreetsSameDirection
         && (i s <? len (strs s) - 1)
      then Next {| strs := strs s; i := i s + 1; mergedStreetMap := m; heap := h |}
      else
        let shortestDistance :=
          getShortestDistance (PathOf h baseStreet) (PathOf h currentStreet) in
        if intersects h baseStreet currentStreet && F64.gtb shortestDistance distanceRange
        then refuse normName baseStreet s
        else if F64.eqb (dLastFirst h baseStreet currentStreet) shortestDistanceToOtherStreets_
                && F64.ltb shortestDistanceToOtherStreets_ distanceTolerance
        then finish normName baseStreet (removeStreet (strs s) (i s)) (-1) m
                    (mergeLastFirst h baseStreet currentStreet)
        else if F64.eqb (dFirstLast h baseStreet currentStreet) shortestDistanceToOtherStreets_
                && F64.ltb shortestDistanceToOtherStreets_ distanceTolerance
        then finish normName baseStreet (removeStreet (strs s) (i s)) (-1) m
                    (mergeFirstLast h baseStreet currentStreet)
        else if F64.eqb (dLastLast h baseStreet currentStreet) shortestDistanceToOtherStreets_
                && F64.ltb shortestDistanceToOtherStreets_ distanceTolerance
        then finish normName baseStreet (removeStreet (strs s) (i s)) (-1) m
                    (mergeLastLast h baseStreet currentStreet)
        else if F64.eqb (dFirstFirst h baseStreet currentStreet) shortestDistanceToOtherStreets_
                && F64.ltb shortestDistanceToOtherStreets_ distanceTolerance
        then finish normName baseStreet (removeStreet (strs s) (i s)) (-1) m
                    (mergeFirstFirst h baseStreet currentStreet)
        else if F64.eqb (dLastFirst h baseStreet currentStreet) shortestDistanceToOtherStreets_
                || F64.eqb (dFirstLast h baseStreet currentStreet) shortestDistanceToOtherStreets_
                || F64.eqb (dLastLast h baseStreet currentStreet) shortestDistanceToOtherStreets_
                || F64.eqb (dFirstFirst h baseStreet currentStreet) shortestDistanceToOtherStreets_
        then finish normName baseStreet (strs s) (i s)
                    (append_to m normName currentStreet) h
        else finish normName baseStreet (strs s) (i s) m h
  else Stop s.

(** The body of [for strName, strs := range nameMap]. *)
Definition entry (fuel : nat) (kv : string * list ptr) (mh : smap * store)
  : result (smap * store) :=
  let '(m, h) := mh in
  let strs0 := sortStreetsDescLength h (snd kv) in
  let strs0 := removeRoundabout h strs0 in
  let normName := SplitHead (fst kv) "__" in
  if len strs0 <? 1 then Done mh
  else if len strs0 =? 1 then Done (append_to m normName (at_ strs0 0), h)
  else
    let index_ := getLongestStreetIndex h strs0 in
    let baseStreet := at_ strs0 index_ in
    let strs1 := removeStreet strs0 index_ in
    rbind (loop (body normName baseStreet) fuel
                {| strs := strs1; i := 0; mergedStreetMap := m; heap := h |})
          (fun s => Done (mergedStreetMap s, heap s)).

Definition run (E : environment) (fuel : nat) (nameMap : smap) (h : store)
  : result (smap * store) :=
  foreach (entry fuel) (range_ E 5 nameMap) ([], h).

End Final.

(** *** Output in the order of the sorted keys (lines 364-383) *)

(** [keys := make([]string, len(mergedStreet))] followed by the [append] of
    every key: the slice starts with [len(mergedStreet)] empty strings. *)
Definition outputKeys (E : environment) (mergedStreet : smap) : list string :=
  SortStrings (repeat EmptyString (List.length mergedStreet)
               ++ range_order E 6 (keys mergedStreet)).

Definition output (E : environment) (mergedStreet : smap) : list ptr :=
  fold_left
    (fun ret k =>
       match lookup mergedStreet k with
       | None => ret                      (* strs == nil *)
       | Some strs => ret ++ strs
       end)
    (outputKeys E mergedStreet) [].

(** *** joinStreets *)

(** The six maps of a run of [joinStreets] and the store after each stage
    that writes to it. *)
Record stages := {
  nameMap : smap;
  normalized : store;
  groupDistanceNameMap : smap;
  groupDirectionNameMap : smap;
  mergedStreetSameDirection : smap * store;
  mergeLaneSameDirection : smap * store;
  mergedStreet : smap * store
}.

(** The slice [streets] holds a pointer to each street of the store, in
    order. *)
Definition joinStreets_stages (E : environment) (fuel : nat) (streets : store) : result stages :=
  let '(nameMap_, h1) := normalizeStreets E (seq 0 (List.length streets)) streets in
  rbind (Proximity.run E h1 fuel nameMap_) (fun gd =>
  rbind (Direction.run E h1 fuel gd) (fun gdir =>
  rbind (SameDirection.run E fuel gdir h1) (fun m5 =>
  rbind (Lane.run E fuel (fst m5) (snd m5)) (fun m6 =>
  rbind (Final.run E fuel (fst m6) (snd m6)) (fun m7 =>
  Done {| nameMap := nameMap_; normalized := h1;
          groupDistanceNameMap := gd; groupDirectionNameMap := gdir;
          mergedStreetSameDirection := m5; mergeLaneSameDirection := m6;
          mergedStreet := m7 |}))))).

(** The pointers [joinStreets] returns, with the store they point into. *)
Definition joinStreets_ptrs (E : environment) (fuel : nat) (streets : store)
  : result (list ptr * store) :=
  rbind (joinStreets_stages E fuel streets)
        (fun st => Done (output E (fst (mergedStreet st)), snd (mergedStreet st))).

(** The streets [joinStreets] returns. *)
Definition joinStreets (E : environment) (fuel : nat) (streets : store) : result (list street) :=
  rbind (joinStreets_ptrs E fuel streets)
        (fun r => Done (map (deref (snd r)) (fst r))).

(** ** Example worlds *)

(** Lower-casing of the letters A-Z; it is [strings.ToLower] on the names of
    the examples, which hold no other upper-case letter. *)
Definition lower_ascii (a : ascii) : ascii :=
  let n := byteZ a in
  if (65 <=? n) && (n <=? 90) then byte_of (n + 32) else a.

Fixpoint ToLower_ascii (s : string) : string :=
  match s with
  | EmptyString => EmptyString
  | String a t => String (lower_ascii a) (ToLower_ascii t)
  end.

(** A parser that gives back the text without the prefix ["duong "], and
    maps that visit their keys in the order of insertion. *)
Definition plain_environment : environment :=
  {| ToLower := ToLower_ascii;
     parse := fun text => ReplaceAll text "duong " "";
     range_order := fun _ ks => ks |}.

(** Two two-way streets that cross at (0.01, 0.01), their end points 0.02
    apart, and the states in which the three merge stages test the second
    against the first. *)
Definition dpt (x y : Z) : geo.Point := (F64.decimal x 3, F64.decimal y 3).

Definition crossing : store :=
  [ {| Path := [dpt 0 0; dpt 20 20]; Name := "x"; Oneway := "no"; WayId := 1 |};
    {| Path := [dpt 0 20; dpt 20 0]; Name := "x"; Oneway := "no"; WayId := 2 |} ].

Definition crossing5 : SameDirection.state :=
  {| SameDirection.strs := [0%nat; 1%nat]; SameDirection.i := 1;
     SameDirection.str1 := Some 0%nat; SameDirection.normName := "x__1";
     SameDirection.mergedStreetMap := []; SameDirection.heap := crossing |}.

Definition crossing6 : Lane.state :=
  {| Lane.strs := [1%nat]; Lane.i := 0; Lane.mergedStreetMap := []; Lane.heap := crossing |}.

Definition crossing7 : Final.state :=
  {| Final.strs := [1%nat]; Final.i := 0; Final.mergedStreetMap := []; Final.heap := crossing |}.

(** A one-way street from (0,0) to (4,0), and a one-way loop that starts and
    ends at (1,1); the states in which the direction stage and the two
    same-direction stages test the loop against the street. *)
Definition loop_and_line : store :=
  [ {| Path := [(F64.of_Z 0, F64.of_Z 0); (F64.of_Z 4, F64.of_Z 0)];
       Name := "x"; Oneway := "yes"; WayId := 1 |};
    {| Path := [(F64.of_Z 1, F64.of_Z 1); (F64.of_Z 2, F64.of_Z 2);
                (F64.of_Z 1, F64.of_Z 1)];
       Name := "x"; Oneway := "yes"; WayId := 2 |} ].

Definition loop_direction : Direction.state :=
  {| Direction.strs := [0%nat; 1%nat]; Direction.i := 1;
     Direction.baseStreet := Some 0%nat;
     Direction.baseVector :=
       Some (createPathVector (F64.of_Z 0, F64.of_Z 0) (F64.of_Z 4, F64.of_Z 0));
     Direction.normName := "x__1--0"; Direction.group := 1;
     Direction.groupDirectionNameMap := [("x__1--0", [0%nat])] |}.

Definition loop_same : SameDirection.state :=
  {| SameDirection.strs := [0%nat; 1%nat]; SameDirection.i := 1;
     SameDirection.str1 := Some 0%nat; SameDirection.normName := "x__1--0";
     SameDirection.mergedStreetMap := []; SameDirection.heap := loop_and_line |}.

Definition loop_lane : Lane.state :=
  {| Lane.strs := [1%nat]; Lane.i := 0; Lane.mergedStreetMap := [];
     Lane.heap := loop_and_line |}.

(** Three two-way streets named "X", coordinates in millionths of a degree:
    a base from (0,0) to (20000,0); a street from (10000,-9000) to
    (10000,2500) that crosses it, every end point more than 0.01 from the end
    points of the base; and a street that continues the base from (20000,0) to
    (10500,2800), which is 0.00058 from the upper end of the crossing
    street. *)
Definition upt (x y : Z) : geo.Point := (F64.decimal x 6, F64.decimal y 6).

Definition base_crossing_link : store :=
  [ {| Path := [upt 0 0; upt 20000 0]; Name := "X"; Oneway := "no"; WayId := 1 |};
    {| Path := [upt 10000 (-9000); upt 10000 2500]; Name := "X"; Oneway := "no"; WayId := 2 |};
    {| Path := [upt 20000 0; upt 10500 2800]; Name := "X"; Oneway := "no"; WayId := 3 |} ].

(** The state in which [mergeStreetSameDirection] first tests the crossing
    street against the base. *)
Definition base_crossing_link5 : SameDirection.state :=
  {| SameDirection.strs := [0%nat; 1%nat; 2%nat]; SameDirection.i := 1;
     SameDirection.str1 := Some 0%nat; SameDirection.normName := "x__1";
     SameDirection.mergedStreetMap := []; SameDirection.heap := base_crossing_link |}.

(** An alley, "Kiệt 5", and a street, "Abc", one above the other. *)
Definition alley_and_street : store :=
  [ {| Path := [dpt 0 0; dpt 1 0];
       Name := String "K" (String "i" (utf8 [0x1EC7; 0x74; 0x20; 0x35]));
       Oneway := "no"; WayId := 1 |};
    {| Path := [dpt 0 1; dpt 2 1]; Name := "Abc"; Oneway := "no"; WayId := 2 |} ].

(** Two streets named "B" whose nearest end points are 0.01 apart. *)
Definition two_far_apart : store :=
  [ {| Path := [dpt 0 0; dpt 2 0]; Name := "B"; Oneway := "no"; WayId := 1 |};
    {| Path := [dpt 12 0; dpt 13 0]; Name := "B"; Oneway := "no"; WayId := 2 |} ].

(** The same world as [plain_environment], but the [range] of [mergeStreet]
    visits the keys in the opposite order. *)
Definition last_map_reversed : environment :=
  {| ToLower := ToLower_ascii;
     parse := fun text => ReplaceAll text "duong " "";
     range_order := fun loop_id ks => if Nat.eqb loop_id 5 then rev ks else ks |}.

(** ** Predicates and quantities of the statements *)

(** A zero of either sign, or NaN. *)
Definition zero_or_nan (x : float64) : Prop :=
  match x with
  | S754_zero _ | S754_nan => True
  | _ => False
  end.

(** A point with integer coordinates. *)
Definition zpt (x y : Z) : geo.Point := (F64.of_Z x, F64.of_Z y).

(** Two streets: a path that climbs from (0,0) to (2,4) and comes down to
    (4,0), and a path from (1,1) to (1,3) that crosses its first leg. *)
Definition tent_and_post : store :=
  [ {| Path := [zpt 0 0; zpt 2 4; zpt 4 0]; Name := "a"; Oneway := "no"; WayId := 1 |};
    {| Path := [zpt 1 1; zpt 1 3]; Name := "a"; Oneway := "no"; WayId := 2 |} ].





(** The quantity that decreases at every iteration. *)
Definition proximity_measure (s : Proximity.state) : Z :=
  len (Proximity.strs s) * (len (Proximity.strs s) + 2)
  + (len (Proximity.strs s) - Proximity.i s).

(** What one iteration does to the list and the index. *)
Inductive proximity_step (s s' : Proximity.state) : Prop :=
| step_seed :
    Proximity.i s = 0 ->
    Proximity.strs s' = Proximity.strs s ->
    Proximity.i s' = 1 ->
    Proximity.streetGroup s' = [at_ (Proximity.strs s) 0] ->
    proximity_step s s'
| step_admit :
    0 < Proximity.i s ->
    Proximity.strs s' = removeStreet (Proximity.strs s) (Proximity.i s) ->
    len (Proximity.strs s') = len (Proximity.strs s) - 1 ->
    Proximity.i s' = 1 ->
    Proximity.streetGroup s'
    = Proximity.streetGroup s ++ [at_ (Proximity.strs s) (Proximity.i s)] ->
    proximity_step s s'
| step_drop_head :
    Proximity.i s = len (Proximity.strs s) - 1 ->
    Proximity.strs s' = removeStreet (Proximity.strs s) 0 ->
    len (Proximity.strs s') = len (Proximity.strs s) - 1 ->
    Proximity.i s' = 0 ->
    proximity_step s s'
| step_advance :
    0 < Proximity.i s < len (Proximity.strs s) - 1 ->
    Proximity.strs s' = Proximity.strs s ->
    Proximity.i s' = Proximity.i s + 1 ->
    Proximity.streetGroup s' = Proximity.streetGroup s ->
    proximity_step s s'.

(** The distance the guard compares with the distance range: between the end
    points that a one-way candidate may be joined by (last to first, first to
    last), between all four pairs of end points otherwise. *)
Definition endpointDistance (h : store) (b c : ptr) : float64 :=
  if String.eqb (Oneway (deref h c)) "yes"
  then shortestDistanceWhenSameDirection (PathOf h b) (PathOf h c)
  else getShortestDistance (PathOf h b) (PathOf h c).

(** The end points of the base [b] and the candidate [c] are further apart
    than [rho]: the distance the guard compares is above [rho]; or the least
    of the four distances between their end points is above [rho], and the
    two distances from a last to a first point are numbers. *)
Definition furtherThan (h : store) (b c : ptr) (rho : float64) : Prop :=
  F64.gtb (endpointDistance h b c) rho = true
  \/ (F64.gtb (getShortestDistance (PathOf h b) (PathOf h c)) rho = true
      /\ F64.is_nan (dLastFirst h b c) = false
      /\ F64.is_nan (dFirstLast h b c) = false).

(** The first and the last point of a path are the same point. *)
Definition closed (ps : geo.PointSet) : Prop :=
  geo.First ps = geo.Last ps \/ geo.Equals (geo.First ps) (geo.Last ps) = true.

(** The invariants of the five loops over a bucket: the index is not
    negative, and the pointers of the list, of the base and of the map written
    to are among those of [S]. *)
Definition Proximity_ok (S : list ptr) (s : Proximity.state) : Prop :=
  0 <= Proximity.i s
  /\ incl (Proximity.strs s) S
  /\ incl (pointers (Proximity.groupDistanceNameMap s)) S.

Definition Direction_ok (S : list ptr) (s : Direction.state) : Prop :=
  0 <= Direction.i s
  /\ incl (Direction.strs s) S
  /\ (forall b, Direction.baseStreet s = Some b -> In b S)
  /\ incl (pointers (Direction.groupDirectionNameMap s)) S.

Definition SameDirection_ok (S : list ptr) (s : SameDirection.state) : Prop :=
  0 <= SameDirection.i s
  /\ incl (SameDirection.strs s) S
  /\ (forall b, SameDirection.str1 s = Some b -> In b S)
  /\ incl (pointers (SameDirection.mergedStreetMap s)) S.

Definition Lane_ok (S : list ptr) (s : Lane.state) : Prop :=
  0 <= Lane.i s
  /\ incl (Lane.strs s) S
  /\ incl (pointers (Lane.mergedStreetMap s)) S.

Definition Final_ok (S : list ptr) (s : Final.state) : Prop :=
  0 <= Final.i s
  /\ incl (Final.strs s) S
  /\ incl (pointers (Final.mergedStreetMap s)) S.

(** The text [joinStreets] hands to the parser for the street [st]. *)
Definition parserText (E : environment) (h : store) (st : ptr) : string :=
  let normNameHasSign := ToLower E (Name (deref h st)) in
  if negb (HasPrefix normNameHasSign duong_with_sign)
  then ("duong " ++ removeAccent normNameHasSign)%string
  else removeAccent normNameHasSign.

(** The street's name, in lower case and without accents, starts with one of
    the ignored words or is "ngo chu huy man". *)
Definition skipped (E : environment) (streets : store) (p : ptr) : Prop :=
  let normName := removeAccent (ToLower E (Name (deref streets p))) in
  HasPrefix normName "kiet" = true \/ HasPrefix normName "hem" = true
  \/ HasPrefix normName "cau" = true \/ HasPrefix normName "vong xuyen" = true
  \/ normName = "ngo chu huy man".

(** ** Further quantities and predicates of the theorems *)

(** The slice is in strictly increasing order of bytes between [low] and
    [high]. *)
Definition ascending (a : list string) (low high : Z) : Prop :=
  forall i j, low <= i -> i < j -> j <= high ->
              String.ltb (index a i) (index a j) = true.

(** The characters [streetNameParser] takes out of the URL. *)
Definition escaped (a : ascii) : bool :=
  (Ascii.eqb a " " || Ascii.eqb a "(" || Ascii.eqb a ")" || Ascii.eqb a "'"
   || Ascii.eqb a "*")%char.

(** No character of the string is one of them. *)
Fixpoint unescaped (s : string) : bool :=
  match s with
  | EmptyString => true
  | String a t => negb (escaped a) && unescaped t
  end.

Definition parserPrefix : string := "http://parser.map4d.vn/parser/parse?text=".

(** [street.Path.Distance()] of the street a pointer points to. *)
Definition lengthOf (h : store) (p : ptr) : float64 := geo.Distance (PathOf h p).

(** The order [sortStreetsDescLength] is named after: [a] stands before [b]
    when [b] is not longer than [a]. *)
Definition notShorter (h : store) (a b : ptr) : Prop :=
  F64.leb (lengthOf h b) (lengthOf h a) = true.

(** The inner loop of [sortStreetsDescLength], for the position [i]. *)
Definition pass (h : store) (i : nat) (l : list ptr) (j : nat) : list ptr :=
  if F64.gtb (geo.Distance (PathOf h (nth j l 0%nat)))
             (geo.Distance (PathOf h (nth i l 0%nat)))
  then swap l i j else l.

(** Not below zero: a zero, a positive number, positive infinity or NaN. *)
Definition notNegative (x : float64) : Prop :=
  match x with
  | S754_infinity true | S754_finite true _ _ => False
  | _ => True
  end.

(** The points of a candidate that a merge pushes onto a base whose path is
    [base]: those that are not equal to the last point of [base]. *)
Definition taken (base ps : geo.PointSet) : geo.PointSet :=
  filter (fun point => negb (geo.Equals point (geo.Last base))) ps.

(** The four merges of the stages. *)
Definition merges : list (store -> ptr -> ptr -> store) :=
  [mergeLastFirst; mergeFirstLast; mergeLastLast; mergeFirstFirst].

(** All the points of all the streets of a store. *)
Definition pointsOf (h : store) : list geo.Point := List.concat (map Path h).

(** Two streets differ in their paths at most. *)
Definition sameFields (a b : street) : Prop :=
  Name a = Name b /\ Oneway a = Oneway b /\ WayId a = WayId b.

(** The store [h] holds the streets of [h0], each with its name, its one-way
    tag, its way id and its own points in their order; the points that stand
    before and after them are points of [h0]. *)
Definition extends (h0 h : store) : Prop :=
  List.length h = List.length h0
  /\ forall p,
       sameFields (deref h p) (deref h0 p)
       /\ (exists pre post, PathOf h p = pre ++ PathOf h0 p ++ post)
       /\ incl (PathOf h p) (pointsOf h0).

(** A returned street [s] is the input street at position [p], renamed and
    grown. *)
Definition grownFrom (E : environment) (streets : store) (s : street) (p : ptr) : Prop :=
  (p < List.length streets)%nat
  /\ WayId s = WayId (deref streets p)
  /\ Oneway s = Oneway (deref streets p)
  /\ Name s = parse E (parserText E streets p)
  /\ (exists pre post, Path s = pre ++ Path (deref streets p) ++ post)
  /\ incl (Path s) (pointsOf streets).

(** The invariant of the loop of lines 174-215. *)
Definition normalizedBy (E : environment) (streets : store) (acc : smap * store) : Prop :=
  List.length (snd acc) = List.length streets
  /\ (forall p, Path (deref (snd acc) p) = Path (deref streets p)
                /\ Oneway (deref (snd acc) p) = Oneway (deref streets p)
                /\ WayId (deref (snd acc) p) = WayId (deref streets p))
  /\ (forall p, In p (pointers (fst acc)) ->
                (p < List.length streets)%nat
                /\ Name (deref (snd acc) p) = parse E (parserText E streets p)).

(** The quantity that decreases at every iteration of a loop that scans a
    work list [strs] with the index [i]. *)
Definition scan_measure (strs : list ptr) (i : Z) : Z :=
  len strs * (len strs + 2) + (len strs - i).

(** An iteration that leaves the list [strs] at index [i] for the list
    [strs'] at index [i']: the list is shorter, or it is as long and the index
    is the next one. *)
Definition scan_step (strs : list ptr) (i : Z) (strs' : list ptr) (i' : Z) : Prop :=
  0 <= i' <= len strs'
  /\ (len strs' < len strs \/ (len strs' = len strs /\ i' = i + 1)).

(** The invariants of the four loops: the index is within the list, and the
    base is set where the body reads it. *)
Definition Direction_scan (s : Direction.state) : Prop :=
  0 <= Direction.i s <= len (Direction.strs s)
  /\ (Direction.i s <> 0 ->
      Direction.baseStreet s <> None /\ Direction.baseVector s <> None).

Definition SameDirection_scan (s : SameDirection.state) : Prop :=
  0 <= SameDirection.i s <= len (SameDirection.strs s)
  /\ (0 < SameDirection.i s < len (SameDirection.strs s) -> SameDirection.str1 s <> None).

Definition Lane_scan (s : Lane.state) : Prop :=
  0 <= Lane.i s <= len (Lane.strs s).

Definition Final_scan (s : Final.state) : Prop :=
  0 <= Final.i s <= len (Final.strs s).

(** [range] over a map visits every key once, in some order. *)
Definition orderly (E : environment) : Prop :=
  forall loop_id ks, Permutation (range_order E loop_id ks) ks.

(** Every pointer of the slice points at a street of the store that has at
    least one point. *)
Definition withPoints (h : store) (strs : list ptr) : Prop :=
  Forall (fun p => PathOf h p <> []) strs.

(** No bucket of the map is empty. *)
Definition inhabited (m : smap) : Prop :=
  forall k, In k (keys m) -> exists x v, lookup m k = Some (x :: v).

(** A computation that takes a bound on the iterations of its loops gives
    the result [a] for every bound that is large enough. *)
Definition settles {A : Type} (f : nat -> result A) (a : A) : Prop :=
  exists F, forall fuel, (F <= fuel)%nat -> f fuel = Done a.

(** [m[k]] read as a slice: [nil] when the key is absent. *)
Definition bucket (m : smap) (k : string) : list ptr :=
  match lookup m k with Some v => v | None => [] end.

(** The key under which [joinStreets] files the street [p]: the answer of
    the parser to the text made from the street's name; the empty string when
    the name is one the loop skips. *)
Definition bucketKey (E : environment) (streets : store) (p : ptr) : string :=
  let normName := removeAccent (ToLower E (Name (deref streets p))) in
  if ignored normName || String.eqb normName "ngo chu huy man" then ""
  else parse E (parserText E streets p).

(* ================================================================== *)
(** * Part II: properties                                               *)
(* ================================================================== *)

(** ** Accent folding *)

Lemma tables_from_text :
  SOURCE_CHARACTERS = fst (stringToRune SOURCE_TEXT)
  /\ LL_LENGTH = snd (stringToRune SOURCE_TEXT)
  /\ DESTINATION_CHARACTERS = fst (stringToRune DESTINATION_TEXT).
Proof. repeat split; vm_compute; reflexivity. Qed.

(** The code points of the table of accented letters: in increasing order up
    to U+1EF1, followed by eight letters y that are not. *)
Lemma SOURCE_TEXT_runes :
  runes SOURCE_TEXT
  = [0xC0; 0xC1; 0xC2; 0xC3; 0xC8; 0xC9; 0xCA; 0xCC; 0xCD; 0xD2;
     0xD3; 0xD4; 0xD5; 0xD9; 0xDA; 0xDD; 0xE0; 0xE1; 0xE2; 0xE3;
     0xE8; 0xE9; 0xEA; 0xEC; 0xED; 0xF2; 0xF3; 0xF4; 0xF5; 0xF9;
     0xFA; 0xFD; 0x102; 0x103; 0x110; 0x111; 0x128; 0x129; 0x168; 0x169;
     0x1A0; 0x1A1; 0x1AF; 0x1B0; 0x1EA0; 0x1EA1; 0x1EA2; 0x1EA3; 0x1EA4; 0x1EA5;
     0x1EA6; 0x1EA7; 0x1EA8; 0x1EA9; 0x1EAA; 0x1EAB; 0x1EAC; 0x1EAD; 0x1EAE; 0x1EAF;
     0x1EB0; 0x1EB1; 0x1EB2; 0x1EB3; 0x1EB4; 0x1EB5; 0x1EB6; 0x1EB7; 0x1EB8; 0x1EB9;
     0x1EBA; 0x1EBB; 0x1EBC; 0x1EBD; 0x1EBE; 0x1EBF; 0x1EC0; 0x1EC1; 0x1EC2; 0x1EC3;
     0x1EC4; 0x1EC5; 0x1EC6; 0x1EC7; 0x1EC8; 0x1EC9; 0x1ECA; 0x1ECB; 0x1ECC; 0x1ECD;
     0x1ECE; 0x1ECF; 0x1ED0; 0x1ED1; 0x1ED2; 0x1ED3; 0x1ED4; 0x1ED5; 0x1ED6; 0x1ED7;
     0x1ED8; 0x1ED9; 0x1EDA; 0x1EDB; 0x1EDC; 0x1EDD; 0x1EDE; 0x1EDF; 0x1EE0; 0x1EE1;
     0x1EE2; 0x1EE3; 0x1EE4; 0x1EE5; 0x1EE6; 0x1EE7; 0x1EE8; 0x1EE9; 0x1EEA; 0x1EEB;
     0x1EEC; 0x1EED; 0x1EEE; 0x1EEF; 0x1EF0; 0x1EF1; 0x1EF9; 0x1EF3; 0x1EF7; 0x1EF5;
     0x1EF8; 0x1EF2; 0x1EF6; 0x1EF4].
Proof. vm_compute. reflexivity. Qed.

Lemma binarySearch_rec_found (fuel : nat) (arr : list string) (key : string) :
  forall low high r,
    binarySearch_rec fuel arr key low high = r -> r <> -1 -> index arr r = key.
Proof.
  induction fuel as [|f IH]; intros low high r; simpl.
  - destruct (high <? low); intros <- Hr; congruence.
  - destruct (high <? low); [intros <- Hr; congruence|].
    destruct (String.eqb key (index arr (Z.quot (low + high) 2))) eqn:He.
    + intros <- _. apply String.eqb_eq in He. auto.
    + destruct (String.ltb key (index arr (Z.quot (low + high) 2))); apply IH.
Qed.


Lemma binarySearch_found (arr : list string) (key : string) (low high : Z) :
  binarySearch arr key low high <> -1 ->
  index arr (binarySearch arr key low high) = key.
Proof.
  intros H. unfold binarySearch in *.
  eapply binarySearch_rec_found; [reflexivity|exact H].
Qed.





Lemma forallb_seq (f : nat -> bool) (n : nat) :
  forallb f (seq 0 n) = true -> forall k, (k < n)%nat -> f k = true.
Proof.
  intros H k Hk. rewrite forallb_forall in H. apply H, in_seq. lia.
Qed.

Lemma removeAccent_table (k : nat) :
  (k < 134)%nat -> ~ In k missed ->
  removeAccent (nth k SOURCE_CHARACTERS EmptyString) = nth k DESTINATION_CHARACTERS EmptyString.
Proof.
  intros Hk Hm.
  assert (H : table_entry_ok k = true).
  { clear Hm. revert k Hk. apply forallb_seq. vm_compute. reflexivity. }
  unfold table_entry_ok in H. apply orb_true_iff in H. destruct H as [H|H].
  - exfalso. apply Hm. apply existsb_exists in H. destruct H as [x [Hx He]].
    apply Nat.eqb_eq in He. subst x. exact Hx.
  - apply String.eqb_eq in H. exact H.
Qed.

Lemma lor_low (a lo n : Z) :
  0 <= n -> 0 <= lo < 2 ^ n -> a mod 2 ^ n = 0 -> Z.lor a lo = a + lo.
Proof.
  intros Hn Hlo Ha.
  assert (Hl : Z.land a lo = 0).
  { apply Z.bits_inj'. intros i Hi. rewrite Z.land_spec, Z.bits_0.
    destruct (Z.lt_ge_cases i n) as [Hlt|Hge].
    - assert (E : Z.testbit a i = false).
      { rewrite <- (Z.mod_pow2_bits_low a n i) by lia. rewrite Ha. apply Z.bits_0. }
      rewrite E. reflexivity.
    - assert (E : Z.testbit lo i = false).
      { rewrite <- (Z.mod_small lo (2 ^ n)) by lia. apply Z.mod_pow2_bits_high. lia. }
      rewrite E. apply andb_false_r. }
  pose proof (Z.add_lor_land a lo) as H. rewrite Hl in H. lia.
Qed.

Lemma byteZ_byte_of (z : Z) : 0 <= z < 256 -> byteZ (byte_of z) = z.
Proof.
  intros H. unfold byteZ, byte_of. rewrite N_ascii_embedding by lia. lia.
Qed.

Lemma land_3F (x : Z) : Z.land x 0x3F = x mod 64.
Proof. change 0x3F with (Z.ones 6). rewrite Z.land_ones by lia. reflexivity. Qed.

Lemma land_1F (x : Z) : Z.land x 0x1F = x mod 32.
Proof. change 0x1F with (Z.ones 5). rewrite Z.land_ones by lia. reflexivity. Qed.

Lemma land_0F (x : Z) : Z.land x 0x0F = x mod 16.
Proof. change 0x0F with (Z.ones 4). rewrite Z.land_ones by lia. reflexivity. Qed.

Lemma land_07 (x : Z) : Z.land x 0x07 = x mod 8.
Proof. change 0x07 with (Z.ones 3). rewrite Z.land_ones by lia. reflexivity. Qed.

Lemma shiftr_6 (x : Z) : Z.shiftr x 6 = x / 64.
Proof. rewrite Z.shiftr_div_pow2 by lia. reflexivity. Qed.

Lemma shiftr_12 (x : Z) : Z.shiftr x 12 = x / 4096.
Proof. rewrite Z.shiftr_div_pow2 by lia. reflexivity. Qed.

Lemma shiftr_18 (x : Z) : Z.shiftr x 18 = x / 262144.
Proof. rewrite Z.shiftr_div_pow2 by lia. reflexivity. Qed.

Lemma shiftl_6 (x : Z) : Z.shiftl x 6 = x * 64.
Proof. rewrite Z.shiftl_mul_pow2 by lia. reflexivity. Qed.

Lemma shiftl_12 (x : Z) : Z.shiftl x 12 = x * 4096.
Proof. rewrite Z.shiftl_mul_pow2 by lia. reflexivity. Qed.

Lemma shiftl_18 (x : Z) : Z.shiftl x 18 = x * 262144.
Proof. rewrite Z.shiftl_mul_pow2 by lia. reflexivity. Qed.

Lemma lor_80 (x : Z) : 0 <= x < 64 -> Z.lor 0x80 x = 128 + x.
Proof. intros H. apply (lor_low 128 x 6); [lia|exact H|reflexivity]. Qed.

Lemma lor_C0 (x : Z) : 0 <= x < 32 -> Z.lor 0xC0 x = 192 + x.
Proof. intros H. apply (lor_low 192 x 5); [lia|exact H|reflexivity]. Qed.

Lemma lor_E0 (x : Z) : 0 <= x < 16 -> Z.lor 0xE0 x = 224 + x.
Proof. intros H. apply (lor_low 224 x 4); [lia|exact H|reflexivity]. Qed.

Lemma lor_F0 (x : Z) : 0 <= x < 8 -> Z.lor 0xF0 x = 240 + x.
Proof. intros H. apply (lor_low 240 x 3); [lia|exact H|reflexivity]. Qed.

(** The four forms of the encoding. *)
Lemma encoding_1 (c : Z) :
  0 <= c <= 0x7F -> string_of_rune c = String (byte_of c) EmptyString.
Proof.
  intros H. unfold string_of_rune, between.
  replace (c <? 0) with false by (symmetry; apply Z.ltb_ge; lia).
  replace (0x10FFFF <? c) with false by (symmetry; apply Z.ltb_ge; lia).
  replace (0xD800 <=? c) with false by (symmetry; apply Z.leb_gt; lia).
  replace (c <=? 0x7F) with true by (symmetry; apply Z.leb_le; lia).
  reflexivity.
Qed.

Lemma encoding_2 (c : Z) :
  0x80 <= c <= 0x7FF ->
  string_of_rune c
  = String (byte_of (192 + c / 64)) (String (byte_of (128 + c mod 64)) EmptyString).
Proof.
  intros H. unfold string_of_rune, between.
  replace (c <? 0) with false by (symmetry; apply Z.ltb_ge; lia).
  replace (0x10FFFF <? c) with false by (symmetry; apply Z.ltb_ge; lia).
  replace (0xD800 <=? c) with false by (symmetry; apply Z.leb_gt; lia).
  replace (c <=? 0x7F) with false by (symmetry; apply Z.leb_gt; lia).
  replace (c <=? 0x7FF) with true by (symmetry; apply Z.leb_le; lia).
  cbn [orb andb]. rewrite shiftr_6, land_3F.
  rewrite lor_C0 by (split; [apply Z.div_pos; lia|apply Z.div_lt_upper_bound; lia]).
  rewrite lor_80 by (apply Z.mod_pos_bound; lia).
  reflexivity.
Qed.

Lemma encoding_3 (c : Z) :
  0x800 <= c <= 0xFFFF -> ~ (0xD800 <= c <= 0xDFFF) ->
  string_of_rune c
  = String (byte_of (224 + c / 4096))
      (String (byte_of (128 + (c / 64) mod 64))
         (String (byte_of (128 + c mod 64)) EmptyString)).
Proof.
  intros H Hs. unfold string_of_rune, between.
  replace (c <? 0) with false by (symmetry; apply Z.ltb_ge; lia).
  replace (0x10FFFF <? c) with false by (symmetry; apply Z.ltb_ge; lia).
  replace ((0xD800 <=? c) && (c <=? 0xDFFF)) with false
    by (symmetry; apply andb_false_iff; destruct (Z.le_gt_cases 0xD800 c);
        [right; apply Z.leb_gt; lia|left; apply Z.leb_gt; lia]).
  replace (c <=? 0x7F) with false by (symmetry; apply Z.leb_gt; lia).
  replace (c <=? 0x7FF) with false by (symmetry; apply Z.leb_gt; lia).
  replace (c <=? 0xFFFF) with true by (symmetry; apply Z.leb_le; lia).
  cbn [orb andb]. rewrite shiftr_6, shiftr_12, !land_3F.
  rewrite lor_E0 by (split; [apply Z.div_pos; lia|apply Z.div_lt_upper_bound; lia]).
  rewrite !lor_80 by (apply Z.mod_pos_bound; lia).
  reflexivity.
Qed.

Lemma encoding_4 (c : Z) :
  0x10000 <= c <= 0x10FFFF ->
  string_of_rune c
  = String (byte_of (240 + c / 262144))
      (String (byte_of (128 + (c / 4096) mod 64))
         (String (byte_of (128 + (c / 64) mod 64))
            (String (byte_of (128 + c mod 64)) EmptyString))).
Proof.
  intros H. unfold string_of_rune, between.
  replace (c <? 0) with false by (symmetry; apply Z.ltb_ge; lia).
  replace (0x10FFFF <? c) with false by (symmetry; apply Z.ltb_ge; lia).
  replace (c <=? 0xDFFF) with false by (symmetry; apply Z.leb_gt; lia).
  rewrite andb_false_r.
  replace (c <=? 0x7F) with false by (symmetry; apply Z.leb_gt; lia).
  replace (c <=? 0x7FF) with false by (symmetry; apply Z.leb_gt; lia).
  replace (c <=? 0xFFFF) with false by (symmetry; apply Z.leb_gt; lia).
  cbn [orb andb]. rewrite shiftr_6, shiftr_12, shiftr_18, !land_3F.
  rewrite lor_F0 by (split; [apply Z.div_pos; lia|apply Z.div_lt_upper_bound; lia]).
  rewrite !lor_80 by (apply Z.mod_pos_bound; lia).
  reflexivity.
Qed.

Lemma lor_64 (a lo : Z) : 0 <= lo < 64 -> Z.lor (a * 64) lo = a * 64 + lo.
Proof. intros H. apply (lor_low _ _ 6); [lia|exact H|apply Z.mod_mul; lia]. Qed.

Lemma lor_4096 (a lo : Z) : 0 <= lo < 4096 -> Z.lor (a * 4096) lo = a * 4096 + lo.
Proof. intros H. apply (lor_low _ _ 12); [lia|exact H|apply Z.mod_mul; lia]. Qed.

Lemma lor_262144 (a lo : Z) : 0 <= lo < 262144 -> Z.lor (a * 262144) lo = a * 262144 + lo.
Proof. intros H. apply (lor_low _ _ 18); [lia|exact H|apply Z.mod_mul; lia]. Qed.

Lemma mod_above (b k x : Z) : 0 <= x < k -> (b * k + x) mod k = x.
Proof.
  intros H. rewrite Z.add_comm, Z.mod_add by lia. apply Z.mod_small. exact H.
Qed.

Lemma mod_128 (x : Z) : 0 <= x < 64 -> (128 + x) mod 64 = x.
Proof. exact (mod_above 2 64 x). Qed.

Lemma mod_192 (x : Z) : 0 <= x < 32 -> (192 + x) mod 32 = x.
Proof. exact (mod_above 6 32 x). Qed.

Lemma mod_224 (x : Z) : 0 <= x < 16 -> (224 + x) mod 16 = x.
Proof. exact (mod_above 14 16 x). Qed.

Lemma mod_240 (x : Z) : 0 <= x < 8 -> (240 + x) mod 8 = x.
Proof. exact (mod_above 30 8 x). Qed.

Ltac range_true :=
  unfold between;
  repeat match goal with
         | |- context [?a <? ?b] =>
           first [ replace (a <? b) with true by (symmetry; apply Z.ltb_lt; lia)
                 | replace (a <? b) with false by (symmetry; apply Z.ltb_ge; lia) ]
         | |- context [?a <=? ?b] =>
           first [ replace (a <=? b) with true by (symmetry; apply Z.leb_le; lia)
                 | replace (a <=? b) with false by (symmetry; apply Z.leb_gt; lia) ]
         | |- context [?a =? ?b] =>
           first [ replace (a =? b) with true by (symmetry; apply Z.eqb_eq; lia)
                 | replace (a =? b) with false by (symmetry; apply Z.eqb_neq; lia) ]
         end.

Lemma decode_encode_1 (c : Z) (r : string) :
  0 <= c <= 0x7F -> decodeRune (String (byte_of c) r) = (c, 1%nat).
Proof.
  intros H. unfold decodeRune. rewrite byteZ_byte_of by lia.
  range_true. reflexivity.
Qed.

Lemma decode_encode_2 (c : Z) (r : string) :
  0x80 <= c <= 0x7FF ->
  decodeRune (String (byte_of (192 + c / 64)) (String (byte_of (128 + c mod 64)) r))
  = (c, 2%nat).
Proof.
  intros H. unfold decodeRune.
  assert (Hc : c = 64 * (c / 64) + c mod 64) by (apply Z.div_mod; lia).
  assert (H2 : 0 <= c mod 64 < 64) by (apply Z.mod_pos_bound; lia).
  revert Hc H2. generalize (c / 64). generalize (c mod 64). intros lo hi Hc Hlo.
  assert (B0 : byteZ (byte_of (192 + hi)) = 192 + hi) by (apply byteZ_byte_of; lia).
  assert (B1 : byteZ (byte_of (128 + lo)) = 128 + lo) by (apply byteZ_byte_of; lia).
  rewrite B0, B1.
  range_true. cbn [andb].
  f_equal. rewrite land_1F, land_3F, shiftl_6.
  rewrite (mod_192 hi) by lia. rewrite (mod_128 lo) by lia.
  rewrite lor_64 by lia. lia.
Qed.

Lemma decode_encode_3 (c : Z) (r : string) :
  0x800 <= c <= 0xFFFF -> ~ (0xD800 <= c <= 0xDFFF) ->
  decodeRune (String (byte_of (224 + c / 4096))
                (String (byte_of (128 + (c / 64) mod 64))
                   (String (byte_of (128 + c mod 64)) r)))
  = (c, 3%nat).
Proof.
  intros H Hs. unfold decodeRune.
  assert (Hc : c = 64 * (c / 64) + c mod 64) by (apply Z.div_mod; lia).
  assert (H0 : 0 <= c mod 64 < 64) by (apply Z.mod_pos_bound; lia).
  assert (Hd : c / 64 = 64 * (c / 64 / 64) + (c / 64) mod 64) by (apply Z.div_mod; lia).
  assert (H1 : 0 <= (c / 64) mod 64 < 64) by (apply Z.mod_pos_bound; lia).
  assert (He : c / 4096 = c / 64 / 64) by (rewrite Z.div_div by lia; reflexivity).
  rewrite He. revert Hc H0 Hd H1.
  generalize (c / 64 / 64). generalize ((c / 64) mod 64). generalize (c mod 64).
  generalize (c / 64). intros q lo mi hi Hc Hlo Hd Hmi. subst q.
  assert (Hhi : 0 <= hi < 16) by lia.
  assert (B0 : byteZ (byte_of (224 + hi)) = 224 + hi) by (apply byteZ_byte_of; lia).
  assert (B1 : byteZ (byte_of (128 + mi)) = 128 + mi) by (apply byteZ_byte_of; lia).
  assert (B2 : byteZ (byte_of (128 + lo)) = 128 + lo) by (apply byteZ_byte_of; lia).
  rewrite B0, B1, B2.
  assert (V : Z.lor (Z.lor (Z.shiftl (Z.land (224 + hi) 15) 12)
                           (Z.shiftl (Z.land (128 + mi) 63) 6))
                    (Z.land (128 + lo) 63) = c).
  { rewrite land_0F, !land_3F, shiftl_6, shiftl_12.
    rewrite (mod_224 hi) by lia. rewrite (mod_128 mi) by lia.
    rewrite (mod_128 lo) by lia.
    rewrite lor_4096 by lia.
    replace (hi * 4096 + mi * 64) with ((hi * 64 + mi) * 64) by lia.
    rewrite lor_64 by lia. lia. }
  rewrite V. clear V B0 B1 B2.
  destruct (Z.eq_dec hi 0) as [E0|E0]; [|destruct (Z.eq_dec hi 13) as [E13|E13]];
    range_true; reflexivity.
Qed.

Lemma decode_encode_4 (c : Z) (r : string) :
  0x10000 <= c <= 0x10FFFF ->
  decodeRune (String (byte_of (240 + c / 262144))
                (String (byte_of (128 + (c / 4096) mod 64))
                   (String (byte_of (128 + (c / 64) mod 64))
                      (String (byte_of (128 + c mod 64)) r))))
  = (c, 4%nat).
Proof.
  intros H. unfold decodeRune.
  assert (Hc : c = 64 * (c / 64) + c mod 64) by (apply Z.div_mod; lia).
  assert (H0 : 0 <= c mod 64 < 64) by (apply Z.mod_pos_bound; lia).
  assert (Hd : c / 64 = 64 * (c / 64 / 64) + (c / 64) mod 64) by (apply Z.div_mod; lia).
  assert (H1 : 0 <= (c / 64) mod 64 < 64) by (apply Z.mod_pos_bound; lia).
  assert (Hf : c / 64 / 64 = 64 * (c / 64 / 64 / 64) + (c / 64 / 64) mod 64)
    by (apply Z.div_mod; lia).
  assert (H2 : 0 <= (c / 64 / 64) mod 64 < 64) by (apply Z.mod_pos_bound; lia).
  assert (He : c / 4096 = c / 64 / 64) by (rewrite Z.div_div by lia; reflexivity).
  assert (Hg : c / 262144 = c / 64 / 64 / 64) by (rewrite !Z.div_div by lia; reflexivity).
  rewrite He, Hg. revert Hc H0 Hd H1 Hf H2.
  generalize (c / 64 / 64 / 64). generalize ((c / 64 / 64) mod 64).
  generalize (c / 64 / 64).
  generalize ((c / 64) mod 64). generalize (c mod 64).
  generalize (c / 64). intros q lo mi q2 m2 hi Hc Hlo Hd Hmi Hf Hm2. subst q q2.
  assert (Hhi : 0 <= hi < 5) by lia.
  assert (B0 : byteZ (byte_of (240 + hi)) = 240 + hi) by (apply byteZ_byte_of; lia).
  assert (B1 : byteZ (byte_of (128 + m2)) = 128 + m2) by (apply byteZ_byte_of; lia).
  assert (B2 : byteZ (byte_of (128 + mi)) = 128 + mi) by (apply byteZ_byte_of; lia).
  assert (B3 : byteZ (byte_of (128 + lo)) = 128 + lo) by (apply byteZ_byte_of; lia).
  rewrite B0, B1, B2, B3.
  assert (V : Z.lor (Z.lor (Z.lor (Z.shiftl (Z.land (240 + hi) 7) 18)
                                  (Z.shiftl (Z.land (128 + m2) 63) 12))
                           (Z.shiftl (Z.land (128 + mi) 63) 6))
                    (Z.land (128 + lo) 63) = c).
  { rewrite land_07, !land_3F, shiftl_6, shiftl_12, shiftl_18.
    rewrite (mod_240 hi) by lia. rewrite (mod_128 m2) by lia.
    rewrite (mod_128 mi) by lia. rewrite (mod_128 lo) by lia.
    rewrite lor_262144 by lia.
    replace (hi * 262144 + m2 * 4096) with ((hi * 64 + m2) * 4096) by lia.
    rewrite lor_4096 by lia.
    replace ((hi * 64 + m2) * 4096 + mi * 64) with (((hi * 64 + m2) * 64 + mi) * 64) by lia.
    rewrite lor_64 by lia. lia. }
  rewrite V. clear V B0 B1 B2 B3.
  destruct (Z.eq_dec hi 0) as [E0|E0]; [|destruct (Z.eq_dec hi 4) as [E4|E4]];
    range_true; reflexivity.
Qed.

Lemma codePoint_cases (c : Z) :
  codePoint c ->
  0 <= c <= 0x7F \/ 0x80 <= c <= 0x7FF
  \/ (0x800 <= c <= 0xFFFF /\ ~ (0xD800 <= c <= 0xDFFF)) \/ 0x10000 <= c <= 0x10FFFF.
Proof. unfold codePoint. lia. Qed.

Lemma continuation_128 (x : Z) : 0 <= x < 64 -> continuation (byte_of (128 + x)) = true.
Proof.
  intros H. unfold continuation. rewrite byteZ_byte_of by lia. range_true. reflexivity.
Qed.

Lemma decode_encode (c : Z) (r : string) :
  codePoint c ->
  decodeRune (string_of_rune c ++ r) = (c, String.length (string_of_rune c)).
Proof.
  intros H. destruct (codePoint_cases c H) as [H1|[H2|[[H3 Hs]|H4]]].
  - rewrite encoding_1 by exact H1. apply decode_encode_1. exact H1.
  - rewrite encoding_2 by exact H2. apply decode_encode_2. exact H2.
  - rewrite encoding_3 by assumption. apply decode_encode_3; assumption.
  - rewrite encoding_4 by exact H4. apply decode_encode_4. exact H4.
Qed.

(** The encoding of a code point: a byte that is no continuation, then
    continuations only. *)
Lemma encoding_shape (c : Z) :
  codePoint c ->
  exists a u, string_of_rune c = String a u
              /\ continuation a = false /\ continuations u = true.
Proof.
  intros H. destruct (codePoint_cases c H) as [H1|[H2|[[H3 Hs]|H4]]].
  - rewrite encoding_1 by exact H1. eexists. eexists. split; [reflexivity|].
    split; [|reflexivity].
    unfold continuation. rewrite byteZ_byte_of by lia. range_true. reflexivity.
  - rewrite encoding_2 by exact H2. eexists. eexists. split; [reflexivity|].
    assert (Hq : 2 <= c / 64 < 32)
      by (split; [apply Z.div_le_lower_bound; lia|apply Z.div_lt_upper_bound; lia]).
    split.
    + unfold continuation. rewrite byteZ_byte_of by lia. range_true. reflexivity.
    + cbn [continuations]. rewrite continuation_128 by (apply Z.mod_pos_bound; lia).
      reflexivity.
  - rewrite encoding_3 by assumption. eexists. eexists. split; [reflexivity|].
    assert (Hq : 0 <= c / 4096 < 16)
      by (split; [apply Z.div_pos; lia|apply Z.div_lt_upper_bound; lia]).
    split.
    + unfold continuation. rewrite byteZ_byte_of by lia. range_true. reflexivity.
    + cbn [continuations]. rewrite !continuation_128 by (apply Z.mod_pos_bound; lia).
      reflexivity.
  - rewrite encoding_4 by exact H4. eexists. eexists. split; [reflexivity|].
    assert (Hq : 0 <= c / 262144 < 5)
      by (split; [apply Z.div_pos; lia|apply Z.div_lt_upper_bound; lia]).
    split.
    + unfold continuation. rewrite byteZ_byte_of by lia. range_true. reflexivity.
    + cbn [continuations]. rewrite !continuation_128 by (apply Z.mod_pos_bound; lia).
      reflexivity.
Qed.

Lemma append_empty_r (s : string) : (s ++ "")%string = s.
Proof. induction s as [|a s IH]; simpl; [reflexivity|rewrite IH; reflexivity]. Qed.

Lemma append_assoc (s t u : string) : ((s ++ t) ++ u)%string = (s ++ (t ++ u))%string.
Proof. induction s as [|a s IH]; simpl; [reflexivity|rewrite IH; reflexivity]. Qed.






Lemma utf8_cons (c : Z) (t : list Z) :
  utf8 (c :: t) = (string_of_rune c ++ utf8 t)%string.
Proof.
  unfold utf8. cbn [map String.concat]. destruct (map string_of_rune t) eqn:E.
  - cbn [String.concat]. rewrite append_empty_r. reflexivity.
  - reflexivity.
Qed.

Lemma utf8_app (a b : list Z) : utf8 (a ++ b) = (utf8 a ++ utf8 b)%string.
Proof.
  induction a as [|c a IH]; [reflexivity|].
  cbn [app]. rewrite !utf8_cons, IH, append_assoc. reflexivity.
Qed.














Lemma runes_from_skip (u z : string) (n : nat) :
  runes_from (String.length u + n) (u ++ z) = runes_from n z.
Proof.
  induction u as [|a u IH]; [reflexivity|].
  cbn [String.length append Nat.add runes_from]. exact IH.
Qed.

Lemma runes_utf8 (cs : list Z) : Forall codePoint cs -> runes (utf8 cs) = cs.
Proof.
  unfold runes. induction 1 as [|c t Hc _ IH]; [reflexivity|].
  rewrite utf8_cons. pose proof (decode_encode c (utf8 t) Hc) as D.
  destruct (encoding_shape c Hc) as [a [u [Ea _]]]. rewrite Ea in *.
  cbn [append] in *. cbn [runes_from]. rewrite D. cbn [String.length Nat.pred].
  rewrite <- (Nat.add_0_r (String.length u)), runes_from_skip, IH. reflexivity.
Qed.

Lemma isCodePoint_codePoint (r : Z) : isCodePoint r = true -> codePoint r.
Proof.
  unfold isCodePoint, codePoint. intros H.
  apply andb_true_iff in H. destruct H as [H H3].
  apply andb_true_iff in H. destruct H as [H1 H2].
  apply Z.leb_le in H1. apply Z.leb_le in H2.
  split; [lia|]. intros [H4 H5].
  apply Z.leb_le in H4. apply Z.leb_le in H5. rewrite H4, H5 in H3. discriminate H3.
Qed.

Lemma codePoints_by_forallb (l : list Z) :
  forallb isCodePoint l = true -> Forall codePoint l.
Proof.
  intros H. apply Forall_forall. intros x Hx.
  apply isCodePoint_codePoint. rewrite forallb_forall in H. apply H. exact Hx.
Qed.

























(** ** The name-parser call *)

Lemma scan_housenumber (cs : list Classification) :
  (exists c, In c cs /\ Label c = "housenumber") ->
  forall acc, scanClassifications cs acc = "".
Proof.
  induction cs as [|c0 cs IH]; intros [c [Hin Hl]] acc; [destruct Hin|].
  simpl. destruct (String.eqb (Label c0) "housenumber") eqn:E0; [reflexivity|].
  destruct Hin as [->|Hin].
  - rewrite Hl in E0. discriminate E0.
  - destruct (String.eqb (Label c0) "street"); apply IH; exists c; auto.
Qed.

Lemma scan_no_street (cs : list Classification) :
  (forall c, In c cs -> Label c <> "housenumber") ->
  (forall c, In c cs -> Label c <> "street") ->
  forall acc, scanClassifications cs acc = acc.
Proof.
  induction cs as [|c0 cs IH]; intros Hh Hs acc; [reflexivity|].
  simpl.
  destruct (String.eqb (Label c0) "housenumber") eqn:E0.
  { apply String.eqb_eq in E0. exfalso. exact (Hh c0 (or_introl eq_refl) E0). }
  destruct (String.eqb (Label c0) "street") eqn:E1.
  { apply String.eqb_eq in E1. exfalso. exact (Hs c0 (or_introl eq_refl) E1). }
  apply IH; intros c Hc; [apply Hh|apply Hs]; right; exact Hc.
Qed.

Lemma scan_last_street (pre : list Classification) (c : Classification)
      (post : list Classification) :
  (forall c', In c' (pre ++ c :: post) -> Label c' <> "housenumber") ->
  Label c = "street" ->
  (forall c', In c' post -> Label c' <> "street") ->
  forall acc, scanClassifications (pre ++ c :: post) acc = Value c.
Proof.
  induction pre as [|c0 pre IH]; intros Hh Hl Hs acc; simpl.
  - destruct (String.eqb (Label c) "housenumber") eqn:E0.
    { apply String.eqb_eq in E0. exfalso. exact (Hh c (or_introl eq_refl) E0). }
    rewrite Hl. simpl. apply scan_no_street; [|exact Hs].
    intros c' Hc'. apply Hh. right. exact Hc'.
  - destruct (String.eqb (Label c0) "housenumber") eqn:E0.
    { apply String.eqb_eq in E0. exfalso. exact (Hh c0 (or_introl eq_refl) E0). }
    assert (Hh' : forall c', In c' (pre ++ c :: post) -> Label c' <> "housenumber").
    { intros c' Hc'. apply Hh. right. exact Hc'. }
    destruct (String.eqb (Label c0) "street"); apply IH; auto.
Qed.

Lemma classify_scan (r : Response) :
  classify r = scanClassifications (firstClassifications r) "".
Proof.
  unfold classify, firstClassifications.
  destruct (Solutions r) as [|s0 rest]; [reflexivity|].
  destruct (Classifications s0); reflexivity.
Qed.

Lemma empty_name_is_dropped (E : environment) (acc : smap * store) (st : ptr) :
  parse E (parserText E (snd acc) st) = "" -> normalizeStreet E acc st = acc.
Proof.
  unfold parserText, normalizeStreet. destruct acc as [m h]. cbn [snd]. cbv zeta.
  generalize (removeAccent (ToLower E (Name (deref h st)))). intros normName H.
  destruct (ignored normName); [reflexivity|].
  destruct (String.eqb normName "ngo chu huy man"); [reflexivity|].
  destruct (negb (HasPrefix (ToLower E (Name (deref h st))) duong_with_sign));
    rewrite H; reflexivity.
Qed.

(** C7.  When the response can be read, [streetNameParser] returns a value
    computed from the classifications of the first solution alone: the empty
    string if one of them is labelled [housenumber]; otherwise the value of
    the classification labelled [street] (the last one, should there be
    several), and the empty string if there is none.  A street for which the
    parser answers with the empty string is dropped by [joinStreets]. *)
Theorem streetNameParser_classifications
        (env : parser_env) (searchText : string) (status : Z) (responseData : string) :
  http_Get env (parserURL searchText) = GetOk status (ReadOk responseData) ->
  let classifications := firstClassifications (fst (json_Unmarshal env responseData)) in
  exists v,
    streetNameParser env searchText = Returned v
    /\ v = scanClassifications classifications ""
    /\ ((exists c, In c classifications /\ Label c = "housenumber") -> v = "")
    /\ ((forall c, In c classifications -> Label c <> "housenumber") ->
        (forall c, In c classifications -> Label c <> "street") -> v = "")
    /\ ((forall c, In c classifications -> Label c <> "housenumber") ->
        forall pre c post,
          classifications = pre ++ c :: post ->
          Label c = "street" ->
          (forall c', In c' post -> Label c' <> "street") ->
          v = Value c)
    /\ (forall (E : environment) (acc : smap * store) (st : ptr),
           parse E (parserText E (snd acc) st) = "" -> normalizeStreet E acc st = acc).
Proof.
  intros Hget classifications.
  exists (scanClassifications classifications "").
  split.
  { unfold streetNameParser. rewrite Hget. rewrite classify_scan. reflexivity. }
  split; [reflexivity|].
  split; [intros H; apply scan_housenumber; exact H|].
  split; [intros Hh Hs; apply scan_no_street; assumption|].
  split; [|exact empty_name_is_dropped].
  intros Hh pre c post Heq Hl Hs. rewrite Heq in *.
  apply scan_last_street; assumption.
Qed.

Lemma streetNameParser_classifications_witness :
  streetNameParser env_two_solutions "duong abc" = Returned "Abc".
Proof.
  destruct (streetNameParser_classifications env_two_solutions "duong abc" 200 "body" eq_refl)
    as [v [Hv [_ [_ [_ [Hlast _]]]]]].
  rewrite Hv. f_equal.
  apply (Hlast ltac:(simpl; intros c [<-|[<-|[]]]; discriminate)
               [ {| Value := "duong"; Label := "prefix" |} ]
               {| Value := "Abc"; Label := "street" |}
               []
               eq_refl eq_refl ltac:(intros c' [])).
Defined.

(** C4 (as amended).  When the request itself fails, or the body of the
    response cannot be read, the process exits with status 1 and
    [streetNameParser] returns nothing.  The status code of a response is not
    looked at: a response whose body is read and decoded without error gives
    the value computed from it, whatever its status code. *)
Theorem streetNameParser_exits_on_transport_error (env : parser_env) (searchText : string) :
  (forall err, http_Get env (parserURL searchText) = GetErr err ->
               streetNameParser env searchText = Exited 1)
  /\ (forall status err,
         http_Get env (parserURL searchText) = GetOk status (ReadErr err) ->
         streetNameParser env searchText = Exited 1)
  /\ (forall status responseData,
         http_Get env (parserURL searchText) = GetOk status (ReadOk responseData) ->
         snd (json_Unmarshal env responseData) = None ->
         streetNameParser env searchText
         = Returned (classify (fst (json_Unmarshal env responseData)))).
Proof.
  unfold streetNameParser. repeat split.
  - intros err H. rewrite H. reflexivity.
  - intros status err H. rewrite H. reflexivity.
  - intros status data H _. rewrite H. reflexivity.
Qed.

Lemma streetNameParser_exits_on_transport_error_witness :
  streetNameParser env_refused "duong abc" = Exited 1
  /\ streetNameParser env_unreadable "duong abc" = Exited 1
  /\ streetNameParser env_status_500 "duong abc" = Returned "Abc".
Proof.
  split; [|split].
  - exact (proj1 (streetNameParser_exits_on_transport_error env_refused "duong abc")
                 "connection refused" eq_refl).
  - exact (proj1 (proj2 (streetNameParser_exits_on_transport_error env_unreadable "duong abc"))
                 200 "unexpected EOF" eq_refl).
  - exact (proj2 (proj2 (streetNameParser_exits_on_transport_error env_status_500 "duong abc"))
                 500 "body" eq_refl eq_refl).
Defined.

(** C4, as stated, fails: the server answers with status 500 and a body that
    can be read and decoded; the process does not exit, and the value of that
    response is returned. *)
Lemma streetNameParser_returns_on_status_500 :
  http_Get env_status_500 (parserURL "duong abc") = GetOk 500 (ReadOk "body")
  /\ streetNameParser env_status_500 "duong abc" = Returned "Abc"
  /\ streetNameParser env_status_500 "duong abc" <> Exited 1.
Proof. repeat split. discriminate. Qed.

(** ** The command and its temporary file *)

Lemma StreetMerge_removes_file_on_return (filename : string) (ev : run_events)
      (fs : filesystem) :
  argc ev = 1%nat -> store_fails ev = false -> parser_fails ev = false ->
  marshal_fails ev = false ->
  StreetMerge filename ev fs = (Returned tt, remove_file filename (filename :: fs)).
Proof.
  intros Ha Hs Hp Hm.
  unfold StreetMerge, defer_, bind, conn_Open, parsePBF, generateStreetsFromWays,
    joinStreets_proc, printStreets, conn_Close, os_Remove, ret.
  rewrite Ha, Hs, Hp, Hm. reflexivity.
Qed.

Lemma StreetMerge_keeps_file_on_exit (filename : string) (ev : run_events) (fs : filesystem) :
  argc ev <> 1%nat \/ store_fails ev = true \/ parser_fails ev = true
  \/ marshal_fails ev = true ->
  StreetMerge filename ev fs = (Exited 1, filename :: fs).
Proof.
  intros H.
  unfold StreetMerge, defer_, bind, conn_Open, parsePBF, generateStreetsFromWays,
    joinStreets_proc, printStreets, conn_Close, os_Remove, os_Exit, log_Fatal, ret.
  destruct (Nat.eqb (argc ev) 1) eqn:Ea; [|reflexivity].
  apply Nat.eqb_eq in Ea.
  destruct (store_fails ev); [reflexivity|].
  destruct (parser_fails ev); [reflexivity|].
  destruct (marshal_fails ev); [reflexivity|].
  exfalso. destruct H as [H|[H|[H|H]]]; congruence.
Qed.

(** C5 fails on the code: the command is run without an argument;
    [parsePBF] ends the process with [os.Exit(1)], the deferred [os.Remove]
    does not run, and the temporary file is still there. *)
Theorem StreetMerge_exit_leaves_temporary_file :
  StreetMerge "pbf_1.temp.db" run_without_argument [] = (Exited 1, ["pbf_1.temp.db"])
  /\ In "pbf_1.temp.db" (snd (StreetMerge "pbf_1.temp.db" run_without_argument [])).
Proof. split; [reflexivity|left; reflexivity]. Qed.

(** ** Direction of a chord without length *)

Lemma sub_same (x : float64) : zero_or_nan (F64.sub x x).
Proof.
  destruct x as [s|s| |s m e]; simpl; try exact I.
  - destruct s; exact I.
  - destruct s; exact I.
  - unfold F64.sub, SFsub. rewrite Z.sub_diag. exact I.
Qed.

Lemma eqb_true_cases (x y : float64) :
  F64.eqb x y = true -> x = y \/ (F64.is_zero x = true /\ F64.is_zero y = true).
Proof.
  unfold F64.eqb, SFeqb.
  destruct x as [sx|sx| |sx mx ex], y as [sy|sy| |sy my ey]; simpl;
    try discriminate; try (destruct sx; discriminate); try (destruct sy; discriminate).
  - intros _. right. split; reflexivity.
  - destruct sx, sy; try discriminate; intros _; left; reflexivity.
  - destruct sx, sy; try discriminate.
    + destruct (Z.compare ex ey) eqn:Ee; try discriminate.
      apply Z.compare_eq in Ee. subst ey.
      destruct (Pos.compare_cont Eq mx my) eqn:Em; try discriminate.
      apply Pos.compare_eq in Em. subst my. intros _. left. reflexivity.
    + destruct (Z.compare ex ey) eqn:Ee; try discriminate.
      apply Z.compare_eq in Ee. subst ey.
      destruct (Pos.compare_cont Eq mx my) eqn:Em; try discriminate.
      apply Pos.compare_eq in Em. subst my. intros _. left. reflexivity.
Qed.

Lemma sub_equal (x y : float64) :
  x = y \/ F64.eqb x y = true -> zero_or_nan (F64.sub y x).
Proof.
  intros [->|H]; [apply sub_same|].
  destruct (eqb_true_cases x y H) as [->|[Hx Hy]]; [apply sub_same|].
  destruct x, y; try discriminate. simpl. destruct s0, s; exact I.
Qed.

Lemma mul_zero_or_nan_r (x z : float64) : zero_or_nan z -> zero_or_nan (F64.mul x z).
Proof. destruct x, z; simpl; tauto. Qed.

Lemma mul_zero_or_nan_l (z x : float64) : zero_or_nan z -> zero_or_nan (F64.mul z x).
Proof. destruct x, z; simpl; tauto. Qed.

Lemma add_zero_or_nan (x y : float64) :
  zero_or_nan x -> zero_or_nan y -> zero_or_nan (F64.add x y).
Proof. destruct x as [[]| | |], y as [[]| | |]; simpl; tauto. Qed.

Lemma sqrt_zero_or_nan (x : float64) : zero_or_nan x -> zero_or_nan (F64.sqrt x).
Proof. destruct x; simpl; tauto. Qed.

Lemma div_zero_or_nan (x y : float64) :
  zero_or_nan x -> zero_or_nan y -> F64.div x y = F64.nan.
Proof. destruct x, y; simpl; tauto. Qed.

Lemma degenerate_vector (first last : geo.Point) :
  first = last \/ geo.Equals first last = true ->
  zero_or_nan (dX (createPathVector first last))
  /\ zero_or_nan (dY (createPathVector first last)).
Proof.
  intros H. unfold createPathVector; simpl.
  split; apply sub_equal.
  - destruct H as [->|H]; [left; reflexivity|].
    unfold geo.Equals in H. apply andb_true_iff in H. right. tauto.
  - destruct H as [->|H]; [left; reflexivity|].
    unfold geo.Equals in H. apply andb_true_iff in H. right. tauto.
Qed.

Lemma cos_degenerate_r (a b : Vector) :
  zero_or_nan (dX b) -> zero_or_nan (dY b) -> cosBetween2Vectors a b = F64.nan.
Proof.
  intros Hx Hy. unfold cosBetween2Vectors.
  apply div_zero_or_nan.
  - apply add_zero_or_nan; apply mul_zero_or_nan_r; assumption.
  - apply mul_zero_or_nan_r, sqrt_zero_or_nan, add_zero_or_nan;
      apply mul_zero_or_nan_r; assumption.
Qed.

Lemma cos_degenerate_l (a b : Vector) :
  zero_or_nan (dX a) -> zero_or_nan (dY a) -> cosBetween2Vectors a b = F64.nan.
Proof.
  intros Hx Hy. unfold cosBetween2Vectors.
  apply div_zero_or_nan.
  - apply add_zero_or_nan; apply mul_zero_or_nan_l; assumption.
  - apply mul_zero_or_nan_l, sqrt_zero_or_nan, add_zero_or_nan;
      apply mul_zero_or_nan_r; assumption.
Qed.

Lemma isTwoPathsSameDirection_degenerate (first last : geo.Point) (v : Vector) :
  first = last \/ geo.Equals first last = true ->
  isTwoPathsSameDirection (createPathVector first last) v = false
  /\ isTwoPathsSameDirection v (createPathVector first last) = false.
Proof.
  intros H. destruct (degenerate_vector first last H) as [Hx Hy].
  unfold isTwoPathsSameDirection.
  rewrite (cos_degenerate_l _ v Hx Hy), (cos_degenerate_r v _ Hx Hy).
  split; reflexivity.
Qed.

(** ** Termination of the proximity loop *)

Lemma removeStreet_from_outside (s : list ptr) :
  forall k index_, index_ < k \/ k + len s <= index_ -> removeStreet_from k s index_ = s.
Proof.
  unfold len. induction s as [|x t IH]; intros k index_ H; simpl; [reflexivity|].
  destruct (index_ =? k) eqn:E.
  - apply Z.eqb_eq in E. simpl in H. lia.
  - f_equal. apply IH. simpl in H. lia.
Qed.

Lemma removeStreet_from_length (s : list ptr) :
  forall k index_,
    k <= index_ < k + len s ->
    len (removeStreet_from k s index_) = len s - 1.
Proof.
  unfold len. induction s as [|x t IH]; intros k index_ H; simpl in H; [lia|].
  simpl removeStreet_from. destruct (index_ =? k) eqn:E.
  - apply Z.eqb_eq in E. rewrite removeStreet_from_outside by lia.
    simpl List.length. lia.
  - apply Z.eqb_neq in E. simpl List.length.
    rewrite !Nat2Z.inj_succ. rewrite (IH (k + 1) index_); lia.
Qed.

Lemma removeStreet_length (s : list ptr) (index_ : Z) :
  0 <= index_ < len s -> len (removeStreet s index_) = len s - 1.
Proof. intros H. apply removeStreet_from_length. lia. Qed.

Lemma len_nonneg (s : list ptr) : 0 <= len s.
Proof. unfold len. lia. Qed.

Lemma proximity_body_step (E : environment) (h : store) (s : Proximity.state) :
  0 <= Proximity.i s < len (Proximity.strs s) ->
  exists s', Proximity.body E h s = Next s' /\ proximity_step s s'.
Proof.
  intros [H0 H1]. unfold Proximity.body.
  apply Z.ltb_lt in H1. rewrite H1. apply Z.ltb_lt in H1.
  destruct (Proximity.i s =? 0) eqn:Ei.
  { apply Z.eqb_eq in Ei. eexists. split; [reflexivity|].
    apply step_seed; simpl; auto. }
  apply Z.eqb_neq in Ei.
  destruct (F64.ltb _ distanceGroup).
  { eexists. split; [reflexivity|].
    apply step_admit; simpl; auto; try lia.
    apply removeStreet_length. lia. }
  destruct (Proximity.i s =? len (Proximity.strs s) - 1) eqn:El.
  { apply Z.eqb_eq in El. eexists. split; [reflexivity|].
    apply step_drop_head; simpl; auto.
    apply removeStreet_length. lia. }
  apply Z.eqb_neq in El. eexists. split; [reflexivity|].
  apply step_advance; simpl; auto. lia.
Qed.

Lemma proximity_step_decreases (s s' : Proximity.state) :
  0 <= Proximity.i s < len (Proximity.strs s) ->
  proximity_step s s' ->
  0 <= Proximity.i s' <= len (Proximity.strs s')
  /\ 0 <= proximity_measure s' < proximity_measure s.
Proof.
  intros Hi Hs. unfold proximity_measure.
  destruct Hs as [H0 Hl Hi'|H0 Hl Hn Hi'|H0 Hl Hn Hi'|H0 Hl Hi'].
  - rewrite Hl, Hi', H0. pose proof (len_nonneg (Proximity.strs s)). nia.
  - rewrite Hn, Hi'. nia.
  - rewrite Hn, Hi'. nia.
  - rewrite Hl, Hi'. nia.
Qed.

Lemma proximity_loop_fuel (E : environment) (h : store) (fuel : nat) :
  forall s,
    0 <= Proximity.i s <= len (Proximity.strs s) ->
    proximity_measure s < Z.of_nat fuel ->
    exists s', loop (Proximity.body E h) fuel s = Done s'.
Proof.
  induction fuel as [|f IH]; intros s Hi Hm.
  - unfold proximity_measure in Hm. pose proof (len_nonneg (Proximity.strs s)). nia.
  - simpl. destruct (Z.eq_dec (Proximity.i s) (len (Proximity.strs s))) as [He|Hne].
    + unfold Proximity.body. rewrite He, Z.ltb_irrefl. eexists. reflexivity.
    + assert (Hr : 0 <= Proximity.i s < len (Proximity.strs s)) by lia.
      destruct (proximity_body_step E h s Hr) as [s' [Hb Hs]].
      rewrite Hb. destruct (proximity_step_decreases s s' Hr Hs) as [Hi' Hm'].
      apply IH; [exact Hi'|lia].
Qed.

(** C9.  The proximity loop of [joinStreets] ends for every list of
    fragments: within [(n+1)*(n+3)] iterations for a list of [n].  Every
    iteration either goes on with the scan (from the seed, or to the next
    candidate), or admits the candidate to the group and takes it out of the
    list, or, at the end of a pass without admission, takes the head out of
    the list; so every pass over the list ends in a shorter list or in the end
    of the loop, and a quantity bounded below decreases at every iteration. *)
Theorem proximity_loop_terminates
        (E : environment) (h : store) (strs0 : list ptr) (m : smap) (fuel : nat) :
  ((List.length strs0 + 1) * (List.length strs0 + 3) <= fuel)%nat ->
  (exists s', loop (Proximity.body E h) fuel (Proximity.init E h strs0 m) = Done s')
  /\ (forall s,
         0 <= Proximity.i s < len (Proximity.strs s) ->
         exists s',
           Proximity.body E h s = Next s'
           /\ proximity_step s s'
           /\ 0 <= proximity_measure s' < proximity_measure s)
  /\ (forall s,
         len (Proximity.strs s) <= Proximity.i s ->
         Proximity.body E h s = Stop s).
Proof.
  intros Hf. split; [|split].
  - apply proximity_loop_fuel.
    + simpl. pose proof (len_nonneg strs0). lia.
    + unfold proximity_measure, len. simpl. nia.
  - intros s Hr. destruct (proximity_body_step E h s Hr) as [s' [Hb Hs]].
    exists s'. split; [exact Hb|]. split; [exact Hs|].
    apply (proximity_step_decreases s s' Hr Hs).
  - intros s Hs. unfold Proximity.body.
    destruct (Proximity.i s <? len (Proximity.strs s)) eqn:E0; [|reflexivity].
    apply Z.ltb_lt in E0. lia.
Qed.

Lemma proximity_loop_terminates_witness :
  exists s',
    loop (Proximity.body plain_environment tent_and_post) 15
         (Proximity.init plain_environment tent_and_post [0%nat; 1%nat] []) = Done s'.
Proof.
  exact (proj1 (proximity_loop_terminates plain_environment tent_and_post [0%nat; 1%nat] [] 15
                  ltac:(simpl; lia))).
Defined.

(** ** The guard of the merge stages *)

Ltac compare_cases :=
  repeat match goal with
         | H : context [Z.compare ?a ?b] |- _ => destruct (Z.compare_spec a b)
         | H : context [Pos.compare_cont Eq ?a ?b] |- _ =>
           change (Pos.compare_cont Eq a b) with (Pos.compare a b) in *;
           destruct (Pos.compare_spec a b)
         | |- context [Z.compare ?a ?b] => destruct (Z.compare_spec a b)
         | |- context [Pos.compare_cont Eq ?a ?b] =>
           change (Pos.compare_cont Eq a b) with (Pos.compare a b) in *;
           destruct (Pos.compare_spec a b)
         end.

Ltac float_order :=
  unfold F64.gtb, F64.ltb, F64.leb, F64.is_nan, SFltb, SFleb, SFcompare in *;
  repeat match goal with
         | x : float64 |- _ => destruct x as [[]|[]| |[] ? ?]
         end;
  simpl in *; try discriminate; try reflexivity;
  compare_cases; simpl in *; subst; try discriminate; try reflexivity; try lia.

Lemma float_le_total (x y : float64) :
  F64.is_nan x = false -> F64.is_nan y = false -> F64.gtb x y = false ->
  F64.leb x y = true.
Proof. float_order. Qed.

Lemma float_gt_le (x y : float64) : F64.gtb x y = true -> F64.leb y x = true.
Proof. float_order. Qed.

Lemma float_gt_not_nan (x y : float64) : F64.gtb x y = true -> F64.is_nan y = false.
Proof. float_order. Qed.

Lemma float_le_refl (x : float64) : F64.is_nan x = false -> F64.leb x x = true.
Proof. float_order. Qed.

Lemma float_le_trans (x y z : float64) :
  F64.leb x y = true -> F64.leb y z = true -> F64.leb x z = true.
Proof. float_order. Qed.

Lemma float_lt_le_trans (x y z : float64) :
  F64.ltb x y = true -> F64.leb y z = true -> F64.ltb x z = true.
Proof. float_order. Qed.

Lemma float_gt_nan (y : float64) : F64.gtb F64.nan y = false.
Proof. destruct y; reflexivity. Qed.

(** One [if shortestDistance > d { shortestDistance = d }]. *)
Lemma min_step (x y : float64) :
  F64.is_nan x = false ->
  F64.is_nan (if F64.gtb x y then y else x) = false
  /\ F64.leb (if F64.gtb x y then y else x) x = true
  /\ (F64.is_nan y = false -> F64.leb (if F64.gtb x y then y else x) y = true).
Proof.
  intros Hx. destruct (F64.gtb x y) eqn:E.
  - pose proof (float_gt_not_nan x y E) as Hy.
    split; [exact Hy|]. split; [exact (float_gt_le x y E)|].
    intros _. exact (float_le_refl y Hy).
  - split; [exact Hx|]. split; [exact (float_le_refl x Hx)|].
    intros Hy. exact (float_le_total x y Hx Hy E).
Qed.

Lemma min_of_four_above (a b c d rho : float64) :
  F64.is_nan b = false -> F64.is_nan c = false ->
  F64.gtb (let sd := if F64.gtb a b then b else a in
           let sd := if F64.gtb sd c then c else sd in
           if F64.gtb sd d then d else sd) rho = true ->
  F64.gtb (if F64.gtb c b then b else c) rho = true.
Proof.
  intros Hb Hc. cbv zeta.
  destruct (F64.is_nan a) eqn:Ha.
  { destruct a; try discriminate Ha.
    rewrite !float_gt_nan. destruct rho; discriminate. }
  destruct (min_step a b Ha) as [N1 [_ L1b]]. specialize (L1b Hb).
  set (sd1 := if F64.gtb a b then b else a) in *.
  destruct (min_step sd1 c N1) as [N2 [L21 L2c]]. specialize (L2c Hc).
  set (sd2 := if F64.gtb sd1 c then c else sd1) in *.
  destruct (min_step sd2 d N2) as [_ [L32 _]].
  set (sd3 := if F64.gtb sd2 d then d else sd2) in *.
  unfold F64.gtb at 1. fold (F64.ltb rho sd3). intros H.
  pose proof (float_lt_le_trans rho sd3 sd2 H L32) as H2.
  destruct (F64.gtb c b).
  - exact (float_lt_le_trans rho sd2 b H2 (float_le_trans sd2 sd1 b L21 L1b)).
  - exact (float_lt_le_trans rho sd2 c H2 L2c).
Qed.

Lemma furtherThan_guard (h : store) (b c : ptr) (rho : float64) :
  furtherThan h b c rho -> F64.gtb (endpointDistance h b c) rho = true.
Proof.
  intros [H|[H [N1 N2]]]; [exact H|].
  unfold endpointDistance. destruct (String.eqb _ "yes"); [|exact H].
  unfold shortestDistanceWhenSameDirection, getShortestDistance in *.
  exact (min_of_four_above _ _ _ _ rho N2 N1 H).
Qed.

Lemma SameDirection_refuse_heap (strName : string) (b : ptr) (s : SameDirection.state) :
  exists s', SameDirection.refuse strName b s = Next s'
             /\ SameDirection.heap s' = SameDirection.heap s.
Proof.
  unfold SameDirection.refuse.
  destruct (SameDirection.i s =? len (SameDirection.strs s) - 1);
    eexists; split; reflexivity.
Qed.

Lemma SameDirection_finish_heap (strName : string) (b : ptr) (strs' : list ptr) (i' : Z)
      (normName' : string) (m : smap) (h : store) :
  exists s', SameDirection.finish strName b strs' i' normName' m h = Next s'
             /\ SameDirection.heap s' = h.
Proof.
  unfold SameDirection.finish. destruct (atEnd strs' i'); eexists; split; reflexivity.
Qed.

Lemma Lane_refuse_heap (normName : string) (b : ptr) (s : Lane.state) :
  exists s', Lane.refuse normName b s = Next s'
             /\ Lane.heap s' = Lane.heap s
             /\ Lane.strs s' = removeStreet (Lane.strs s) (Lane.i s).
Proof. unfold Lane.refuse. eexists. repeat split. Qed.

Lemma Lane_finish_heap (normName : string) (b : ptr) (strs' : list ptr) (i' : Z)
      (m : smap) (h : store) :
  exists s', Lane.finish normName b strs' i' m h = Next s' /\ Lane.heap s' = h.
Proof.
  unfold Lane.finish. destruct (atEnd strs' i'); eexists; split; reflexivity.
Qed.

Lemma Final_refuse_heap (normName : string) (b : ptr) (s : Final.state) :
  exists s', Final.refuse normName b s = Next s'
             /\ Final.heap s' = Final.heap s
             /\ Final.strs s' = removeStreet (Final.strs s) (Final.i s).
Proof. unfold Final.refuse. eexists. repeat split. Qed.

Lemma SameDirection_guard (strName : string) (s : SameDirection.state) (b : ptr) :
  0 < SameDirection.i s < len (SameDirection.strs s) ->
  SameDirection.str1 s = Some b ->
  intersects (SameDirection.heap s) b (at_ (SameDirection.strs s) (SameDirection.i s)) = true ->
  F64.gtb (endpointDistance (SameDirection.heap s) b
             (at_ (SameDirection.strs s) (SameDirection.i s)))
          SameDirection.distanceRange = true ->
  SameDirection.body strName s = SameDirection.refuse strName b s.
Proof.
  intros [Hi Hl] Hb Hx Hd. unfold SameDirection.body, endpointDistance in *.
  assert (E1 : (SameDirection.i s <? len (SameDirection.strs s)) = true)
    by (apply Z.ltb_lt; lia).
  assert (E2 : (len (SameDirection.strs s) =? 1) = false) by (apply Z.eqb_neq; lia).
  assert (E3 : (SameDirection.i s =? 0) = false) by (apply Z.eqb_neq; lia).
  rewrite E1, E2, E3, Hb. cbv zeta.
  destruct (String.eqb _ "yes"); rewrite Hx, Hd; reflexivity.
Qed.

Lemma Lane_guard (normName : string) (b : ptr) (s : Lane.state) :
  0 <= Lane.i s < len (Lane.strs s) ->
  intersects (Lane.heap s) b (at_ (Lane.strs s) (Lane.i s)) = true ->
  F64.gtb (endpointDistance (Lane.heap s) b (at_ (Lane.strs s) (Lane.i s)))
          Lane.distanceRange = true ->
  Lane.body normName b s = Lane.refuse normName b s.
Proof.
  intros [Hi Hl] Hx Hd. unfold Lane.body, endpointDistance in *.
  assert (E1 : (Lane.i s <? len (Lane.strs s)) = true) by (apply Z.ltb_lt; lia).
  rewrite E1. cbv zeta.
  destruct (String.eqb _ "yes"); rewrite Hx, Hd; reflexivity.
Qed.

Lemma Final_guard (normName : string) (b : ptr) (s : Final.state) :
  0 <= Final.i s < len (Final.strs s) ->
  intersects (Final.heap s) b (at_ (Final.strs s) (Final.i s)) = true ->
  F64.gtb (getShortestDistance (PathOf (Final.heap s) b)
             (PathOf (Final.heap s) (at_ (Final.strs s) (Final.i s))))
          Final.distanceRange = true ->
  exists s', Final.body normName b s = Next s' /\ Final.heap s' = Final.heap s.
Proof.
  intros [Hi Hl] Hx Hd. unfold Final.body.
  assert (E1 : (Final.i s <? len (Final.strs s)) = true) by (apply Z.ltb_lt; lia).
  rewrite E1. cbv zeta.
  destruct (Nat.eqb b _).
  { destruct (Final_refuse_heap normName b s) as [s' [H1 [H2 _]]]. eauto. }
  match goal with |- context [if ?c then Next ?x else _] => destruct c end.
  { eexists. split; reflexivity. }
  rewrite Hx, Hd. simpl.
  destruct (Final_refuse_heap normName b s) as [s' [H1 [H2 _]]]. eauto.
Qed.

(** C3 (as amended).  In each merge stage, at an iteration where the base
    and the candidate under test cross and their end points are further apart
    than the distance range of the stage (0.00065, 0.0005, 0.0003), nothing is
    merged: the iteration leaves every path as it was. *)
Theorem crossing_far_apart_not_merged
        (strName normName : string) (b : ptr)
        (s5 : SameDirection.state) (s6 : Lane.state) (s7 : Final.state) :
  (0 < SameDirection.i s5 < len (SameDirection.strs s5) ->
   SameDirection.str1 s5 = Some b ->
   intersects (SameDirection.heap s5) b
              (at_ (SameDirection.strs s5) (SameDirection.i s5)) = true ->
   furtherThan (SameDirection.heap s5) b
               (at_ (SameDirection.strs s5) (SameDirection.i s5)) (F64.decimal 65 5) ->
   exists s', SameDirection.body strName s5 = Next s'
              /\ SameDirection.heap s' = SameDirection.heap s5)
  /\ (0 <= Lane.i s6 < len (Lane.strs s6) ->
      intersects (Lane.heap s6) b (at_ (Lane.strs s6) (Lane.i s6)) = true ->
      furtherThan (Lane.heap s6) b (at_ (Lane.strs s6) (Lane.i s6)) (F64.decimal 5 4) ->
      exists s', Lane.body normName b s6 = Next s'
                 /\ Lane.heap s' = Lane.heap s6)
  /\ (0 <= Final.i s7 < len (Final.strs s7) ->
      intersects (Final.heap s7) b (at_ (Final.strs s7) (Final.i s7)) = true ->
      F64.gtb (getShortestDistance (PathOf (Final.heap s7) b)
                 (PathOf (Final.heap s7) (at_ (Final.strs s7) (Final.i s7))))
              (F64.decimal 3 4) = true ->
      exists s', Final.body normName b s7 = Next s'
                 /\ Final.heap s' = Final.heap s7).
Proof.
  split; [|split].
  - intros Hi Hb Hx Hd. apply furtherThan_guard in Hd.
    rewrite (SameDirection_guard strName s5 b Hi Hb Hx Hd).
    apply SameDirection_refuse_heap.
  - intros Hi Hx Hd. apply furtherThan_guard in Hd.
    rewrite (Lane_guard normName b s6 Hi Hx Hd).
    destruct (Lane_refuse_heap normName b s6) as [s' [H1 [H2 _]]]. eauto.
  - intros Hi Hx Hd. exact (Final_guard normName b s7 Hi Hx Hd).
Qed.

Lemma crossing_far_apart_not_merged_witness :
  (exists s', SameDirection.body "x__1" crossing5 = Next s'
              /\ SameDirection.heap s' = SameDirection.heap crossing5)
  /\ (exists s', Lane.body "x__1" 0%nat crossing6 = Next s'
                 /\ Lane.heap s' = Lane.heap crossing6)
  /\ (exists s', Final.body "x" 0%nat crossing7 = Next s'
                 /\ Final.heap s' = Final.heap crossing7).
Proof.
  destruct (crossing_far_apart_not_merged "x__1" "x__1" 0%nat crossing5 crossing6 crossing7)
    as [H5 [H6 _]].
  destruct (crossing_far_apart_not_merged "x" "x" 0%nat crossing5 crossing6 crossing7)
    as [_ [_ H7]].
  split; [|split].
  - apply H5; [split; reflexivity|reflexivity|vm_compute; reflexivity|].
    right. repeat split; vm_compute; reflexivity.
  - apply H6; [split; [discriminate|reflexivity]|vm_compute; reflexivity|].
    left. vm_compute. reflexivity.
  - apply H7; [split; [discriminate|reflexivity]|vm_compute; reflexivity|vm_compute; reflexivity].
Defined.

(** C3, as stated, fails.  The base and the crossing street cross, and
    their end points are more than 0.01 apart; [mergeStreetSameDirection]
    refuses the pair when it first tests it, and leaves the crossing street in
    its list.  It then joins the third street onto the base, whose last point
    is now 0.00058 from an end point of the crossing street; the pair is
    tested again, the guard is silent, and the points of the crossing street
    are pushed onto the base.  [joinStreets] returns one street with the
    points of all three. *)
Lemma crossing_pair_merged_after_base_grows :
  intersects base_crossing_link 0%nat 1%nat = true
  /\ F64.gtb (getShortestDistance (PathOf base_crossing_link 0%nat)
                                  (PathOf base_crossing_link 1%nat))
             SameDirection.distanceRange = true
  /\ SameDirection.body "x__1" base_crossing_link5
     = SameDirection.refuse "x__1" 0%nat base_crossing_link5
  /\ rbind (joinStreets_stages plain_environment 40 base_crossing_link)
           (fun st => Done (groupDirectionNameMap st,
                            fst (mergedStreetSameDirection st),
                            PathOf (snd (mergedStreetSameDirection st)) 0%nat))
     = Done ([("x__1", [0%nat; 1%nat; 2%nat])],
             [("x__1", [0%nat])],
             [upt 0 0; upt 20000 0; upt 10500 2800; upt 10000 2500; upt 10000 (-9000)])
  /\ rbind (joinStreets plain_environment 40 base_crossing_link)
           (fun ret => Done (map Path ret))
     = Done [[upt 0 0; upt 20000 0; upt 10500 2800; upt 10000 2500; upt 10000 (-9000)]].
Proof. repeat split; vm_compute; reflexivity. Qed.

(** ** The intersection test of the guard *)







(** ** Fragments whose chord has no length *)

Lemma sameDirection_closed (h : store) (b c : ptr) :
  closed (PathOf h b) \/ closed (PathOf h c) -> sameDirection h b c = false.
Proof.
  unfold sameDirection, closed. intros [H|H].
  - apply (isTwoPathsSameDirection_degenerate _ _ _ H).
  - apply (isTwoPathsSameDirection_degenerate _ _ _ H).
Qed.

Lemma Direction_closed_not_admitted (h : store) (groupStreetName : string)
      (s : Direction.state) (bv : Vector) :
  0 < Direction.i s < len (Direction.strs s) ->
  Oneway (deref h (at_ (Direction.strs s) (Direction.i s))) = "yes" ->
  Direction.baseVector s = Some bv ->
  closed (PathOf h (at_ (Direction.strs s) (Direction.i s))) ->
  exists s', Direction.body h groupStreetName s = Next s'
             /\ Direction.groupDirectionNameMap s' = Direction.groupDirectionNameMap s.
Proof.
  intros [Hi Hl] Ho Hb Hc. unfold Direction.body.
  assert (E1 : (Direction.i s <? len (Direction.strs s)) = true) by (apply Z.ltb_lt; lia).
  assert (E2 : (len (Direction.strs s) <=? 1) = false) by (apply Z.leb_gt; lia).
  assert (E3 : (Direction.i s =? 0) = false) by (apply Z.eqb_neq; lia).
  rewrite E1, E3, Ho, E2, Hb. simpl.
  rewrite (proj2 (isTwoPathsSameDirection_degenerate _ _ bv Hc)).
  destruct (Direction.atLast _ _). eexists. split; reflexivity.
Qed.

Lemma SameDirection_oneway_not_same (strName : string) (s : SameDirection.state) (b : ptr) :
  0 < SameDirection.i s < len (SameDirection.strs s) ->
  SameDirection.str1 s = Some b ->
  Oneway (deref (SameDirection.heap s) (at_ (SameDirection.strs s) (SameDirection.i s)))
  = "yes" ->
  sameDirection (SameDirection.heap s) b (at_ (SameDirection.strs s) (SameDirection.i s))
  = false ->
  exists s', SameDirection.body strName s = Next s'
             /\ SameDirection.heap s' = SameDirection.heap s.
Proof.
  intros [Hi Hl] Hb Ho Hs. unfold SameDirection.body.
  assert (E1 : (SameDirection.i s <? len (SameDirection.strs s)) = true)
    by (apply Z.ltb_lt; lia).
  assert (E2 : (len (SameDirection.strs s) =? 1) = false) by (apply Z.eqb_neq; lia).
  assert (E3 : (SameDirection.i s =? 0) = false) by (apply Z.eqb_neq; lia).
  rewrite E1, E2, E3, Hb. cbv zeta. rewrite Ho, Hs. simpl.
  repeat match goal with
         | |- context [if ?c then _ else _] => destruct c
         end;
    (apply SameDirection_refuse_heap || apply SameDirection_finish_heap).
Qed.

Lemma Lane_oneway_not_same (normName : string) (b : ptr) (s : Lane.state) :
  0 <= Lane.i s < len (Lane.strs s) ->
  Oneway (deref (Lane.heap s) (at_ (Lane.strs s) (Lane.i s))) = "yes" ->
  sameDirection (Lane.heap s) b (at_ (Lane.strs s) (Lane.i s)) = false ->
  exists s', Lane.body normName b s = Next s' /\ Lane.heap s' = Lane.heap s.
Proof.
  intros [Hi Hl] Ho Hs. unfold Lane.body.
  assert (E1 : (Lane.i s <? len (Lane.strs s)) = true) by (apply Z.ltb_lt; lia).
  rewrite E1. cbv zeta. rewrite Ho, Hs. simpl.
  repeat match goal with
         | |- context [if ?c then _ else _] => destruct c
         end;
    try apply Lane_finish_heap.
  all: destruct (Lane_refuse_heap normName b s) as [s' [H1 [H2 _]]]; eauto.
Qed.

(** C10.  For a fragment whose first and last point are the same, the cosine
    of its chord with any vector is NaN, so [isTwoPathsSameDirection] is false
    with the chord on either side.  Hence a one-way candidate with such a
    chord is not admitted to the direction group under construction, and a
    one-way candidate is not merged by the two same-direction stages when its
    chord or the chord of the base is such a chord. *)
Theorem closed_fragment_never_same_direction :
  (forall (first last : geo.Point) (v : Vector),
      first = last \/ geo.Equals first last = true ->
      cosBetween2Vectors (createPathVector first last) v = F64.nan
      /\ cosBetween2Vectors v (createPathVector first last) = F64.nan
      /\ isTwoPathsSameDirection (createPathVector first last) v = false
      /\ isTwoPathsSameDirection v (createPathVector first last) = false)
  /\ (forall (h : store) (groupStreetName : string) (s : Direction.state) (bv : Vector),
         0 < Direction.i s < len (Direction.strs s) ->
         Oneway (deref h (at_ (Direction.strs s) (Direction.i s))) = "yes" ->
         Direction.baseVector s = Some bv ->
         closed (PathOf h (at_ (Direction.strs s) (Direction.i s))) ->
         exists s', Direction.body h groupStreetName s = Next s'
                    /\ Direction.groupDirectionNameMap s'
                       = Direction.groupDirectionNameMap s)
  /\ (forall (strName : string) (s : SameDirection.state) (b : ptr),
         0 < SameDirection.i s < len (SameDirection.strs s) ->
         SameDirection.str1 s = Some b ->
         Oneway (deref (SameDirection.heap s)
                       (at_ (SameDirection.strs s) (SameDirection.i s))) = "yes" ->
         closed (PathOf (SameDirection.heap s) b)
         \/ closed (PathOf (SameDirection.heap s)
                           (at_ (SameDirection.strs s) (SameDirection.i s))) ->
         exists s', SameDirection.body strName s = Next s'
                    /\ SameDirection.heap s' = SameDirection.heap s)
  /\ (forall (normName : string) (b : ptr) (s : Lane.state),
         0 <= Lane.i s < len (Lane.strs s) ->
         Oneway (deref (Lane.heap s) (at_ (Lane.strs s) (Lane.i s))) = "yes" ->
         closed (PathOf (Lane.heap s) b)
         \/ closed (PathOf (Lane.heap s) (at_ (Lane.strs s) (Lane.i s))) ->
         exists s', Lane.body normName b s = Next s' /\ Lane.heap s' = Lane.heap s).
Proof.
  split; [|split; [|split]].
  - intros first last v H.
    destruct (degenerate_vector first last H) as [Hx Hy].
    split; [apply cos_degenerate_l; assumption|].
    split; [apply cos_degenerate_r; assumption|].
    apply isTwoPathsSameDirection_degenerate. exact H.
  - intros. eapply Direction_closed_not_admitted; eassumption.
  - intros strName s b Hi Hb Ho Hc.
    apply (SameDirection_oneway_not_same strName s b Hi Hb Ho).
    apply sameDirection_closed. exact Hc.
  - intros normName b s Hi Ho Hc.
    apply (Lane_oneway_not_same normName b s Hi Ho).
    apply sameDirection_closed. exact Hc.
Qed.

Lemma closed_fragment_never_same_direction_witness :
  isTwoPathsSameDirection (createPathVector (zpt 1 1) (zpt 1 1))
                          (createPathVector (zpt 0 0) (zpt 1 0)) = false
  /\ (exists s', Direction.body loop_and_line "x__1" loop_direction = Next s'
                 /\ Direction.groupDirectionNameMap s'
                    = Direction.groupDirectionNameMap loop_direction)
  /\ (exists s', SameDirection.body "x__1--0" loop_same = Next s'
                 /\ SameDirection.heap s' = SameDirection.heap loop_same)
  /\ (exists s', Lane.body "x__1" 0%nat loop_lane = Next s'
                 /\ Lane.heap s' = Lane.heap loop_lane).
Proof.
  destruct closed_fragment_never_same_direction as [H1 [H2 [H3 H4]]].
  split; [|split; [|split]].
  - exact (proj1 (proj2 (proj2 (H1 (zpt 1 1) (zpt 1 1) (createPathVector (zpt 0 0) (zpt 1 0))
                                   (or_introl eq_refl))))).
  - apply (H2 loop_and_line "x__1" loop_direction (createPathVector (zpt 0 0) (zpt 4 0)));
      [split; reflexivity|reflexivity|reflexivity|left; reflexivity].
  - apply (H3 "x__1--0" loop_same 0%nat);
      [split; reflexivity|reflexivity|reflexivity|right; left; reflexivity].
  - apply (H4 "x__1" 0%nat loop_lane);
      [split; [discriminate|reflexivity]|reflexivity|right; left; reflexivity].
Defined.

(** ** Where the pointers of a stage come from *)

Lemma lookup_incl (m : smap) (k : string) (v : list ptr) :
  lookup m k = Some v -> incl v (pointers m).
Proof.
  unfold pointers. induction m as [|[k' v'] t IH]; simpl; [discriminate|].
  destruct (String.eqb k' k).
  - intros [= ->]. apply incl_appl, incl_refl.
  - intros H. apply incl_appr, IH, H.
Qed.

Lemma incl_pointers_assign (S : list ptr) (m : smap) (k : string) (v : list ptr) :
  incl v S -> incl (pointers m) S -> incl (pointers (assign m k v)) S.
Proof.
  unfold pointers. induction m as [|[k' v'] t IH]; simpl; intros Hv Hm.
  - rewrite app_nil_r. exact Hv.
  - destruct (String.eqb k' k); simpl.
    + apply incl_app; [exact Hv|]. intros x Hx. apply Hm, in_or_app. right. exact Hx.
    + apply incl_app.
      * intros x Hx. apply Hm, in_or_app. left. exact Hx.
      * apply IH; [exact Hv|]. intros x Hx. apply Hm, in_or_app. right. exact Hx.
Qed.

Lemma incl_pointers_append_to (S : list ptr) (m : smap) (k : string) (x : ptr) :
  In x S -> incl (pointers m) S -> incl (pointers (append_to m k x)) S.
Proof.
  intros Hx Hm. unfold append_to. destruct (lookup m k) as [v|] eqn:E.
  - apply incl_pointers_assign; [|exact Hm].
    apply incl_app; [|intros y [<-|[]]; exact Hx].
    intros y Hy. apply Hm. exact (lookup_incl m k v E y Hy).
  - apply incl_pointers_assign; [|exact Hm]. intros y [<-|[]]. exact Hx.
Qed.

Lemma removeStreet_from_incl (s : list ptr) :
  forall k index_, incl (removeStreet_from k s index_) s.
Proof.
  induction s as [|x t IH]; intros k index_; simpl; [apply incl_refl|].
  destruct (index_ =? k).
  - apply incl_tl, IH.
  - apply incl_cons; [left; reflexivity|apply incl_tl, IH].
Qed.

Lemma incl_removeStreet (S s : list ptr) (index_ : Z) :
  incl s S -> incl (removeStreet s index_) S.
Proof. intros H. eapply incl_tran; [apply removeStreet_from_incl|exact H]. Qed.

Lemma In_at (S s : list ptr) (i : Z) :
  0 <= i -> i < len s -> incl s S -> In (at_ s i) S.
Proof.
  intros H0 H1 Hs. apply Hs. unfold at_, len in *. apply nth_In. lia.
Qed.

Lemma set_nth_incl (l : list ptr) :
  forall i x, incl (set_nth l i x) (x :: l).
Proof.
  induction l as [|y t IH]; intros i x; simpl; [intros z []|].
  destruct i as [|i'].
  - apply incl_cons; [left; reflexivity|]. intros z Hz. right. right. exact Hz.
  - apply incl_cons; [right; left; reflexivity|].
    intros z Hz. destruct (IH i' x z Hz) as [<-|Hz']; [left; reflexivity|right; right; exact Hz'].
Qed.

Lemma swap_incl (l : list ptr) (i j : nat) : incl (swap l i j) l.
Proof.
  unfold swap.
  destruct (nth_error l i) as [a|] eqn:Ea; [|apply incl_refl].
  destruct (nth_error l j) as [b|] eqn:Eb; [|apply incl_refl].
  apply nth_error_In in Ea, Eb.
  intros z Hz. apply set_nth_incl in Hz. destruct Hz as [<-|Hz]; [exact Ea|].
  apply set_nth_incl in Hz. destruct Hz as [<-|Hz]; [exact Eb|exact Hz].
Qed.

Lemma fold_left_incl {A : Type} (f : list ptr -> A -> list ptr) (S : list ptr) (xs : list A) :
  (forall l a, incl l S -> incl (f l a) S) ->
  forall l, incl l S -> incl (fold_left f xs l) S.
Proof.
  intros Hf. induction xs as [|a xs IH]; intros l Hl; simpl; [exact Hl|].
  apply IH, Hf, Hl.
Qed.

Lemma incl_sortStreetsDescLength (S : list ptr) (h : store) (streets : list ptr) :
  incl streets S -> incl (sortStreetsDescLength h streets) S.
Proof.
  intros H. unfold sortStreetsDescLength.
  apply fold_left_incl; [|exact H].
  intros l i Hl. apply fold_left_incl; [|exact Hl].
  intros l' j Hl'. destruct (F64.gtb _ _); [|exact Hl'].
  eapply incl_tran; [apply swap_incl|exact Hl'].
Qed.

Lemma incl_removeRoundabout (S : list ptr) (h : store) (streets : list ptr) :
  incl streets S -> incl (removeRoundabout h streets) S.
Proof.
  intros H x Hx. apply H. unfold removeRoundabout in Hx.
  apply filter_In in Hx. tauto.
Qed.

Lemma getLongestStreetIndex_from_range (h : store) (streets : list ptr) :
  forall i distance index_ lo,
    lo <= index_ < i + len streets -> lo <= i ->
    lo <= getLongestStreetIndex_from h streets i distance index_ < i + len streets.
Proof.
  unfold len. induction streets as [|st t IH]; intros i distance index_ lo Hx Hi;
    cbn [getLongestStreetIndex_from List.length] in *.
  - lia.
  - rewrite Nat2Z.inj_succ in Hx |- *.
    destruct (F64.ltb _ _).
    + specialize (IH (i + 1) (geo.Distance (PathOf h st)) i lo). lia.
    + specialize (IH (i + 1) distance index_ lo). lia.
Qed.

Lemma getLongestStreetIndex_range (h : store) (streets : list ptr) :
  1 <= len streets -> 0 <= getLongestStreetIndex h streets < len streets.
Proof.
  intros H. unfold getLongestStreetIndex.
  pose proof (getLongestStreetIndex_from_range h streets 0 F64.zero 0 0). lia.
Qed.

Lemma loop_invariant {S : Type} (P : S -> Prop) (body : S -> flow S) :
  (forall s s', P s -> body s = Next s' -> P s') ->
  (forall s s', P s -> body s = Stop s' -> P s') ->
  forall fuel s r, P s -> loop body fuel s = Done r -> P r.
Proof.
  intros Hn Hs. induction fuel as [|f IH]; intros s r Hp; simpl; [discriminate|].
  destruct (body s) as [s'|s'|] eqn:E; try discriminate.
  - apply IH. exact (Hn s s' Hp E).
  - intros [= <-]. exact (Hs s s' Hp E).
Qed.

Lemma foreach_invariant {A S : Type} (P : S -> Prop) (Q : A -> Prop)
      (body : A -> S -> result S) (l : list A) :
  (forall a s s', Q a -> P s -> body a s = Done s' -> P s') ->
  Forall Q l ->
  forall s r, P s -> foreach body l s = Done r -> P r.
Proof.
  intros Hb. induction 1 as [|a l Ha _ IH]; intros s r Hp; simpl.
  - intros [= <-]. exact Hp.
  - destruct (body a s) as [s'| |] eqn:E; simpl; try discriminate.
    apply IH. exact (Hb a s s' Ha Hp E).
Qed.

Lemma range_incl (E : environment) (loop_id : nat) (m : smap) :
  Forall (fun kv => incl (snd kv) (pointers m)) (range_ E loop_id m).
Proof.
  unfold range_. apply Forall_forall. intros kv Hkv.
  apply in_map_iff in Hkv. destruct Hkv as [k [<- _]]. simpl.
  destruct (lookup m k) as [v|] eqn:El.
  - exact (lookup_incl m k v El).
  - intros x [].
Qed.

Lemma rbind_Done {A B : Type} (r : result A) (k : A -> result B) (b : B) :
  rbind r k = Done b -> exists a, r = Done a /\ k a = Done b.
Proof. destruct r; simpl; try discriminate. eauto. Qed.

Ltac boolZ :=
  repeat match goal with
         | H : (_ <? _) = true |- _ => apply Z.ltb_lt in H
         | H : (_ <? _) = false |- _ => apply Z.ltb_ge in H
         | H : (_ =? _) = true |- _ => apply Z.eqb_eq in H
         | H : (_ =? _) = false |- _ => apply Z.eqb_neq in H
         | H : (_ <=? _) = true |- _ => apply Z.leb_le in H
         | H : (_ <=? _) = false |- _ => apply Z.leb_gt in H
         end.

Ltac split_ifs H :=
  repeat match type of H with
         | context [if ?c then _ else _] => destruct c eqn:?
         end.

Ltac prov :=
  repeat first
         [ assumption
         | lia
         | match goal with
           | |- _ /\ _ => split
           | |- incl (removeStreet _ _) _ => apply incl_removeStreet
           | |- incl (pointers (append_to _ _ _)) _ => apply incl_pointers_append_to
           | |- incl (pointers (assign _ _ _)) _ => apply incl_pointers_assign
           | |- incl [_] _ => apply incl_cons; [|apply incl_nil_l]
           | |- incl (_ ++ _) _ => apply incl_app
           | |- In (at_ _ _) _ => apply In_at
           | |- forall b, Some _ = Some b -> _ => let H := fresh in intros ? H; injection H as <-
           end ].

(** *** Proximity groups *)

Lemma Proximity_body_ok (E : environment) (h : store) (S : list ptr)
      (s s' : Proximity.state) :
  Proximity_ok S s ->
  Proximity.body E h s = Next s' \/ Proximity.body E h s = Stop s' ->
  Proximity_ok S s'.
Proof.
  intros [H0 [Hs Hm]] H. unfold Proximity.body in H.
  destruct H as [H|H]; split_ifs H; try discriminate H;
    injection H as <-; unfold Proximity_ok; simpl; boolZ; prov.
Qed.

Lemma Proximity_entry_ok (E : environment) (h : store) (fuel : nat) (S : list ptr)
      (kv : string * list ptr) (m m' : smap) :
  incl (snd kv) S -> incl (pointers m) S ->
  Proximity.entry E h fuel kv m = Done m' -> incl (pointers m') S.
Proof.
  intros Hkv Hm H. unfold Proximity.entry in H.
  pose proof (incl_sortStreetsDescLength S h (snd kv) Hkv) as Hsort.
  destruct (sortStreetsDescLength h (snd kv)) as [|x t] eqn:Es; [discriminate|].
  apply rbind_Done in H. destruct H as [s [Hl Hd]]. injection Hd as <-.
  apply (loop_invariant (Proximity_ok S) (Proximity.body E h)) in Hl.
  - apply Hl.
  - intros s0 s1 Hp Hb. apply (Proximity_body_ok E h S s0 s1 Hp). left. exact Hb.
  - intros s0 s1 Hp Hb. apply (Proximity_body_ok E h S s0 s1 Hp). right. exact Hb.
  - unfold Proximity_ok, Proximity.init. simpl. prov.
Qed.

Lemma Proximity_run_ok (E : environment) (h : store) (fuel : nat) (m m' : smap) :
  Proximity.run E h fuel m = Done m' -> incl (pointers m') (pointers m).
Proof.
  unfold Proximity.run. intros H.
  apply (foreach_invariant (fun m0 => incl (pointers m0) (pointers m))
                           (fun kv => incl (snd kv) (pointers m))) in H.
  - exact H.
  - intros kv s s' Hq Hp Hb. exact (Proximity_entry_ok E h fuel _ kv s s' Hq Hp Hb).
  - apply range_incl.
  - intros x [].
Qed.

(** *** Direction groups *)

Lemma Direction_atLast_ok (S strs : list ptr) (i : Z) (strs' : list ptr) (i' : Z) :
  incl strs S -> -1 <= i -> Direction.atLast strs i = (strs', i') ->
  incl strs' S /\ -1 <= i'.
Proof.
  unfold Direction.atLast. intros Hs Hi H.
  destruct (i =? len strs - 1); injection H as <- <-; prov.
Qed.

Lemma Direction_body_ok (h : store) (groupStreetName : string) (S : list ptr)
      (s s' : Direction.state) :
  Direction_ok S s ->
  Direction.body h groupStreetName s = Next s' \/ Direction.body h groupStreetName s = Stop s' ->
  Direction_ok S s'.
Proof.
  intros [H0 [Hs [Hb Hm]]] H. unfold Direction.body in H.
  destruct (Direction.i s <? len (Direction.strs s)) eqn:Ei.
  2:{ destruct H as [H|H]; [discriminate H|]. injection H as <-.
      unfold Direction_ok. auto. }
  destruct H as [H|H].
  2:{ exfalso. split_ifs H; repeat match type of H with
                                   | context [match ?x with _ => _ end] => destruct x
                                   end; discriminate H. }
  boolZ.
  assert (Hbase : forall b,
             (if Direction.i s =? 0
              then Some (at_ (Direction.strs s) 0) else Direction.baseStreet s) = Some b ->
             In b S).
  { intros b. destruct (Direction.i s =? 0) eqn:E0; boolZ.
    - intros [= <-]. prov.
    - apply Hb. }
  destruct (Direction.i s =? 0) eqn:E0; simpl in H, Hbase;
    destruct (String.eqb _ "yes");
    repeat match type of H with
           | context [if ?c then _ else _] => destruct c eqn:?
           | context [match ?x with Some _ => _ | None => _ end] => destruct x eqn:?
           | context [let '(_, _) := Direction.atLast ?a ?b in _] =>
             let E := fresh "E" in
             destruct (Direction.atLast a b) as [? ?] eqn:E;
             apply (Direction_atLast_ok S) in E; [destruct E|prov|boolZ; lia]
           end;
    try discriminate H; injection H as <-; unfold Direction_ok; simpl; boolZ; prov;
    auto.
Qed.

Lemma Direction_entry_ok (h : store) (fuel : nat) (S : list ptr)
      (kv : string * list ptr) (m m' : smap) :
  incl (snd kv) S -> incl (pointers m) S ->
  Direction.entry h fuel kv m = Done m' -> incl (pointers m') S.
Proof.
  intros Hkv Hm H. unfold Direction.entry in H.
  pose proof (incl_sortStreetsDescLength S h (snd kv) Hkv) as Hsort.
  apply rbind_Done in H. destruct H as [s [Hl Hd]]. injection Hd as <-.
  apply (loop_invariant (Direction_ok S) (Direction.body h (fst kv))) in Hl.
  - apply Hl.
  - intros s0 s1 Hp Hb. apply (Direction_body_ok h (fst kv) S s0 s1 Hp). left. exact Hb.
  - intros s0 s1 Hp Hb. apply (Direction_body_ok h (fst kv) S s0 s1 Hp). right. exact Hb.
  - unfold Direction_ok, Direction.init. simpl. prov. discriminate.
Qed.

Lemma Direction_run_ok (E : environment) (h : store) (fuel : nat) (m m' : smap) :
  Direction.run E h fuel m = Done m' -> incl (pointers m') (pointers m).
Proof.
  unfold Direction.run. intros H.
  apply (foreach_invariant (fun m0 => incl (pointers m0) (pointers m))
                           (fun kv => incl (snd kv) (pointers m))) in H.
  - exact H.
  - intros kv s s' Hq Hp Hb. exact (Direction_entry_ok h fuel _ kv s s' Hq Hp Hb).
  - apply range_incl.
  - intros x [].
Qed.

(** *** mergeStreetSameDirection *)

Lemma SameDirection_finish_ok (S : list ptr) (strName : string) (b : ptr)
      (strs' : list ptr) (i' : Z) (normName' : string) (m : smap) (h : store)
      (s' : SameDirection.state) :
  In b S -> incl strs' S -> incl (pointers m) S -> -1 <= i' ->
  SameDirection.finish strName b strs' i' normName' m h = Next s' ->
  SameDirection_ok S s'.
Proof.
  intros Hb Hs Hm Hi H. unfold SameDirection.finish in H.
  destruct (atEnd strs' i'); injection H as <-; unfold SameDirection_ok; simpl; prov.
Qed.

Lemma SameDirection_refuse_ok (S : list ptr) (strName : string) (b : ptr)
      (s s' : SameDirection.state) :
  In b S -> SameDirection_ok S s ->
  SameDirection.refuse strName b s = Next s' ->
  SameDirection_ok S s'.
Proof.
  intros Hb [H0 [Hs [_ Hm]]] H. unfold SameDirection.refuse in H.
  destruct (SameDirection.i s =? len (SameDirection.strs s) - 1);
    injection H as <-; unfold SameDirection_ok; simpl; prov.
Qed.

Lemma SameDirection_body_ok (strName : string) (S : list ptr) (s s' : SameDirection.state) :
  SameDirection_ok S s ->
  SameDirection.body strName s = Next s' \/ SameDirection.body strName s = Stop s' ->
  SameDirection_ok S s'.
Proof.
  intros Hok H. pose proof Hok as [H0 [Hs [Hb Hm]]]. unfold SameDirection.body in H.
  destruct (SameDirection.i s <? len (SameDirection.strs s)) eqn:Ei.
  2:{ destruct H as [H|H]; [discriminate H|]. injection H as <-. exact Hok. }
  boolZ.
  destruct (len (SameDirection.strs s) =? 1) eqn:E1.
  { destruct H as [H|H]; [|discriminate H]. injection H as <-.
    unfold SameDirection_ok; simpl; boolZ; prov. }
  destruct (SameDirection.i s =? 0) eqn:E0.
  { destruct H as [H|H]; [|discriminate H]. injection H as <-.
    unfold SameDirection_ok; simpl; boolZ; prov. }
  destruct (SameDirection.str1 s) as [b|] eqn:Eb.
  2:{ destruct H as [H|H]; discriminate H. }
  assert (HbS : In b S) by (apply Hb; reflexivity).
  assert (Hc : In (at_ (SameDirection.strs s) (SameDirection.i s)) S) by prov.
  cbv zeta in H.
  assert (Hnext : SameDirection.body strName s = Next s'
                  \/ SameDirection.body strName s = Stop s' -> True) by trivial.
  destruct H as [H|H].
  - split_ifs H;
      first [ apply (SameDirection_refuse_ok S strName b s s' HbS Hok H)
            | eapply (SameDirection_finish_ok S); [| | | |exact H]; boolZ; prov ].
  - exfalso. split_ifs H;
      match type of H with
      | SameDirection.refuse _ _ _ = _ =>
        destruct (SameDirection_refuse_heap strName b s) as [x [Hx _]]; congruence
      | SameDirection.finish ?a ?b0 ?c ?d ?e ?f ?g = _ =>
        destruct (SameDirection_finish_heap a b0 c d e f g) as [x [Hx _]]; congruence
      end.
Qed.

Lemma SameDirection_entry_ok (fuel : nat) (S : list ptr)
      (kv : string * list ptr) (mh mh' : smap * store) :
  incl (snd kv) S -> incl (pointers (fst mh)) S ->
  SameDirection.entry fuel kv mh = Done mh' -> incl (pointers (fst mh')) S.
Proof.
  intros Hkv Hm H. unfold SameDirection.entry in H.
  pose proof (incl_sortStreetsDescLength S (snd mh) (snd kv) Hkv) as Hsort.
  apply rbind_Done in H. destruct H as [s [Hl Hd]]. injection Hd as <-.
  apply (loop_invariant (SameDirection_ok S) (SameDirection.body (fst kv))) in Hl.
  - apply Hl.
  - intros s0 s1 Hp Hb. apply (SameDirection_body_ok (fst kv) S s0 s1 Hp). left. exact Hb.
  - intros s0 s1 Hp Hb. apply (SameDirection_body_ok (fst kv) S s0 s1 Hp). right. exact Hb.
  - unfold SameDirection_ok, SameDirection.init. simpl. prov. discriminate.
Qed.

Lemma SameDirection_run_ok (E : environment) (fuel : nat) (m : smap) (h : store)
      (mh' : smap * store) :
  SameDirection.run E fuel m h = Done mh' -> incl (pointers (fst mh')) (pointers m).
Proof.
  unfold SameDirection.run. intros H.
  apply (foreach_invariant (fun mh0 : smap * store => incl (pointers (fst mh0)) (pointers m))
                           (fun kv => incl (snd kv) (pointers m))) in H.
  - exact H.
  - intros kv s s' Hq Hp Hb. exact (SameDirection_entry_ok fuel _ kv s s' Hq Hp Hb).
  - apply range_incl.
  - intros x [].
Qed.

(** *** mergeLaneSameDirection *)

Lemma Lane_finish_ok (S : list ptr) (normName : string) (b : ptr)
      (strs' : list ptr) (i' : Z) (m : smap) (h : store) (s' : Lane.state) :
  In b S -> incl strs' S -> incl (pointers m) S -> -1 <= i' ->
  Lane.finish normName b strs' i' m h = Next s' ->
  Lane_ok S s'.
Proof.
  intros Hb Hs Hm Hi H. unfold Lane.finish in H.
  destruct (atEnd strs' i'); injection H as <-; unfold Lane_ok; simpl; prov.
Qed.

Lemma Lane_refuse_ok (S : list ptr) (normName : string) (b : ptr) (s s' : Lane.state) :
  In b S -> Lane_ok S s ->
  Lane.refuse normName b s = Next s' ->
  Lane_ok S s'.
Proof.
  intros Hb [H0 [Hs Hm]] H. unfold Lane.refuse in H.
  injection H as <-; unfold Lane_ok; simpl.
  destruct (atEnd _ _); prov.
Qed.

Lemma Lane_body_ok (normName : string) (b : ptr) (S : list ptr) (s s' : Lane.state) :
  In b S -> Lane_ok S s ->
  Lane.body normName b s = Next s' \/ Lane.body normName b s = Stop s' ->
  Lane_ok S s'.
Proof.
  intros HbS Hok H. pose proof Hok as [H0 [Hs Hm]]. unfold Lane.body in H.
  destruct (Lane.i s <? len (Lane.strs s)) eqn:Ei.
  2:{ destruct H as [H|H]; [discriminate H|]. injection H as <-. exact Hok. }
  boolZ.
  assert (Hc : In (at_ (Lane.strs s) (Lane.i s)) S) by prov.
  cbv zeta in H.
  destruct H as [H|H].
  - split_ifs H;
      first [ apply (Lane_refuse_ok S normName b s s' HbS Hok H)
            | eapply (Lane_finish_ok S); [| | | |exact H]; boolZ; prov ].
  - exfalso. split_ifs H;
      match type of H with
      | Lane.refuse _ _ _ = _ => discriminate H
      | Lane.finish ?a ?b0 ?c ?d ?e ?f = _ =>
        destruct (Lane_finish_heap a b0 c d e f) as [x [Hx _]]; congruence
      end.
Qed.

Lemma Lane_entry_ok (fuel : nat) (S : list ptr)
      (kv : string * list ptr) (mh mh' : smap * store) :
  incl (snd kv) S -> incl (pointers (fst mh)) S ->
  Lane.entry fuel kv mh = Done mh' -> incl (pointers (fst mh')) S.
Proof.
  intros Hkv Hm H. unfold Lane.entry in H. destruct mh as [m h]. simpl in Hm.
  pose proof (incl_sortStreetsDescLength S h (snd kv) Hkv) as Hsort.
  destruct (len (sortStreetsDescLength h (snd kv)) <? 1) eqn:E0.
  { injection H as <-. exact Hm. }
  destruct (len (sortStreetsDescLength h (snd kv)) =? 1) eqn:E1.
  { injection H as <-. simpl. boolZ. prov. }
  boolZ.
  pose proof (getLongestStreetIndex_range h (sortStreetsDescLength h (snd kv))) as Hr.
  apply rbind_Done in H. destruct H as [s [Hl Hd]]. injection Hd as <-. simpl.
  assert (Hb : In (at_ (sortStreetsDescLength h (snd kv))
                       (getLongestStreetIndex h (sortStreetsDescLength h (snd kv)))) S)
    by prov.
  apply (loop_invariant (Lane_ok S)) in Hl.
  - apply Hl.
  - intros s0 s1 Hp Hbd. eapply Lane_body_ok; [exact Hb|exact Hp|left; exact Hbd].
  - intros s0 s1 Hp Hbd. eapply Lane_body_ok; [exact Hb|exact Hp|right; exact Hbd].
  - unfold Lane_ok. simpl. prov.
Qed.

Lemma Lane_run_ok (E : environment) (fuel : nat) (m : smap) (h : store)
      (mh' : smap * store) :
  Lane.run E fuel m h = Done mh' -> incl (pointers (fst mh')) (pointers m).
Proof.
  unfold Lane.run. intros H.
  apply (foreach_invariant (fun mh0 : smap * store => incl (pointers (fst mh0)) (pointers m))
                           (fun kv => incl (snd kv) (pointers m))) in H.
  - exact H.
  - intros kv s s' Hq Hp Hb. exact (Lane_entry_ok fuel _ kv s s' Hq Hp Hb).
  - apply range_incl.
  - intros x [].
Qed.

(** *** mergeStreet *)

Lemma Final_finish_ok (S : list ptr) (normName : string) (b : ptr)
      (strs' : list ptr) (i' : Z) (m : smap) (h : store) (s' : Final.state) :
  In b S -> incl strs' S -> incl (pointers m) S -> -1 <= i' ->
  Final.finish normName b strs' i' m h = Next s' ->
  Final_ok S s'.
Proof.
  intros Hb Hs Hm Hi H. unfold Final.finish in H.
  destruct (atEnd strs' i'); injection H as <-; unfold Final_ok; simpl; prov.
Qed.

Lemma Final_finish_Next (normName : string) (b : ptr) (strs' : list ptr) (i' : Z)
      (m : smap) (h : store) :
  exists s', Final.finish normName b strs' i' m h = Next s' /\ Final.heap s' = h.
Proof.
  unfold Final.finish. destruct (atEnd strs' i'); eexists; split; reflexivity.
Qed.

Lemma Final_refuse_ok (S : list ptr) (normName : string) (b : ptr) (s s' : Final.state) :
  In b S -> Final_ok S s ->
  Final.refuse normName b s = Next s' ->
  Final_ok S s'.
Proof.
  intros Hb [H0 [Hs Hm]] H. unfold Final.refuse in H.
  injection H as <-; unfold Final_ok; simpl.
  destruct (atEnd _ _); prov.
Qed.

Lemma Final_body_ok (normName : string) (b : ptr) (S : list ptr) (s s' : Final.state) :
  In b S -> Final_ok S s ->
  Final.body normName b s = Next s' \/ Final.body normName b s = Stop s' ->
  Final_ok S s'.
Proof.
  intros HbS Hok H. pose proof Hok as [H0 [Hs Hm]]. unfold Final.body in H.
  destruct (Final.i s <? len (Final.strs s)) eqn:Ei.
  2:{ destruct H as [H|H]; [discriminate H|]. injection H as <-. exact Hok. }
  boolZ.
  assert (Hc : In (at_ (Final.strs s) (Final.i s)) S) by prov.
  cbv zeta in H.
  destruct H as [H|H].
  - split_ifs H;
      first [ apply (Final_refuse_ok S normName b s s' HbS Hok H)
            | eapply (Final_finish_ok S); [| | | |exact H]; boolZ; prov
            | injection H as <-; unfold Final_ok; simpl; prov ].
  - exfalso. split_ifs H;
      match type of H with
      | Final.refuse _ _ _ = _ => discriminate H
      | Final.finish ?a ?b0 ?c ?d ?e ?f = _ =>
        destruct (Final_finish_Next a b0 c d e f) as [x [Hx _]]; congruence
      | _ => discriminate H
      end.
Qed.

Lemma Final_entry_ok (fuel : nat) (S : list ptr)
      (kv : string * list ptr) (mh mh' : smap * store) :
  incl (snd kv) S -> incl (pointers (fst mh)) S ->
  Final.entry fuel kv mh = Done mh' -> incl (pointers (fst mh')) S.
Proof.
  intros Hkv Hm H. unfold Final.entry in H. destruct mh as [m h]. simpl in Hm.
  pose proof (incl_removeRoundabout S h _ (incl_sortStreetsDescLength S h (snd kv) Hkv))
    as Hsort.
  set (strs0 := removeRoundabout h (sortStreetsDescLength h (snd kv))) in *.
  destruct (len strs0 <? 1) eqn:E0.
  { injection H as <-. exact Hm. }
  destruct (len strs0 =? 1) eqn:E1.
  { injection H as <-. simpl. boolZ. prov. }
  boolZ.
  pose proof (getLongestStreetIndex_range h strs0) as Hr.
  apply rbind_Done in H. destruct H as [s [Hl Hd]]. injection Hd as <-. simpl.
  assert (Hb : In (at_ strs0 (getLongestStreetIndex h strs0)) S) by prov.
  apply (loop_invariant (Final_ok S)) in Hl.
  - apply Hl.
  - intros s0 s1 Hp Hbd. eapply Final_body_ok; [exact Hb|exact Hp|left; exact Hbd].
  - intros s0 s1 Hp Hbd. eapply Final_body_ok; [exact Hb|exact Hp|right; exact Hbd].
  - unfold Final_ok. simpl. prov.
Qed.

Lemma Final_run_ok (E : environment) (fuel : nat) (m : smap) (h : store)
      (mh' : smap * store) :
  Final.run E fuel m h = Done mh' -> incl (pointers (fst mh')) (pointers m).
Proof.
  unfold Final.run. intros H.
  apply (foreach_invariant (fun mh0 : smap * store => incl (pointers (fst mh0)) (pointers m))
                           (fun kv => incl (snd kv) (pointers m))) in H.
  - exact H.
  - intros kv s s' Hq Hp Hb. exact (Final_entry_ok fuel _ kv s s' Hq Hp Hb).
  - apply range_incl.
  - intros x [].
Qed.

Lemma output_incl (E : environment) (m : smap) : incl (output E m) (pointers m).
Proof.
  unfold output.
  apply fold_left_incl; [|intros x []].
  intros l k Hl. destruct (lookup m k) as [v|] eqn:El; [|exact Hl].
  apply incl_app; [exact Hl|exact (lookup_incl m k v El)].
Qed.

(** ** Names the normalisation skips *)

Lemma deref_update_other (h : store) :
  forall (q p : ptr) (f : street -> street), p <> q -> deref (update h q f) p = deref h p.
Proof.
  unfold deref. induction h as [|s t IH]; intros q p f Hne; simpl.
  - destruct q; reflexivity.
  - destruct q as [|q'], p as [|p']; simpl; try reflexivity; try congruence.
    apply IH. congruence.
Qed.

Lemma ignored_prefix (normName : string) :
  HasPrefix normName "kiet" = true \/ HasPrefix normName "hem" = true
  \/ HasPrefix normName "cau" = true \/ HasPrefix normName "vong xuyen" = true ->
  ignored normName = true.
Proof.
  unfold ignored. intros [H|[H|[H|H]]]; rewrite H; rewrite ?orb_true_r; reflexivity.
Qed.

Lemma normalizeStreet_skipped (E : environment) (streets : store) (p : ptr)
      (acc : smap * store) :
  skipped E streets p ->
  Name (deref (snd acc) p) = Name (deref streets p) ->
  normalizeStreet E acc p = acc.
Proof.
  unfold skipped, normalizeStreet. destruct acc as [m h]. cbn [snd]. cbv zeta.
  intros H ->. revert H.
  generalize (removeAccent (ToLower E (Name (deref streets p)))).
  intros normName H.
  destruct (ignored normName) eqn:Ei; [reflexivity|].
  destruct H as [H|[H|[H|[H|H]]]].
  - rewrite ignored_prefix in Ei by tauto. discriminate Ei.
  - rewrite ignored_prefix in Ei by tauto. discriminate Ei.
  - rewrite ignored_prefix in Ei by tauto. discriminate Ei.
  - rewrite ignored_prefix in Ei by tauto. discriminate Ei.
  - rewrite H. rewrite String.eqb_refl. reflexivity.
Qed.

Lemma normalizeStreet_other (E : environment) (p st : ptr) (acc : smap * store) :
  st <> p ->
  ~ In p (pointers (fst acc)) ->
  ~ In p (pointers (fst (normalizeStreet E acc st)))
  /\ Name (deref (snd (normalizeStreet E acc st)) p) = Name (deref (snd acc) p).
Proof.
  intros Hne Hp. unfold normalizeStreet. destruct acc as [m h]. cbn [fst snd] in *.
  cbv zeta.
  destruct (ignored _); [auto|].
  destruct (String.eqb _ "ngo chu huy man"); [auto|].
  destruct (String.eqb _ ""); [auto|].
  cbn [fst snd]. split.
  - intros Hin.
    apply (incl_pointers_append_to (st :: pointers m)) in Hin.
    + destruct Hin as [->|Hin]; [congruence|exact (Hp Hin)].
    + left. reflexivity.
    + apply incl_tl, incl_refl.
  - rewrite deref_update_other by congruence. reflexivity.
Qed.

Lemma normalizeStreets_skipped (E : environment) (streets : store) (p : ptr) :
  skipped E streets p ->
  forall (l : list ptr) (acc : smap * store),
    NoDup l ->
    ~ In p (pointers (fst acc)) ->
    (In p l -> Name (deref (snd acc) p) = Name (deref streets p)) ->
    ~ In p (pointers (fst (fold_left (normalizeStreet E) l acc))).
Proof.
  intros Hsk. induction l as [|st l IH]; intros acc Hnd Hp Hn; simpl; [exact Hp|].
  inversion Hnd as [|? ? Hst Hnd']; subst.
  destruct (Nat.eq_dec st p) as [->|Hne].
  - rewrite (normalizeStreet_skipped E streets p acc Hsk (Hn (or_introl eq_refl))).
    apply IH; [exact Hnd'|exact Hp|]. intros Hin. contradiction.
  - destruct (normalizeStreet_other E p st acc Hne Hp) as [Hp' Hn'].
    apply IH; [exact Hnd'|exact Hp'|].
    intros Hin. rewrite Hn'. apply Hn. right. exact Hin.
Qed.

Lemma joinStreets_stages_pointers (E : environment) (fuel : nat) (streets : store)
      (st : stages) :
  joinStreets_stages E fuel streets = Done st ->
  nameMap st = fst (normalizeStreets E (seq 0 (List.length streets)) streets)
  /\ incl (pointers (groupDistanceNameMap st)) (pointers (nameMap st))
  /\ incl (pointers (groupDirectionNameMap st)) (pointers (groupDistanceNameMap st))
  /\ incl (pointers (fst (mergedStreetSameDirection st)))
          (pointers (groupDirectionNameMap st))
  /\ incl (pointers (fst (mergeLaneSameDirection st)))
          (pointers (fst (mergedStreetSameDirection st)))
  /\ incl (pointers (fst (mergedStreet st)))
          (pointers (fst (mergeLaneSameDirection st))).
Proof.
  unfold joinStreets_stages.
  destruct (normalizeStreets E (seq 0 (List.length streets)) streets) as [nm h1].
  intros H.
  apply rbind_Done in H. destruct H as [gd [H1 H]].
  apply rbind_Done in H. destruct H as [gdir [H2 H]].
  apply rbind_Done in H. destruct H as [m5 [H3 H]].
  apply rbind_Done in H. destruct H as [m6 [H4 H]].
  apply rbind_Done in H. destruct H as [m7 [H5 H]].
  injection H as <-. simpl.
  split; [reflexivity|].
  split; [exact (Proximity_run_ok _ _ _ _ _ H1)|].
  split; [exact (Direction_run_ok _ _ _ _ _ H2)|].
  split; [exact (SameDirection_run_ok _ _ _ _ _ H3)|].
  split; [exact (Lane_run_ok _ _ _ _ _ H4)|].
  exact (Final_run_ok _ _ _ _ _ H5).
Qed.

(** C6.  A street whose name, in lower case and without accents, starts with
    "kiet", "hem", "cau" or "vong xuyen", or is "ngo chu huy man", is skipped
    by the normalisation: it is in no bucket of [nameMap], hence in no bucket
    of any later stage, and it is not among the streets [joinStreets]
    returns. *)
Theorem skipped_street_is_dropped (E : environment) (fuel : nat) (streets : store) (p : ptr) :
  skipped E streets p ->
  ~ In p (pointers (fst (normalizeStreets E (seq 0 (List.length streets)) streets)))
  /\ (forall st,
         joinStreets_stages E fuel streets = Done st ->
         ~ In p (pointers (nameMap st))
         /\ ~ In p (pointers (groupDistanceNameMap st))
         /\ ~ In p (pointers (groupDirectionNameMap st))
         /\ ~ In p (pointers (fst (mergedStreetSameDirection st)))
         /\ ~ In p (pointers (fst (mergeLaneSameDirection st)))
         /\ ~ In p (pointers (fst (mergedStreet st))))
  /\ (forall ret h,
         joinStreets_ptrs E fuel streets = Done (ret, h) -> ~ In p ret).
Proof.
  intros Hsk.
  assert (H0 : ~ In p (pointers (fst (normalizeStreets E (seq 0 (List.length streets))
                                                       streets)))).
  { unfold normalizeStreets. apply (normalizeStreets_skipped E streets p Hsk).
    - apply seq_NoDup.
    - simpl. tauto.
    - reflexivity. }
  assert (H1 : forall st,
             joinStreets_stages E fuel streets = Done st ->
             ~ In p (pointers (nameMap st))
             /\ ~ In p (pointers (groupDistanceNameMap st))
             /\ ~ In p (pointers (groupDirectionNameMap st))
             /\ ~ In p (pointers (fst (mergedStreetSameDirection st)))
             /\ ~ In p (pointers (fst (mergeLaneSameDirection st)))
             /\ ~ In p (pointers (fst (mergedStreet st)))).
  { intros st Hst.
    destruct (joinStreets_stages_pointers E fuel streets st Hst)
      as [Hn [I1 [I2 [I3 [I4 I5]]]]].
    rewrite <- Hn in H0.
    assert (A1 : ~ In p (pointers (groupDistanceNameMap st))) by (intros X; exact (H0 (I1 p X))).
    assert (A2 : ~ In p (pointers (groupDirectionNameMap st))) by (intros X; exact (A1 (I2 p X))).
    assert (A3 : ~ In p (pointers (fst (mergedStreetSameDirection st))))
      by (intros X; exact (A2 (I3 p X))).
    assert (A4 : ~ In p (pointers (fst (mergeLaneSameDirection st))))
      by (intros X; exact (A3 (I4 p X))).
    assert (A5 : ~ In p (pointers (fst (mergedStreet st))))
      by (intros X; exact (A4 (I5 p X))).
    tauto. }
  split; [exact H0|]. split; [exact H1|].
  intros ret h Hr. unfold joinStreets_ptrs in Hr.
  apply rbind_Done in Hr. destruct Hr as [st [Hst Hd]]. injection Hd as <- _.
  intros Hin. apply output_incl in Hin.
  destruct (H1 st Hst) as [_ [_ [_ [_ [_ A5]]]]]. exact (A5 Hin).
Qed.

Lemma skipped_street_is_dropped_witness :
  exists ret h,
    joinStreets_ptrs plain_environment 20 alley_and_street = Done (ret, h)
    /\ ~ In 0%nat ret.
Proof.
  destruct (joinStreets_ptrs plain_environment 20 alley_and_street) as [[ret h]| |] eqn:Hr;
    [|vm_compute in Hr; discriminate Hr|vm_compute in Hr; discriminate Hr].
  exists ret, h. split; [reflexivity|].
  apply (proj2 (proj2 (skipped_street_is_dropped plain_environment 20 alley_and_street 0%nat
                         ltac:(left; vm_compute; reflexivity))) ret h Hr).
Defined.

(** ** The order of the output *)

Lemma range_orders_are_permutations (loop_id : nat) (ks : list string) :
  Permutation (range_order plain_environment loop_id ks) ks
  /\ Permutation (range_order last_map_reversed loop_id ks) ks.
Proof.
  split; simpl; [apply Permutation_refl|].
  destruct (Nat.eqb loop_id 5); [|apply Permutation_refl].
  apply Permutation_sym, Permutation_rev.
Qed.

(** C1 fails on the code: two streets named "B" lie 0.01 apart; with one and
    the same parser, the run in which the last [range] (over the keys
    [b__1], [b__2] in [mergeStreet]) visits the keys in the other order
    returns the two streets in the other order. *)
Theorem joinStreets_order_depends_on_range :
  rbind (joinStreets plain_environment 20 two_far_apart) (fun ret => Done (map WayId ret))
  = Done [1; 2]
  /\ rbind (joinStreets last_map_reversed 20 two_far_apart) (fun ret => Done (map WayId ret))
     = Done [2; 1]
  /\ joinStreets plain_environment 20 two_far_apart
     <> joinStreets last_map_reversed 20 two_far_apart
  /\ parse plain_environment = parse last_map_reversed.
Proof.
  split; [vm_compute; reflexivity|].
  split; [vm_compute; reflexivity|].
  split; [vm_compute; discriminate|reflexivity].
Qed.

(** ** Binary search *)

Lemma quot2_between (low high : Z) :
  low <= high -> low <= Z.quot (low + high) 2 <= high.
Proof.
  intros H. pose proof (Z.quot_rem' (low + high) 2) as Hq.
  destruct (Z_le_gt_dec 0 (low + high)) as [Hs|Hs].
  - pose proof (Z.rem_bound_pos_pos (low + high) 2 ltac:(lia) Hs).
    generalize dependent (Z.quot (low + high) 2).
    generalize dependent (Z.rem (low + high) 2). intros. lia.
  - pose proof (Z.rem_bound_pos_neg (low + high) 2 ltac:(lia) ltac:(lia)).
    generalize dependent (Z.quot (low + high) 2).
    generalize dependent (Z.rem (low + high) 2). intros. lia.
Qed.

Lemma binarySearch_rec_fuel (arr : list string) (key : string) (f1 : nat) :
  forall f2 low high,
    high - low + 1 <= Z.of_nat f1 -> high - low + 1 <= Z.of_nat f2 ->
    binarySearch_rec f1 arr key low high = binarySearch_rec f2 arr key low high.
Proof.
  induction f1 as [|f1 IH]; intros f2 low high H1 H2.
  - destruct f2; simpl; destruct (high <? low) eqn:E; try reflexivity;
      apply Z.ltb_ge in E; lia.
  - destruct f2 as [|f2]; simpl; destruct (high <? low) eqn:E; try reflexivity;
      apply Z.ltb_ge in E; [lia|].
    pose proof (quot2_between low high E) as Hm.
    destruct (String.eqb key _); [reflexivity|].
    destruct (String.ltb key _); apply IH; lia.
Qed.

Lemma binarySearch_rec_within (arr : list string) (key : string) (fuel : nat) :
  forall low high,
    binarySearch_rec fuel arr key low high = -1
    \/ low <= binarySearch_rec fuel arr key low high <= high.
Proof.
  induction fuel as [|f IH]; intros low high; simpl.
  - destruct (high <? low); auto.
  - destruct (high <? low) eqn:E; [auto|]. apply Z.ltb_ge in E.
    pose proof (quot2_between low high E) as Hm.
    destruct (String.eqb key _); [right; exact Hm|].
    destruct (String.ltb key _).
    + destruct (IH low (Z.quot (low + high) 2 - 1)) as [H|H]; [auto|right; lia].
    + destruct (IH (Z.quot (low + high) 2 + 1) high) as [H|H]; [auto|right; lia].
Qed.

Lemma index_nth_error (a : list string) (r : Z) :
  0 <= r < Z.of_nat (List.length a) ->
  nth_error a (Z.to_nat r) = Some (index a r).
Proof.
  intros H. unfold index. destruct (r <? 0) eqn:E; [apply Z.ltb_lt in E; lia|].
  apply nth_error_nth'. lia.
Qed.

(** [binarySearch] on the positions [low..high] of a slice, sorted or not:
    it returns -1 or a position between [low] and [high] at which the key
    stands, and -1 when the interval is empty.  A depth of recursion of the
    number of positions is enough: with more, the result is the same. *)
Theorem binarySearch_position
        (sortedArray : list string) (key : string) (low high : Z) :
  0 <= low -> high < Z.of_nat (List.length sortedArray) ->
  (binarySearch sortedArray key low high = -1
   \/ (low <= binarySearch sortedArray key low high <= high
       /\ nth_error sortedArray (Z.to_nat (binarySearch sortedArray key low high))
          = Some key))
  /\ (high < low -> binarySearch sortedArray key low high = -1)
  /\ (forall fuel, (Z.to_nat (high - low + 1) <= fuel)%nat ->
                   binarySearch_rec fuel sortedArray key low high
                   = binarySearch sortedArray key low high).
Proof.
  intros Hl Hh. split; [|split].
  - destruct (Z.eq_dec (binarySearch sortedArray key low high) (-1)) as [E|E]; [auto|].
    right. destruct (binarySearch_rec_within sortedArray key
                       (Z.to_nat (high - low + 1)) low high) as [H|H];
             [contradiction|].
    fold (binarySearch sortedArray key low high) in H.
    split; [exact H|].
    rewrite index_nth_error by lia.
    f_equal. apply binarySearch_found. exact E.
  - intros H. unfold binarySearch. apply Z.ltb_lt in H.
    destruct (Z.to_nat (high - low + 1)); simpl; rewrite H; reflexivity.
  - intros fuel Hf. unfold binarySearch. apply binarySearch_rec_fuel; lia.
Qed.

Lemma binarySearch_position_witness :
  binarySearch ["a"; "c"; "e"] "c" 0 2 = -1
  \/ (0 <= binarySearch ["a"; "c"; "e"] "c" 0 2 <= 2
      /\ nth_error ["a"; "c"; "e"] (Z.to_nat (binarySearch ["a"; "c"; "e"] "c" 0 2))
         = Some "c").
Proof.
  exact (proj1 (binarySearch_position ["a"; "c"; "e"] "c" 0 2
                  ltac:(lia) ltac:(simpl; lia))).
Defined.

Lemma ltb_irrefl (s : string) : String.ltb s s = false.
Proof.
  unfold String.ltb. pose proof (String.compare_antisym s s) as H.
  destruct (String.compare s s); simpl in H; try reflexivity; discriminate.
Qed.

Lemma ltb_asym (s t : string) : String.ltb s t = true -> String.ltb t s = false.
Proof.
  unfold String.ltb. rewrite (String.compare_antisym s t).
  destruct (String.compare t s); simpl; intros H; try discriminate; reflexivity.
Qed.

Lemma binarySearch_rec_finds (arr : list string) (k : Z) (fuel : nat) :
  forall low high,
    ascending arr low high -> low <= k <= high ->
    high - low + 1 <= Z.of_nat fuel ->
    binarySearch_rec fuel arr (index arr k) low high = k.
Proof.
  induction fuel as [|f IH]; intros low high Ha Hk Hf; [lia|].
  simpl. destruct (high <? low) eqn:E; [apply Z.ltb_lt in E; lia|].
  apply Z.ltb_ge in E. pose proof (quot2_between low high E) as Hm.
  set (middle := Z.quot (low + high) 2) in *.
  destruct (Z.lt_trichotomy k middle) as [Hlt|[Heq|Hgt]].
  - pose proof (Ha k middle ltac:(lia) Hlt ltac:(lia)) as Hc.
    destruct (String.eqb (index arr k) (index arr middle)) eqn:Ee.
    { apply String.eqb_eq in Ee. rewrite Ee, ltb_irrefl in Hc. discriminate. }
    rewrite Hc. apply IH; [|lia|lia].
    intros i j Hi Hij Hj. apply Ha; lia.
  - subst k. rewrite String.eqb_refl. reflexivity.
  - pose proof (Ha middle k ltac:(lia) Hgt ltac:(lia)) as Hc.
    destruct (String.eqb (index arr k) (index arr middle)) eqn:Ee.
    { apply String.eqb_eq in Ee. rewrite Ee, ltb_irrefl in Hc. discriminate. }
    rewrite (ltb_asym _ _ Hc). apply IH; [|lia|lia].
    intros i j Hi Hij Hj. apply Ha; lia.
Qed.

(** On positions [low..high] in strictly ascending order of bytes,
    [binarySearch] finds every string that stands there, at its position. *)
Theorem binarySearch_finds_in_ascending
        (sortedArray : list string) (low high k : Z) :
  0 <= low -> high < Z.of_nat (List.length sortedArray) ->
  ascending sortedArray low high ->
  low <= k <= high ->
  binarySearch sortedArray (index sortedArray k) low high = k.
Proof.
  intros _ _ Ha Hk. unfold binarySearch.
  apply binarySearch_rec_finds; [exact Ha|exact Hk|lia].
Qed.

Lemma binarySearch_finds_in_ascending_witness :
  binarySearch ["a"; "c"; "e"] (index ["a"; "c"; "e"] 2) 0 2 = 2.
Proof.
  apply (binarySearch_finds_in_ascending ["a"; "c"; "e"] 0 2 2); try lia.
  - simpl. lia.
  - intros i j Hi Hij Hj.
    assert (Hc : (i = 0 /\ j = 1) \/ (i = 0 /\ j = 2) \/ (i = 1 /\ j = 2)) by lia.
    destruct Hc as [[-> ->]|[[-> ->]|[-> ->]]]; reflexivity.
Defined.

(** ** The URL of the parser *)

Lemma string_concat_cons (x : string) (l : list string) :
  String.concat "" (x :: l) = (x ++ String.concat "" l)%string.
Proof. destruct l; simpl; [rewrite append_empty_r|]; reflexivity. Qed.

Lemma prefix_space (a : ascii) (t : string) :
  String.prefix " " (String a t) = Ascii.eqb a " ".
Proof.
  cbn [String.prefix]. destruct (ascii_dec " " a) as [<-|Hn].
  - destruct t; reflexivity.
  - symmetry. apply Ascii.eqb_neq. congruence.
Qed.

(** [ReplaceAll(s, " ", "%20")] together with the regular expression: every
    byte on its own. *)
Lemma parserURL_bytes (s : string) :
  removeString (ReplaceAll s " " "%20")
  = String.concat ""
      (map (fun a => if escaped a then "%20" else String a EmptyString)
           (list_ascii_of_string s)).
Proof.
  unfold ReplaceAll. induction s as [|a t IH]; [reflexivity|].
  cbn [replace_from]. rewrite prefix_space.
  cbn [list_ascii_of_string map].
  rewrite string_concat_cons, <- IH. unfold escaped.
  destruct (Ascii.eqb a " ") eqn:E1.
  - reflexivity.
  - cbn [removeString orb].
    destruct (Ascii.eqb a "(" || Ascii.eqb a ")" || Ascii.eqb a "'" || Ascii.eqb a "*")%char;
      reflexivity.
Qed.

Lemma unescaped_app (s t : string) :
  unescaped (s ++ t) = unescaped s && unescaped t.
Proof.
  induction s as [|a s IH]; simpl; [reflexivity|]. rewrite IH, andb_assoc. reflexivity.
Qed.

Lemma unescaped_bytes (l : list ascii) :
  unescaped (String.concat ""
               (map (fun a => if escaped a then "%20" else String a EmptyString) l))
  = true.
Proof.
  induction l as [|a l IH]; [reflexivity|].
  cbn [map]. rewrite string_concat_cons, unescaped_app, IH, andb_true_r.
  destruct (escaped a) eqn:E; [reflexivity|]. simpl. rewrite E. reflexivity.
Qed.

Lemma bytes_unescaped (s : string) :
  unescaped s = true ->
  String.concat ""
    (map (fun a => if escaped a then "%20" else String a EmptyString)
         (list_ascii_of_string s)) = s.
Proof.
  induction s as [|a t IH]; [reflexivity|]. simpl unescaped.
  intros H. apply andb_true_iff in H. destruct H as [Ha Ht].
  cbn [list_ascii_of_string map]. rewrite string_concat_cons, (IH Ht).
  apply negb_true_iff in Ha. rewrite Ha. reflexivity.
Qed.

Lemma list_ascii_of_string_app (s t : string) :
  list_ascii_of_string (s ++ t) = list_ascii_of_string s ++ list_ascii_of_string t.
Proof. induction s as [|a s IH]; simpl; [|rewrite IH]; reflexivity. Qed.

Lemma string_concat_app (l1 l2 : list string) :
  String.concat "" (l1 ++ l2) = (String.concat "" l1 ++ String.concat "" l2)%string.
Proof.
  induction l1 as [|x l1 IH]; [reflexivity|].
  rewrite <- app_comm_cons, !string_concat_cons, IH, append_assoc. reflexivity.
Qed.

(** The URL [streetNameParser] requests: the fixed address followed by the
    search text, in which every space, parenthesis, apostrophe and asterisk
    is replaced by [%20] and every other byte is left as it is.  No such
    character is left in the URL, whatever the text; a text without them is
    appended unchanged. *)
Theorem parserURL_escapes (searchText : string) :
  parserURL searchText
  = (parserPrefix
     ++ String.concat ""
          (map (fun a => if escaped a then "%20" else String a EmptyString)
               (list_ascii_of_string searchText)))%string
  /\ unescaped (parserURL searchText) = true
  /\ (unescaped searchText = true ->
      parserURL searchText = (parserPrefix ++ searchText)%string).
Proof.
  assert (H : parserURL searchText
              = (parserPrefix
                 ++ String.concat ""
                      (map (fun a => if escaped a then "%20" else String a EmptyString)
                           (list_ascii_of_string searchText)))%string).
  { unfold parserURL. rewrite parserURL_bytes, list_ascii_of_string_app, map_app, string_concat_app.
    f_equal. }
  split; [exact H|]. split.
  - rewrite H, unescaped_app, unescaped_bytes. reflexivity.
  - intros Hu. rewrite H, (bytes_unescaped _ Hu). reflexivity.
Qed.

Lemma parserURL_escapes_witness :
  unescaped "a&b#c" = true
  /\ parserURL "a&b#c" = (parserPrefix ++ "a&b#c")%string.
Proof.
  split; [reflexivity|].
  apply (proj2 (proj2 (parserURL_escapes "a&b#c"))). reflexivity.
Defined.

(** ** Removing and sorting streets *)

Lemma removeStreet_from_split (s : list ptr) :
  forall k index_,
    k <= index_ < k + len s ->
    removeStreet_from k s index_
    = firstn (Z.to_nat (index_ - k)) s ++ skipn (Datatypes.S (Z.to_nat (index_ - k))) s.
Proof.
  unfold len. induction s as [|x t IH]; intros k index_ H; simpl in H; [lia|].
  cbn [removeStreet_from]. destruct (index_ =? k) eqn:E.
  - apply Z.eqb_eq in E. subst index_. rewrite Z.sub_diag. simpl.
    apply removeStreet_from_outside. lia.
  - apply Z.eqb_neq in E.
    replace (Z.to_nat (index_ - k)) with (Datatypes.S (Z.to_nat (index_ - (k + 1)))) by lia.
    cbn [firstn skipn app]. f_equal. apply IH. lia.
Qed.

(** [removeStreet] gives the slice without the element at [index], the
    others in their order; for an [index] outside the slice it gives the slice
    as it is. *)
Theorem removeStreet_takes_one_out (s : list ptr) (index_ : Z) :
  (0 <= index_ < len s ->
   removeStreet s index_
   = firstn (Z.to_nat index_) s ++ skipn (Datatypes.S (Z.to_nat index_)) s
   /\ len (removeStreet s index_) = len s - 1)
  /\ (index_ < 0 \/ len s <= index_ -> removeStreet s index_ = s).
Proof.
  split.
  - intros H. split; [|apply removeStreet_length; exact H].
    unfold removeStreet. rewrite removeStreet_from_split by lia.
    rewrite Z.sub_0_r. reflexivity.
  - intros H. apply removeStreet_from_outside. lia.
Qed.

Lemma removeStreet_takes_one_out_witness :
  removeStreet [5%nat; 6%nat; 7%nat] 1 = [5%nat; 7%nat]
  /\ removeStreet [5%nat; 6%nat; 7%nat] 3 = [5%nat; 6%nat; 7%nat].
Proof.
  destruct (removeStreet_takes_one_out [5%nat; 6%nat; 7%nat] 1) as [H1 _].
  destruct (removeStreet_takes_one_out [5%nat; 6%nat; 7%nat] 3) as [_ H2].
  split.
  - apply H1. unfold len. simpl. lia.
  - apply H2. right. unfold len. simpl. lia.
Defined.

Lemma set_nth_length (l : list ptr) : forall i x, List.length (set_nth l i x) = List.length l.
Proof. induction l as [|y t IH]; intros [|i] x; simpl; auto. Qed.

Lemma swap_length (l : list ptr) (i j : nat) : List.length (swap l i j) = List.length l.
Proof.
  unfold swap. destruct (nth_error l i); [|reflexivity].
  destruct (nth_error l j); [|reflexivity]. rewrite !set_nth_length. reflexivity.
Qed.

Lemma set_nth_count (l : list ptr) :
  forall i a x y,
    nth_error l i = Some a ->
    (count_occ Nat.eq_dec (set_nth l i x) y + (if Nat.eq_dec a y then 1 else 0)
     = count_occ Nat.eq_dec l y + (if Nat.eq_dec x y then 1 else 0))%nat.
Proof.
  induction l as [|z t IH]; intros [|i] a x y H; simpl in H; try discriminate.
  - injection H as ->. simpl.
    destruct (Nat.eq_dec x y), (Nat.eq_dec a y); lia.
  - simpl. specialize (IH i a x y H).
    destruct (Nat.eq_dec z y); lia.
Qed.

Lemma nth_error_set_nth_value (l : list ptr) :
  forall i j b, nth_error l j = Some b -> nth_error (set_nth l i b) j = Some b.
Proof.
  induction l as [|z t IH]; intros [|i] [|j] b H; simpl in *; try discriminate; auto.
Qed.

Lemma swap_Permutation (l : list ptr) (i j : nat) : Permutation (swap l i j) l.
Proof.
  unfold swap. destruct (nth_error l i) as [a|] eqn:Ea; [|apply Permutation_refl].
  destruct (nth_error l j) as [b|] eqn:Eb; [|apply Permutation_refl].
  apply (Permutation_count_occ Nat.eq_dec). intros y.
  pose proof (set_nth_count l i a b y Ea) as H1.
  pose proof (set_nth_count (set_nth l i b) j b a y (nth_error_set_nth_value l i j b Eb)) as H2.
  lia.
Qed.

Lemma fold_left_Permutation {A : Type} (f : list ptr -> A -> list ptr) (xs : list A) :
  (forall l a, Permutation (f l a) l) ->
  forall l, Permutation (fold_left f xs l) l.
Proof.
  intros Hf. induction xs as [|a xs IH]; intros l; simpl; [apply Permutation_refl|].
  eapply Permutation_trans; [apply IH|apply Hf].
Qed.

(** [sortStreetsDescLength] only changes the order of the slice: no street
    is lost, none is added, none comes twice. *)
Theorem sortStreetsDescLength_permutes (h : store) (streets : list ptr) :
  Permutation (sortStreetsDescLength h streets) streets
  /\ len (sortStreetsDescLength h streets) = len streets.
Proof.
  assert (H : Permutation (sortStreetsDescLength h streets) streets).
  { unfold sortStreetsDescLength.
    apply fold_left_Permutation. intros l i.
    apply fold_left_Permutation. intros l' j.
    destruct (F64.gtb _ _); [apply swap_Permutation|apply Permutation_refl]. }
  split; [exact H|]. unfold len. rewrite (Permutation_length H). reflexivity.
Qed.

Lemma set_nth_app (pre suf : list ptr) (a : nat) (x : ptr) :
  set_nth (pre ++ suf) (List.length pre + a) x = pre ++ set_nth suf a x.
Proof. induction pre as [|y pre IH]; simpl; [|rewrite IH]; reflexivity. Qed.

Lemma swap_app (pre suf : list ptr) (a : nat) :
  swap (pre ++ suf) (List.length pre) (List.length pre + a) = pre ++ swap suf 0 a.
Proof.
  unfold swap.
  replace (nth_error (pre ++ suf) (List.length pre)) with (nth_error suf 0).
  2:{ rewrite nth_error_app2 by lia. rewrite Nat.sub_diag. reflexivity. }
  replace (nth_error (pre ++ suf) (List.length pre + a)) with (nth_error suf a).
  2:{ rewrite nth_error_app2 by lia. f_equal. lia. }
  destruct (nth_error suf 0) as [x|]; [|reflexivity].
  destruct (nth_error suf a) as [y|]; [|reflexivity].
  replace (List.length pre) with (List.length pre + 0)%nat at 1 by lia.
  rewrite set_nth_app.
  replace (List.length pre + a)%nat with (List.length (pre ++ set_nth suf 0 y) - List.length (set_nth suf 0 y) + a)%nat.
  2:{ rewrite length_app. lia. }
  replace (List.length (pre ++ set_nth suf 0 y) - List.length (set_nth suf 0 y))%nat
    with (List.length pre) by (rewrite length_app; lia).
  apply set_nth_app.
Qed.

Lemma pass_app (h : store) (pre suf : list ptr) (a : nat) :
  pass h (List.length pre) (pre ++ suf) (List.length pre + a)
  = pre ++ pass h 0 suf a.
Proof.
  unfold pass.
  rewrite (app_nth2_plus pre suf 0%nat a).
  replace (nth (List.length pre) (pre ++ suf) 0%nat) with (nth 0 suf 0%nat).
  2:{ rewrite app_nth2 by lia. rewrite Nat.sub_diag. reflexivity. }
  destruct (F64.gtb _ _); [apply swap_app|reflexivity].
Qed.

Lemma pass_length (h : store) (i j : nat) (l : list ptr) :
  List.length (pass h i l j) = List.length l.
Proof. unfold pass. destruct (F64.gtb _ _); [apply swap_length|reflexivity]. Qed.

Lemma passes_app (h : store) (pre : list ptr) (cnt : nat) :
  forall a suf,
    fold_left (pass h (List.length pre)) (seq (List.length pre + a) cnt) (pre ++ suf)
    = pre ++ fold_left (pass h 0) (seq a cnt) suf.
Proof.
  induction cnt as [|cnt IH]; intros a suf; simpl; [reflexivity|].
  rewrite pass_app.
  replace (Datatypes.S (List.length pre + a)) with (List.length pre + Datatypes.S a)%nat by lia.
  apply IH.
Qed.

Lemma passes_Permutation (h : store) (i : nat) (js : list nat) (l : list ptr) :
  Permutation (fold_left (pass h i) js l) l.
Proof.
  apply fold_left_Permutation. intros l' j. unfold pass.
  destruct (F64.gtb _ _); [apply swap_Permutation|apply Permutation_refl].
Qed.

Lemma nth_set_nth (l : list ptr) :
  forall i k x,
    (i < List.length l)%nat ->
    nth k (set_nth l i x) 0%nat = if Nat.eqb k i then x else nth k l 0%nat.
Proof.
  induction l as [|y t IH]; intros [|i] [|k] x H; simpl in *; try lia; try reflexivity.
  apply IH. lia.
Qed.

Lemma nth_swap (l : list ptr) (i j k : nat) :
  (i < List.length l)%nat -> (j < List.length l)%nat ->
  nth k (swap l i j) 0%nat
  = if Nat.eqb k j then nth i l 0%nat
    else if Nat.eqb k i then nth j l 0%nat else nth k l 0%nat.
Proof.
  intros Hi Hj. unfold swap.
  rewrite (nth_error_nth' l 0%nat Hi), (nth_error_nth' l 0%nat Hj).
  rewrite nth_set_nth by (rewrite set_nth_length; exact Hj).
  destruct (Nat.eqb k j); [reflexivity|].
  apply nth_set_nth. exact Hi.
Qed.

(** After the inner loop has looked at the positions below [m], the street
    at the head is not shorter than any of them. *)
Lemma passes_head (h : store) (cnt : nat) :
  forall l,
    (cnt <= List.length l)%nat ->
    (forall p, In p l -> F64.is_nan (lengthOf h p) = false) ->
    forall k, (k < cnt)%nat ->
              notShorter h (nth 0 (fold_left (pass h 0) (seq 0 cnt) l) 0%nat)
                           (nth k (fold_left (pass h 0) (seq 0 cnt) l) 0%nat).
Proof.
  induction cnt as [|cnt IH]; intros l Hc Hn k Hk; [lia|].
  rewrite seq_S, fold_left_app. cbn [fold_left Nat.add].
  set (l1 := fold_left (pass h 0) (seq 0 cnt) l) in *.
  assert (Hp1 : Permutation l1 l) by apply passes_Permutation.
  assert (Hlen : List.length l1 = List.length l) by (apply Permutation_length, Hp1).
  assert (Hn1 : forall p, In p l1 -> F64.is_nan (lengthOf h p) = false).
  { intros p Hp. apply Hn. eapply Permutation_in; [exact Hp1|exact Hp]. }
  assert (IH1 : forall k, (k < cnt)%nat -> notShorter h (nth 0 l1 0%nat) (nth k l1 0%nat)).
  { intros k' Hk'. apply IH; [lia|exact Hn|exact Hk']. }
  assert (N0 : F64.is_nan (lengthOf h (nth 0 l1 0%nat)) = false).
  { apply Hn1, nth_In. lia. }
  assert (Nc : F64.is_nan (lengthOf h (nth cnt l1 0%nat)) = false).
  { apply Hn1, nth_In. lia. }
  unfold pass. fold (lengthOf h (nth cnt l1 0%nat)). fold (lengthOf h (nth 0 l1 0%nat)).
  destruct (F64.gtb (lengthOf h (nth cnt l1 0%nat)) (lengthOf h (nth 0 l1 0%nat))) eqn:E.
  - rewrite !nth_swap by lia. rewrite Nat.eqb_refl.
    pose proof (float_gt_le _ _ E) as Hle.
    destruct (Nat.eqb_spec 0 cnt) as [H0|H0].
    + subst cnt. assert (k = 0)%nat by lia. subst k. simpl.
      unfold notShorter. apply float_le_refl. exact N0.
    + destruct (Nat.eqb_spec k cnt) as [Hkc|Hkc].
      * exact Hle.
      * destruct (Nat.eqb_spec k 0) as [Hk0|Hk0].
        { unfold notShorter. apply float_le_refl. exact Nc. }
        unfold notShorter. eapply float_le_trans; [apply IH1; lia|exact Hle].
  - destruct (Nat.eq_dec k cnt) as [->|Hkc].
    + unfold notShorter. apply float_le_total; assumption.
    + apply IH1. lia.
Qed.

Lemma StronglySorted_app (R : ptr -> ptr -> Prop) (l1 l2 : list ptr) :
  StronglySorted R l1 -> StronglySorted R l2 ->
  (forall a b, In a l1 -> In b l2 -> R a b) ->
  StronglySorted R (l1 ++ l2).
Proof.
  induction l1 as [|x l1 IH]; intros H1 H2 H12; simpl; [exact H2|].
  apply StronglySorted_inv in H1. destruct H1 as [H1 Hx].
  apply SSorted_cons.
  - apply IH; [exact H1|exact H2|]. intros a b Ha Hb. apply H12; [right; exact Ha|exact Hb].
  - apply Forall_app. split; [exact Hx|].
    apply Forall_forall. intros b Hb. apply H12; [left; reflexivity|exact Hb].
Qed.

(** The outer loop: after [m] passes the first [m] streets are in place. *)
Lemma sort_prefix (h : store) (streets : list ptr) (n m : nat) :
  n = List.length streets ->
  (forall p, In p streets -> F64.is_nan (lengthOf h p) = false) ->
  (m <= n)%nat ->
  exists pre suf,
    fold_left (fun l i => fold_left (pass h i) (seq i (n - i)) l) (seq 0 m) streets
    = pre ++ suf
    /\ List.length pre = m
    /\ StronglySorted (notShorter h) pre
    /\ (forall a b, In a pre -> In b suf -> notShorter h a b)
    /\ Permutation (pre ++ suf) streets.
Proof.
  intros Hn Hnan. induction m as [|m IH]; intros Hm.
  - exists [], streets. simpl. repeat split; auto using Permutation_refl.
    + constructor.
    + intros a b [].
  - destruct (IH ltac:(lia)) as [pre [suf [E [Hl [Hs [Hps Hp]]]]]].
    rewrite seq_S, fold_left_app. cbn [fold_left Nat.add]. rewrite E.
    pose proof (Permutation_length Hp) as Hlen. rewrite length_app in Hlen.
    pose proof (passes_app h pre (n - m) 0 suf) as Hpa.
    rewrite Nat.add_0_r, Hl in Hpa. rewrite Hpa.
    set (suf' := fold_left (pass h 0) (seq 0 (n - m)) suf).
    assert (Hp' : Permutation suf' suf) by apply passes_Permutation.
    pose proof (Permutation_length Hp') as Hlen'.
    destruct suf' as [|x rest] eqn:Es; [simpl in Hlen'; lia|].
    exists (pre ++ [x]), rest. rewrite <- app_assoc. simpl.
    assert (Hin : forall b, In b (x :: rest) -> In b suf).
    { intros b Hb. eapply Permutation_in; [exact Hp'|exact Hb]. }
    assert (Hsuf : forall p, In p suf -> F64.is_nan (lengthOf h p) = false).
    { intros p Hp0. apply Hnan. eapply Permutation_in; [exact Hp|].
      apply in_or_app. right. exact Hp0. }
    assert (Hhead : forall b, In b rest -> notShorter h x b).
    { intros b Hb. apply (In_nth _ _ 0%nat) in Hb. destruct Hb as [k [Hk <-]].
      assert (Hq : (n - m <= List.length suf)%nat) by (unfold ptr in *; lia).
      assert (Hk' : (Datatypes.S k < n - m)%nat) by (unfold ptr in *; simpl in Hlen'; lia).
      pose proof (passes_head h (n - m) suf Hq Hsuf (Datatypes.S k) Hk') as Hh.
      fold suf' in Hh. rewrite Es in Hh. exact Hh. }
    repeat split.
    + rewrite length_app. simpl. lia.
    + apply StronglySorted_app; [exact Hs|repeat constructor|].
      intros a b Ha [<-|[]]. apply Hps; [exact Ha|]. apply Hin. left. reflexivity.
    + intros a b Ha Hb. apply in_app_or in Ha. destruct Ha as [Ha|[<-|[]]].
      * apply Hps; [exact Ha|]. apply Hin. right. exact Hb.
      * apply Hhead. exact Hb.
    + eapply Permutation_trans; [|exact Hp].
      apply Permutation_app_head. exact Hp'.
Qed.

(** [sortStreetsDescLength] puts the streets in descending order of length:
    in the slice it returns no street is longer than one that stands before
    it, as long as the length of every street is a number. *)
Theorem sortStreetsDescLength_descending (h : store) (streets : list ptr) :
  (forall p, In p streets -> F64.is_nan (lengthOf h p) = false) ->
  StronglySorted (notShorter h) (sortStreetsDescLength h streets).
Proof.
  intros Hnan.
  assert (Hs0 : sortStreetsDescLength h streets
                = fold_left (fun l i => fold_left (pass h i)
                                                  (seq i (List.length streets - i)) l)
                            (seq 0 (List.length streets - 1)) streets) by reflexivity.
  rewrite Hs0. clear Hs0.
  destruct (sort_prefix h streets (List.length streets) (List.length streets - 1)
                        eq_refl Hnan ltac:(lia))
    as [pre [suf [E [Hl [Hs [Hps Hp]]]]]].
  rewrite E. apply StronglySorted_app; [exact Hs| |exact Hps].
  pose proof (Permutation_length Hp) as Hlen. rewrite length_app in Hlen.
  destruct suf as [|x [|y suf]].
  - constructor.
  - repeat constructor.
  - exfalso. unfold ptr in *. simpl in Hlen. lia.
Qed.

Lemma sortStreetsDescLength_descending_witness :
  StronglySorted (notShorter alley_and_street)
                 (sortStreetsDescLength alley_and_street [0%nat; 1%nat]).
Proof.
  apply sortStreetsDescLength_descending.
  intros p [<-|[<-|[]]]; vm_compute; reflexivity.
Defined.

(** ** The longest street and the direction test *)

Lemma binary_round_aux_sign (sx : bool) (mx ex : Z) (lx : location) :
  match binary_round_aux F64.prec F64.emax sx mx ex lx with
  | S754_zero s | S754_infinity s | S754_finite s _ _ => s = sx
  | S754_nan => True
  end.
Proof.
  unfold binary_round_aux.
  destruct (shr_fexp F64.prec F64.emax mx ex lx) as [mrs' e'].
  destruct (shr_fexp F64.prec F64.emax _ e' loc_Exact) as [mrs'' e''].
  destruct (shr_m mrs''); [reflexivity| |exact I].
  destruct (e'' <=? F64.emax - F64.prec); reflexivity.
Qed.

Lemma sqrt_notNegative (x : float64) : notNegative (F64.sqrt x).
Proof.
  destruct x as [s|[]| |[] m e]; simpl; try exact I.
  unfold F64.sqrt, SFsqrt.
  destruct (SFsqrt_core_binary F64.prec F64.emax (Z.pos m) e) as [[mz ez] lz].
  pose proof (binary_round_aux_sign false mz ez lz) as H.
  destruct (binary_round_aux F64.prec F64.emax false mz ez lz); try exact I;
    subst; exact I.
Qed.

Lemma add_notNegative (x y : float64) :
  notNegative x -> notNegative y -> notNegative (F64.add x y).
Proof.
  destruct x as [sx|[]| |[] mx ex]; destruct y as [sy|[]| |[] my ey];
    simpl; intros Hx Hy; try contradiction; try exact I.
  - destruct sx, sy; exact I.
  - unfold F64.add, SFadd. cbn [cond_Zopp].
    set (a := fst (shl_align mx ex (Z.min ex ey))).
    set (b := fst (shl_align my ey (Z.min ex ey))).
    change (Z.pos a + Z.pos b) with (Z.pos (a + b)).
    unfold binary_normalize, binary_round.
    destruct (shl_align (a + b) _ _) as [mz ez].
    pose proof (binary_round_aux_sign false (Z.pos mz) ez loc_Exact) as H.
    destruct (binary_round_aux F64.prec F64.emax false (Z.pos mz) ez loc_Exact);
      try exact I; subst; exact I.
Qed.

Lemma DistanceFrom_notNegative (p q : geo.Point) : notNegative (geo.DistanceFrom p q).
Proof. apply sqrt_notNegative. Qed.

Lemma Distance_from_notNegative (ps : geo.PointSet) :
  forall sum, notNegative sum -> notNegative (geo.Distance_from sum ps).
Proof.
  induction ps as [|p [|q t] IH]; intros sum Hs; simpl; try exact Hs.
  apply IH. apply add_notNegative; [exact Hs|apply DistanceFrom_notNegative].
Qed.

Lemma Distance_notNegative (ps : geo.PointSet) : notNegative (geo.Distance ps).
Proof. apply Distance_from_notNegative. exact I. Qed.

Lemma not_lt_zero_cases (x y : float64) :
  notNegative x -> notNegative y ->
  F64.ltb F64.zero x = false -> F64.ltb F64.zero y = false ->
  F64.ltb x y = false.
Proof.
  unfold notNegative, F64.zero. intros Hx Hy.
  destruct x as [sx|[]| |[] mx ex]; try contradiction;
    destruct y as [sy|[]| |[] my ey]; try contradiction;
      intros H1 H2; try reflexivity; try discriminate H1; try discriminate H2;
        destruct sx; try destruct sy; try reflexivity.
Qed.

Lemma float_lt_irrefl (x : float64) : F64.ltb x x = false.
Proof. float_order. Qed.

Lemma float_not_lt_trans (x y z : float64) :
  F64.ltb y z = false -> F64.ltb y x = true -> F64.ltb x z = false.
Proof. float_order. Qed.

Lemma float_not_lt_lt (x y z : float64) :
  F64.is_nan z = false ->
  F64.ltb x z = false -> F64.ltb x y = true -> F64.ltb z y = true.
Proof. float_order. Qed.

(** The loop of [getLongestStreetIndex] from position [i] on, with the
    greatest length found so far in [distance], which no street before [i]
    exceeds. *)
Lemma getLongestStreetIndex_from_longest (h : store) (streets : list ptr) :
  forall (pre : list ptr) distance index_,
    F64.is_nan distance = false ->
    (forall p, In p pre -> F64.ltb distance (lengthOf h p) = false) ->
    forall r,
      r = getLongestStreetIndex_from h streets (len pre) distance index_ ->
      exists distance',
        F64.is_nan distance' = false
        /\ (forall p, In p (pre ++ streets) -> F64.ltb distance' (lengthOf h p) = false)
        /\ ((r = index_ /\ distance' = distance)
            \/ (len pre <= r < len (pre ++ streets)
                /\ lengthOf h (at_ (pre ++ streets) r) = distance'
                /\ F64.ltb distance distance' = true
                /\ forall j, 0 <= j < r ->
                             F64.ltb distance' (lengthOf h (at_ (pre ++ streets) j)) = false
                             /\ (F64.is_nan (lengthOf h (at_ (pre ++ streets) j)) = false ->
                                 F64.ltb (lengthOf h (at_ (pre ++ streets) j)) distance'
                                 = true))).
Proof.
  induction streets as [|st t IH]; intros pre distance index_ Hn Hpre r Hr.
  - simpl in Hr. exists distance. rewrite app_nil_r. auto.
  - cbn [getLongestStreetIndex_from] in Hr.
    fold (lengthOf h st) in Hr.
    assert (Hlen : len (pre ++ [st]) = len pre + 1).
    { unfold len. rewrite length_app. simpl. lia. }
    assert (Happ : pre ++ st :: t = (pre ++ [st]) ++ t).
    { rewrite <- app_assoc. reflexivity. }
    destruct (F64.ltb distance (lengthOf h st)) eqn:E.
    + rewrite <- Hlen in Hr.
      assert (Hn' : F64.is_nan (lengthOf h st) = false).
      { revert E. generalize (lengthOf h st). intros y. float_order. }
      assert (Hpre' : forall p, In p (pre ++ [st]) ->
                                F64.ltb (lengthOf h st) (lengthOf h p) = false).
      { intros p Hp. apply in_app_or in Hp. destruct Hp as [Hp|[<-|[]]].
        - eapply float_not_lt_trans; [apply Hpre; exact Hp|exact E].
        - apply float_lt_irrefl. }
      destruct (IH (pre ++ [st]) (lengthOf h st) (len pre) Hn' Hpre' r Hr)
        as [d' [Hd1 [Hd2 Hd3]]].
      exists d'. split; [exact Hd1|]. rewrite Happ. split; [exact Hd2|].
      right. destruct Hd3 as [[-> ->]|[Hr1 [Hr2 [Hr3 Hr4]]]].
      * assert (Hat : at_ ((pre ++ [st]) ++ t) (len pre) = st).
        { unfold at_, len. rewrite Nat2Z.id, <- app_assoc. simpl.
          rewrite nth_middle. reflexivity. }
        split; [unfold len in *; rewrite !length_app in *; simpl in *; lia|].
        split; [rewrite Hat; reflexivity|]. split; [exact E|].
        intros j Hj.
        assert (Hj' : In (at_ ((pre ++ [st]) ++ t) j) pre).
        { unfold at_, len in *. rewrite <- app_assoc, app_nth1 by lia.
          apply nth_In. lia. }
        split.
        { apply Hpre'. apply in_or_app. left. exact Hj'. }
        intros Hnj. exact (float_not_lt_lt _ _ _ Hnj (Hpre _ Hj') E).
      * split; [lia|]. split; [exact Hr2|]. split; [|exact Hr4].
        revert E Hr3. generalize (lengthOf h st). intros y. clear. float_order.
    + rewrite <- Hlen in Hr.
      assert (Hpre' : forall p, In p (pre ++ [st]) -> F64.ltb distance (lengthOf h p) = false).
      { intros p Hp. apply in_app_or in Hp. destruct Hp as [Hp|[<-|[]]]; auto. }
      destruct (IH (pre ++ [st]) distance index_ Hn Hpre' r Hr)
        as [d' [Hd1 [Hd2 Hd3]]].
      exists d'. split; [exact Hd1|]. rewrite Happ. split; [exact Hd2|].
      destruct Hd3 as [Hd3|[Hr1 Hr2]]; [left; exact Hd3|right].
      split; [lia|exact Hr2].
Qed.

(** [getLongestStreetIndex] returns the position of a longest street: no
    street of the slice is longer than the one at the position returned, and
    every street before it whose length is a number is shorter.  On an empty
    slice it returns 0. *)
Theorem getLongestStreetIndex_longest (h : store) (streets : list ptr) (j : Z) :
  getLongestStreetIndex h [] = 0
  /\ (0 <= j < len streets ->
      0 <= getLongestStreetIndex h streets < len streets
      /\ F64.ltb (lengthOf h (at_ streets (getLongestStreetIndex h streets)))
                 (lengthOf h (at_ streets j)) = false
      /\ (j < getLongestStreetIndex h streets ->
          F64.is_nan (lengthOf h (at_ streets j)) = false ->
          F64.ltb (lengthOf h (at_ streets j))
                  (lengthOf h (at_ streets (getLongestStreetIndex h streets))) = true)).
Proof.
  split; [reflexivity|]. intros Hj.
  pose proof (getLongestStreetIndex_range h streets ltac:(lia)) as Hr.
  split; [exact Hr|].
  destruct (getLongestStreetIndex_from_longest h streets [] F64.zero 0 eq_refl
              ltac:(intros p []) (getLongestStreetIndex h streets) eq_refl)
    as [d' [Hd1 [Hd2 Hd3]]].
  simpl app in *.
  assert (Hinj : In (at_ streets j) streets).
  { unfold at_, len in *. apply nth_In. lia. }
  destruct Hd3 as [[Hr0 ->]|[_ [Hr2 [_ Hr4]]]].
  - rewrite Hr0. split; [|lia].
    assert (Hin0 : In (at_ streets 0) streets).
    { unfold at_, len in *. apply nth_In. simpl. lia. }
    apply not_lt_zero_cases; try apply Distance_notNegative; apply Hd2; assumption.
  - rewrite Hr2. split; [apply Hd2; exact Hinj|].
    intros Hlt Hnan. apply Hr4; [lia|exact Hnan].
Qed.

Lemma getLongestStreetIndex_longest_witness :
  0 <= getLongestStreetIndex alley_and_street [0%nat; 1%nat] < len [0%nat; 1%nat]
  /\ getLongestStreetIndex alley_and_street [0%nat; 1%nat] = 1.
Proof.
  split; [|vm_compute; reflexivity].
  apply (proj2 (getLongestStreetIndex_longest alley_and_street [0%nat; 1%nat] 0)).
  unfold len. simpl. lia.
Defined.

Lemma mul_comm (x y : float64) : F64.mul x y = F64.mul y x.
Proof.
  unfold F64.mul, SFmul.
  destruct x as [sx|sx| |sx mx ex]; destruct y as [sy|sy| |sy my ey];
    try reflexivity; try (rewrite xorb_comm; reflexivity).
  rewrite xorb_comm, Pos.mul_comm, Z.add_comm. reflexivity.
Qed.

(** The direction test does not depend on which of the two paths is taken
    first: the cosine of the angle between two vectors is computed to the
    same float64 in either order. *)
Theorem isTwoPathsSameDirection_symmetric (a b : Vector) :
  cosBetween2Vectors a b = cosBetween2Vectors b a
  /\ isTwoPathsSameDirection a b = isTwoPathsSameDirection b a.
Proof.
  assert (H : cosBetween2Vectors a b = cosBetween2Vectors b a).
  { unfold cosBetween2Vectors.
    rewrite (mul_comm (dX a) (dX b)), (mul_comm (dY a) (dY b)).
    rewrite (mul_comm (F64.sqrt (F64.add (F64.mul (dX a) (dX a)) (F64.mul (dY a) (dY a))))).
    reflexivity. }
  split; [exact H|]. unfold isTwoPathsSameDirection. rewrite H. reflexivity.
Qed.

(** ** What a merge does to the paths *)

Lemma update_length (h : store) : forall p f, List.length (update h p f) = List.length h.
Proof. induction h as [|s t IH]; intros [|p] f; simpl; auto. Qed.

Lemma deref_update (h : store) :
  forall p q f,
    deref (update h p f) q
    = if Nat.eqb q p && Nat.ltb p (List.length h) then f (deref h q) else deref h q.
Proof.
  unfold deref. induction h as [|s t IH]; intros p q f.
  - simpl. rewrite andb_false_r. destruct p; reflexivity.
  - destruct p as [|p], q as [|q]; simpl; try reflexivity.
    rewrite IH. reflexivity.
Qed.

Lemma PathOf_update (h : store) (p q : ptr) (g : geo.PointSet -> geo.PointSet) :
  PathOf (update h p (fun s => set_Path (g (Path s)) s)) q
  = if Nat.eqb q p && Nat.ltb p (List.length h) then g (PathOf h q) else PathOf h q.
Proof.
  unfold PathOf. rewrite deref_update.
  destruct (Nat.eqb q p && Nat.ltb p (List.length h)); reflexivity.
Qed.

Lemma fields_update (h : store) (p q : ptr) (g : geo.PointSet -> geo.PointSet) :
  sameFields (deref (update h p (fun s => set_Path (g (Path s)) s)) q) (deref h q).
Proof.
  rewrite deref_update.
  destruct (Nat.eqb q p && Nat.ltb p (List.length h)); repeat split.
Qed.

Lemma PathOf_reversePath (h : store) (p q : ptr) :
  PathOf (reversePath h p) q
  = if Nat.eqb q p && Nat.ltb p (List.length h) then rev (PathOf h q) else PathOf h q.
Proof. exact (PathOf_update h p q (@rev geo.Point)). Qed.

Lemma PathOf_pushPoints (h : store) (dst src : ptr) (matchIndex : nat) (q : ptr) :
  PathOf (pushPoints h dst src matchIndex) q
  = if Nat.eqb q dst && Nat.ltb dst (List.length h)
    then PathOf h q
         ++ filter (fun point =>
                      negb (geo.Equals point (nth matchIndex (PathOf h dst) geo.origin)))
                   (PathOf h src)
    else PathOf h q.
Proof.
  exact (PathOf_update h dst q
           (fun P => P ++ filter (fun point =>
                                    negb (geo.Equals point
                                            (nth matchIndex (PathOf h dst) geo.origin)))
                                 (PathOf h src))).
Qed.

Lemma reversePath_length (h : store) (p : ptr) :
  List.length (reversePath h p) = List.length h.
Proof. apply update_length. Qed.

Lemma pushPoints_length (h : store) (dst src : ptr) (k : nat) :
  List.length (pushPoints h dst src k) = List.length h.
Proof. apply update_length. Qed.

Lemma nth_last (ps : geo.PointSet) :
  nth (Nat.pred (List.length ps)) ps geo.origin = geo.Last ps.
Proof.
  unfold geo.Last. induction ps as [|p [|q t] IH]; try reflexivity.
  exact IH.
Qed.

Lemma nth_0_rev (ps : geo.PointSet) : nth 0 (rev ps) geo.origin = geo.Last ps.
Proof.
  rewrite <- nth_last. destruct ps as [|p t]; [reflexivity|].
  rewrite rev_nth by (simpl; lia). f_equal. simpl. lia.
Qed.

Lemma filter_rev {A : Type} (f : A -> bool) (l : list A) :
  filter f (rev l) = rev (filter f l).
Proof.
  induction l as [|a l IH]; [reflexivity|]. simpl.
  rewrite filter_app, IH. simpl. destruct (f a); simpl; [reflexivity|].
  rewrite app_nil_r. reflexivity.
Qed.

Lemma PathOf_outside (h : store) (p : ptr) :
  Nat.ltb p (List.length h) = false -> PathOf h p = [].
Proof.
  intros H. apply Nat.ltb_ge in H. unfold PathOf, deref.
  rewrite nth_overflow by exact H. reflexivity.
Qed.

Lemma sameFields_refl (a : street) : sameFields a a.
Proof. repeat split. Qed.

Lemma sameFields_trans (a b c : street) : sameFields a b -> sameFields b c -> sameFields a c.
Proof. unfold sameFields. intros [? [? ?]] [? [? ?]]. repeat split; congruence. Qed.

Lemma reversePath_fields (h : store) (p q : ptr) :
  sameFields (deref (reversePath h p) q) (deref h q).
Proof. apply fields_update. Qed.

Lemma pushPoints_fields (h : store) (dst src : ptr) (k : nat) (q : ptr) :
  sameFields (deref (pushPoints h dst src k) q) (deref h q).
Proof.
  exact (fields_update h dst q
           (fun P => P ++ filter (fun point =>
                                    negb (geo.Equals point
                                            (nth k (PathOf h dst) geo.origin)))
                                 (PathOf h src))).
Qed.

Lemma merge_fields (h : store) (dst src q : ptr) (merge : store -> ptr -> ptr -> store) :
  In merge merges -> sameFields (deref (merge h dst src) q) (deref h q).
Proof.
  intros [<-|[<-|[<-|[<-|[]]]]];
    unfold mergeLastFirst, mergeFirstLast, mergeLastLast, mergeFirstFirst;
    repeat first [ apply pushPoints_fields
                 | apply reversePath_fields
                 | eapply sameFields_trans; [apply reversePath_fields|]
                 | eapply sameFields_trans; [apply pushPoints_fields|] ].
Qed.

Lemma merge_length (h : store) (dst src : ptr) (merge : store -> ptr -> ptr -> store) :
  In merge merges -> List.length (merge h dst src) = List.length h.
Proof.
  intros [<-|[<-|[<-|[<-|[]]]]];
    unfold mergeLastFirst, mergeFirstLast, mergeLastLast, mergeFirstFirst; cbv zeta;
    repeat first [rewrite reversePath_length | rewrite pushPoints_length]; reflexivity.
Qed.

Ltac merge_paths :=
  unfold mergeLastFirst, mergeFirstLast, mergeLastLast, mergeFirstFirst, lastIndex;
  cbv zeta;
  repeat (rewrite ?PathOf_reversePath, ?PathOf_pushPoints,
                  ?reversePath_length, ?pushPoints_length).

(** What a merge does to the paths.  The base keeps its own points, in
    their order; the points of the candidate are put after them (when the join
    is at the last point of the base) or before them (when it is at the first
    point), in the order in which they continue the base.  The points left out
    are those of the candidate that are equal to the LAST point of the base, in
    all four merges: [match] points into the slice of the base, and where the
    base is flipped before the points are pushed, [match], taken from
    [First()], then points at what was the last point.  The path of the
    candidate is as it was, and so is every other street.  The base is a
    street with at least one point. *)
Theorem merge_joins_paths (h : store) (dst src : ptr) :
  dst <> src -> PathOf h dst <> [] ->
  PathOf (mergeLastFirst h dst src) dst
  = PathOf h dst ++ taken (PathOf h dst) (PathOf h src)
  /\ PathOf (mergeFirstLast h dst src) dst
     = taken (PathOf h dst) (PathOf h src) ++ PathOf h dst
  /\ PathOf (mergeLastLast h dst src) dst
     = PathOf h dst ++ taken (PathOf h dst) (rev (PathOf h src))
  /\ PathOf (mergeFirstFirst h dst src) dst
     = taken (PathOf h dst) (rev (PathOf h src)) ++ PathOf h dst
  /\ forall merge q,
       In merge merges ->
       sameFields (deref (merge h dst src) q) (deref h q)
       /\ (q <> dst -> PathOf (merge h dst src) q = PathOf h q).
Proof.
  intros Hne Hp.
  assert (Hd : (dst < List.length h)%nat).
  { destruct (Nat.ltb dst (List.length h)) eqn:Ed; [apply Nat.ltb_lt; exact Ed|].
    contradiction Hp. apply PathOf_outside. exact Ed. }
  assert (Ed : Nat.ltb dst (List.length h) = true) by (apply Nat.ltb_lt; exact Hd).
  assert (Eds : Nat.eqb dst src = false) by (apply Nat.eqb_neq; exact Hne).
  assert (Esd : Nat.eqb src dst = false) by (apply Nat.eqb_neq; congruence).
  unfold taken.
  split; [|split; [|split; [|split]]].
  - merge_paths. rewrite Nat.eqb_refl, Ed. simpl. rewrite nth_last. reflexivity.
  - merge_paths. rewrite ?Nat.eqb_refl, ?Ed, ?Eds, ?Esd. simpl.
    rewrite nth_0_rev, rev_app_distr, rev_involutive.
    destruct (Nat.ltb src (List.length h)) eqn:Es.
    + rewrite filter_rev, rev_involutive. reflexivity.
    + rewrite (PathOf_outside h src Es). reflexivity.
  - merge_paths. rewrite ?Nat.eqb_refl, ?Ed, ?Eds, ?Esd. simpl.
    rewrite nth_last.
    destruct (Nat.ltb src (List.length h)) eqn:Es; [reflexivity|].
    rewrite (PathOf_outside h src Es). reflexivity.
  - merge_paths. rewrite ?Nat.eqb_refl, ?Ed, ?Eds, ?Esd. simpl.
    rewrite nth_0_rev, rev_app_distr, rev_involutive, filter_rev. reflexivity.
  - intros merge q Hm. split; [apply merge_fields; exact Hm|].
    intros Hq.
    assert (Eq : Nat.eqb q dst = false) by (apply Nat.eqb_neq; exact Hq).
    destruct Hm as [<-|[<-|[<-|[<-|[]]]]]; merge_paths;
      rewrite ?Eq, ?Eds, ?Esd, ?Nat.eqb_refl, ?Ed; simpl;
        repeat match goal with
               | |- context [if ?c then _ else _] => destruct c
               end; rewrite ?rev_involutive; reflexivity.
Qed.

Lemma merge_joins_paths_witness :
  PathOf (mergeFirstLast two_far_apart 0%nat 1%nat) 0%nat
  = taken (PathOf two_far_apart 0%nat) (PathOf two_far_apart 1%nat)
    ++ PathOf two_far_apart 0%nat.
Proof.
  apply (merge_joins_paths two_far_apart 0%nat 1%nat); [discriminate|vm_compute; discriminate].
Defined.

(** ** The streets that are returned *)

Lemma filter_incl_of {A : Type} (f : A -> bool) (X S : list A) :
  incl X S -> incl (filter f X) S.
Proof. intros H x Hx. apply filter_In in Hx. apply H, Hx. Qed.

Lemma incl_rev_l {A : Type} (X S : list A) : incl X S -> incl (rev X) S.
Proof. intros H x Hx. apply in_rev in Hx. apply H, Hx. Qed.

Ltac grown :=
  rewrite ?rev_app_distr, ?rev_involutive;
  first
    [ exists [], []; split; [rewrite app_nil_r; reflexivity|apply incl_nil_l]
    | eexists [], _; split;
      [reflexivity
      |simpl; repeat first [apply filter_incl_of | apply incl_rev_l | apply incl_refl]]
    | eexists _, []; split;
      [rewrite app_nil_r; reflexivity
      |rewrite app_nil_r;
       repeat first [apply filter_incl_of | apply incl_rev_l | apply incl_refl]] ].

(** Whatever the two pointers are, a merge leaves the points of every street
    in place and puts only points of the candidate around them. *)
Lemma merge_grows (h : store) (dst src q : ptr) (merge : store -> ptr -> ptr -> store) :
  In merge merges ->
  exists A B, PathOf (merge h dst src) q = A ++ PathOf h q ++ B
              /\ incl (A ++ B) (PathOf h src).
Proof.
  intros Hm.
  destruct (Nat.ltb dst (List.length h)) eqn:Ed;
    destruct (Nat.ltb src (List.length h)) eqn:Es;
    destruct (Nat.eq_dec q dst) as [->|Hq];
    destruct (Nat.eq_dec dst src) as [Hds|Hds]; try subst src;
    try (destruct (Nat.eq_dec q src) as [->|Hqs]);
    repeat match goal with
           | H : ?a <> ?b |- _ =>
             let E := fresh "E" in
             assert (E : Nat.eqb a b = false) by (apply Nat.eqb_neq; exact H);
             let E' := fresh "E" in
             assert (E' : Nat.eqb b a = false) by (apply Nat.eqb_neq; congruence);
             clear H
           end;
    destruct Hm as [<-|[<-|[<-|[<-|[]]]]]; merge_paths;
      repeat match goal with
             | H : _ = _ |- _ => rewrite H
             end;
      rewrite ?Nat.eqb_refl; simpl; grown.
Qed.

Lemma In_pointsOf (h : store) (x : geo.Point) :
  In x (pointsOf h) <-> exists p, In x (PathOf h p).
Proof.
  unfold pointsOf, PathOf, deref. split.
  - intros H. apply in_concat in H. destruct H as [ps [Hps Hx]].
    apply in_map_iff in Hps. destruct Hps as [s [<- Hs]].
    apply (In_nth _ _ nil_street) in Hs. destruct Hs as [p [_ Hp]].
    exists p. rewrite Hp. exact Hx.
  - intros [p Hx].
    destruct (Nat.lt_ge_cases p (List.length h)) as [Hp|Hp].
    + apply in_concat. exists (Path (nth p h nil_street)). split; [|exact Hx].
      apply in_map, nth_In, Hp.
    + rewrite nth_overflow in Hx by exact Hp. destruct Hx.
Qed.

Lemma extends_refl (h : store) : extends h h.
Proof.
  split; [reflexivity|]. intros p. split; [apply sameFields_refl|]. split.
  - exists [], []. rewrite app_nil_r. reflexivity.
  - intros x Hx. apply In_pointsOf. exists p. exact Hx.
Qed.

Lemma extends_merge (h0 h : store) (dst src : ptr) (merge : store -> ptr -> ptr -> store) :
  In merge merges -> extends h0 h -> extends h0 (merge h dst src).
Proof.
  intros Hm [Hl Hp]. split; [rewrite merge_length by exact Hm; exact Hl|].
  intros p. destruct (Hp p) as [Hf [[pre [post Hpath]] Hin]].
  split; [eapply sameFields_trans; [apply merge_fields; exact Hm|exact Hf]|].
  destruct (merge_grows h dst src p merge Hm) as [A [B [HAB Hincl]]].
  split.
  - exists (A ++ pre), (post ++ B). rewrite HAB, Hpath, <- !app_assoc. reflexivity.
  - rewrite HAB. intros x Hx.
    destruct (Hp src) as [_ [_ Hsrc]].
    apply in_app_or in Hx. destruct Hx as [Hx|Hx].
    + apply Hsrc, Hincl, in_or_app. left. exact Hx.
    + apply in_app_or in Hx. destruct Hx as [Hx|Hx].
      * apply Hin. exact Hx.
      * apply Hsrc, Hincl, in_or_app. right. exact Hx.
Qed.

Section Heaps.

Variable P : store -> Prop.
Hypothesis P_merge :
  forall h dst src merge, In merge merges -> P h -> P (merge h dst src).

Lemma P_mergeLastFirst (h : store) (b c : ptr) : P h -> P (mergeLastFirst h b c).
Proof. apply P_merge. simpl. tauto. Qed.
Lemma P_mergeFirstLast (h : store) (b c : ptr) : P h -> P (mergeFirstLast h b c).
Proof. apply P_merge. simpl. tauto. Qed.
Lemma P_mergeLastLast (h : store) (b c : ptr) : P h -> P (mergeLastLast h b c).
Proof. apply P_merge. simpl. tauto. Qed.
Lemma P_mergeFirstFirst (h : store) (b c : ptr) : P h -> P (mergeFirstFirst h b c).
Proof. apply P_merge. simpl. tauto. Qed.

Ltac heap_done Hh :=
  first [ exact Hh
        | apply P_mergeLastFirst; exact Hh
        | apply P_mergeFirstLast; exact Hh
        | apply P_mergeLastLast; exact Hh
        | apply P_mergeFirstFirst; exact Hh ].

Lemma SameDirection_body_heap (strName : string) (s s' : SameDirection.state) :
  P (SameDirection.heap s) ->
  SameDirection.body strName s = Next s' \/ SameDirection.body strName s = Stop s' ->
  P (SameDirection.heap s').
Proof.
  intros Hh H. unfold SameDirection.body in H. cbv zeta in H.
  destruct H as [H|H];
    repeat match type of H with
           | context [if ?c then _ else _] => destruct c
           | context [match ?x with Some _ => _ | None => _ end] => destruct x
           end; try discriminate H;
      match type of H with
      | SameDirection.refuse ?a ?b ?c = _ =>
        destruct (SameDirection_refuse_heap a b c) as [x [Hx Hy]];
          rewrite Hx in H; try discriminate H; injection H as <-; rewrite Hy; exact Hh
      | SameDirection.finish ?a ?b0 ?c ?d ?e ?f ?g = _ =>
        destruct (SameDirection_finish_heap a b0 c d e f g) as [x [Hx Hy]];
          rewrite Hx in H; try discriminate H; injection H as <-; rewrite Hy; heap_done Hh
      | _ => injection H as <-; exact Hh
      end.
Qed.

Lemma Lane_body_heap (normName : string) (b : ptr) (s s' : Lane.state) :
  P (Lane.heap s) ->
  Lane.body normName b s = Next s' \/ Lane.body normName b s = Stop s' ->
  P (Lane.heap s').
Proof.
  intros Hh H. unfold Lane.body in H. cbv zeta in H.
  destruct H as [H|H];
    repeat match type of H with
           | context [if ?c then _ else _] => destruct c
           end; try discriminate H;
      match type of H with
      | Lane.refuse ?a ?b ?c = _ =>
        destruct (Lane_refuse_heap a b c) as [x [Hx [Hy _]]];
          rewrite Hx in H; try discriminate H; injection H as <-; rewrite Hy; exact Hh
      | Lane.finish ?a ?b0 ?c ?d ?e ?f = _ =>
        destruct (Lane_finish_heap a b0 c d e f) as [x [Hx Hy]];
          rewrite Hx in H; try discriminate H; injection H as <-; rewrite Hy; heap_done Hh
      | _ => injection H as <-; exact Hh
      end.
Qed.

Lemma Final_finish_heap (normName : string) (b : ptr) (strs' : list ptr) (i' : Z)
      (m : smap) (h : store) :
  exists s', Final.finish normName b strs' i' m h = Next s' /\ Final.heap s' = h.
Proof.
  unfold Final.finish. destruct (atEnd strs' i'); eexists; split; reflexivity.
Qed.

Lemma Final_body_heap (normName : string) (b : ptr) (s s' : Final.state) :
  P (Final.heap s) ->
  Final.body normName b s = Next s' \/ Final.body normName b s = Stop s' ->
  P (Final.heap s').
Proof.
  intros Hh H. unfold Final.body in H. cbv zeta in H.
  destruct H as [H|H];
    repeat match type of H with
           | context [if ?c then _ else _] => destruct c
           end; try discriminate H;
      match type of H with
      | Final.refuse ?a ?b ?c = _ =>
        destruct (Final_refuse_heap a b c) as [x [Hx [Hy _]]];
          rewrite Hx in H; try discriminate H; injection H as <-; rewrite Hy; exact Hh
      | Final.finish ?a ?b0 ?c ?d ?e ?f = _ =>
        destruct (Final_finish_heap a b0 c d e f) as [x [Hx Hy]];
          rewrite Hx in H; try discriminate H; injection H as <-; rewrite Hy; heap_done Hh
      | _ => injection H as <-; exact Hh
      end.
Qed.

Lemma SameDirection_run_heap (E : environment) (fuel : nat) (m : smap) (h : store)
      (mh' : smap * store) :
  P h -> SameDirection.run E fuel m h = Done mh' -> P (snd mh').
Proof.
  unfold SameDirection.run. intros Hh H.
  apply (foreach_invariant (fun mh0 : smap * store => P (snd mh0)) (fun _ => True)) in H.
  - exact H.
  - intros kv mh0 mh1 _ Hp Hb. unfold SameDirection.entry in Hb.
    apply rbind_Done in Hb. destruct Hb as [s [Hl Hd]]. injection Hd as <-. simpl.
    apply (loop_invariant (fun s0 => P (SameDirection.heap s0))
                          (SameDirection.body (fst kv))) in Hl.
    + exact Hl.
    + intros s0 s1 Hp0 Hb0. apply (SameDirection_body_heap (fst kv) s0 s1 Hp0). left. exact Hb0.
    + intros s0 s1 Hp0 Hb0. apply (SameDirection_body_heap (fst kv) s0 s1 Hp0). right. exact Hb0.
    + exact Hp.
  - apply Forall_forall. trivial.
  - exact Hh.
Qed.

Lemma Lane_run_heap (E : environment) (fuel : nat) (m : smap) (h : store)
      (mh' : smap * store) :
  P h -> Lane.run E fuel m h = Done mh' -> P (snd mh').
Proof.
  unfold Lane.run. intros Hh H.
  apply (foreach_invariant (fun mh0 : smap * store => P (snd mh0)) (fun _ => True)) in H.
  - exact H.
  - intros kv [m0 h0] mh1 _ Hp Hb. unfold Lane.entry in Hb. simpl in Hp.
    destruct (len _ <? 1); [injection Hb as <-; exact Hp|].
    destruct (len _ =? 1); [injection Hb as <-; exact Hp|].
    apply rbind_Done in Hb. destruct Hb as [s [Hl Hd]]. injection Hd as <-. simpl.
    apply (loop_invariant (fun s0 => P (Lane.heap s0))) in Hl.
    + exact Hl.
    + intros s0 s1 Hp0 Hb0. eapply Lane_body_heap; [exact Hp0|left; exact Hb0].
    + intros s0 s1 Hp0 Hb0. eapply Lane_body_heap; [exact Hp0|right; exact Hb0].
    + exact Hp.
  - apply Forall_forall. trivial.
  - exact Hh.
Qed.

Lemma Final_run_heap (E : environment) (fuel : nat) (m : smap) (h : store)
      (mh' : smap * store) :
  P h -> Final.run E fuel m h = Done mh' -> P (snd mh').
Proof.
  unfold Final.run. intros Hh H.
  apply (foreach_invariant (fun mh0 : smap * store => P (snd mh0)) (fun _ => True)) in H.
  - exact H.
  - intros kv [m0 h0] mh1 _ Hp Hb. unfold Final.entry in Hb. simpl in Hp.
    destruct (len _ <? 1); [injection Hb as <-; exact Hp|].
    destruct (len _ =? 1); [injection Hb as <-; exact Hp|].
    apply rbind_Done in Hb. destruct Hb as [s [Hl Hd]]. injection Hd as <-. simpl.
    apply (loop_invariant (fun s0 => P (Final.heap s0))) in Hl.
    + exact Hl.
    + intros s0 s1 Hp0 Hb0. eapply Final_body_heap; [exact Hp0|left; exact Hb0].
    + intros s0 s1 Hp0 Hb0. eapply Final_body_heap; [exact Hp0|right; exact Hb0].
    + exact Hp.
  - apply Forall_forall. trivial.
  - exact Hh.
Qed.

Lemma joinStreets_stages_heap (E : environment) (fuel : nat) (streets : store) (st : stages) :
  P (snd (normalizeStreets E (seq 0 (List.length streets)) streets)) ->
  joinStreets_stages E fuel streets = Done st ->
  P (snd (mergedStreet st)).
Proof.
  unfold joinStreets_stages.
  destruct (normalizeStreets E (seq 0 (List.length streets)) streets) as [nm h1].
  simpl. intros Hh H.
  apply rbind_Done in H. destruct H as [gd [H1 H]].
  apply rbind_Done in H. destruct H as [gdir [H2 H]].
  apply rbind_Done in H. destruct H as [m5 [H3 H]].
  apply rbind_Done in H. destruct H as [m6 [H4 H]].
  apply rbind_Done in H. destruct H as [m7 [H5 H]].
  injection H as <-. simpl.
  apply (Final_run_heap _ _ _ _ _ (Lane_run_heap _ _ _ _ _
           (SameDirection_run_heap _ _ _ _ _ Hh H3) H4) H5).
Qed.

End Heaps.

Lemma normalizeStreet_step (E : environment) (streets : store) (acc : smap * store) (st : ptr) :
  Name (deref (snd acc) st) = Name (deref streets st) ->
  normalizeStreet E acc st = acc
  \/ normalizeStreet E acc st
     = (append_to (fst acc) (parse E (parserText E streets st)) st,
        update (snd acc) st (set_Name (parse E (parserText E streets st)))).
Proof.
  unfold normalizeStreet, parserText. destruct acc as [m h]. cbn [fst snd]. cbv zeta.
  intros ->.
  generalize (removeAccent (ToLower E (Name (deref streets st)))). intros normName.
  destruct (ignored normName); [left; reflexivity|].
  destruct (String.eqb normName "ngo chu huy man"); [left; reflexivity|].
  destruct (negb (HasPrefix (ToLower E (Name (deref streets st))) duong_with_sign)).
  - destruct (String.eqb (parse E ("duong " ++ normName)%string) "");
      [left; reflexivity|right; reflexivity].
  - destruct (String.eqb (parse E normName) "");
      [left; reflexivity|right; reflexivity].
Qed.

Lemma normalizeStreets_normalized (E : environment) (streets : store) :
  forall (l : list ptr) (acc : smap * store),
    NoDup l ->
    (forall p, In p l -> (p < List.length streets)%nat) ->
    (forall p, In p (pointers (fst acc)) -> ~ In p l) ->
    (forall p, In p l -> Name (deref (snd acc) p) = Name (deref streets p)) ->
    normalizedBy E streets acc ->
    normalizedBy E streets (fold_left (normalizeStreet E) l acc).
Proof.
  induction l as [|st l IH]; intros acc Hnd Hlt Hdis Hname Hinv; simpl; [exact Hinv|].
  inversion Hnd as [|? ? Hst Hnd']; subst.
  destruct (normalizeStreet_step E streets acc st (Hname st (or_introl eq_refl))) as [->| ->].
  - apply IH; auto.
    + intros p Hp. apply Hlt. right. exact Hp.
    + intros p Hp Hin. apply (Hdis p Hp). right. exact Hin.
    + intros p Hp. apply Hname. right. exact Hp.
  - destruct acc as [m h]. cbn [fst snd] in *.
    destruct Hinv as [Hl [Hf Hn]]. cbn [fst snd] in *.
    set (k := parse E (parserText E streets st)) in *.
    assert (Hsub : forall p, In p (pointers (append_to m k st)) -> p = st \/ In p (pointers m)).
    { intros p Hp. apply (incl_pointers_append_to (st :: pointers m)) in Hp.
      - destruct Hp as [<-|Hp]; auto.
      - left. reflexivity.
      - apply incl_tl, incl_refl. }
    apply IH; auto.
    + intros p Hp. apply Hlt. right. exact Hp.
    + cbn [fst]. intros p Hp Hin. destruct (Hsub p Hp) as [->|Hp'].
      * exact (Hst Hin).
      * apply (Hdis p Hp'). right. exact Hin.
    + cbn [snd]. intros p Hp. rewrite deref_update_other.
      * apply Hname. right. exact Hp.
      * intros ->. exact (Hst Hp).
    + split; [|split]; cbn [fst snd].
      * rewrite update_length. exact Hl.
      * intros p. rewrite deref_update.
        destruct (Nat.eqb p st && Nat.ltb st (List.length h)); [|apply Hf].
        destruct (Hf p) as [H1 [H2 H3]]. repeat split; assumption.
      * intros p Hp. destruct (Hsub p Hp) as [->|Hp'].
        { assert (Hs : (st < List.length streets)%nat) by (apply Hlt; left; reflexivity).
          split; [exact Hs|]. rewrite deref_update, Nat.eqb_refl.
          replace (Nat.ltb st (List.length h)) with true
            by (symmetry; apply Nat.ltb_lt; rewrite Hl; exact Hs).
          reflexivity. }
        rewrite deref_update_other.
        { apply Hn. exact Hp'. }
        intros ->. apply (Hdis st Hp'). left. reflexivity.
Qed.

Lemma normalizeStreets_is_normalized (E : environment) (streets : store) :
  normalizedBy E streets (normalizeStreets E (seq 0 (List.length streets)) streets).
Proof.
  unfold normalizeStreets. apply normalizeStreets_normalized.
  - apply seq_NoDup.
  - intros p Hp. apply in_seq in Hp. lia.
  - intros p [].
  - reflexivity.
  - split; [reflexivity|]. split; [auto|]. intros p [].
Qed.

(** Every street [joinStreets] returns is one of the input streets: it has
    the way id and the one-way tag of that street, the name the parser gave
    for it, and a path in which the points of that street stand in their
    order, possibly with points before and after them; and every point of its
    path is a point of an input street.  [joinStreets] makes no street and no
    point of its own. *)
Theorem joinStreets_returns_input_streets
        (E : environment) (fuel : nat) (streets : store) (ret : list street) :
  joinStreets E fuel streets = Done ret ->
  Forall (fun s => exists p, grownFrom E streets s p) ret.
Proof.
  intros H. unfold joinStreets in H.
  apply rbind_Done in H. destruct H as [[ptrs h7] [Hp Hd]]. injection Hd as <-.
  unfold joinStreets_ptrs in Hp.
  apply rbind_Done in Hp. destruct Hp as [st [Hst Hd]]. injection Hd as <- <-.
  pose proof (normalizeStreets_is_normalized E streets) as [Hl [Hf Hn]].
  pose proof (joinStreets_stages_heap
                (extends (snd (normalizeStreets E (seq 0 (List.length streets)) streets)))
                (fun h dst src merge Hm Hh => extends_merge _ h dst src merge Hm Hh)
                E fuel streets st (extends_refl _) Hst) as [Hl7 Hext].
  destruct (joinStreets_stages_pointers E fuel streets st Hst) as [Hnm [I1 [I2 [I3 [I4 I5]]]]].
  apply Forall_forall. intros s Hs. simpl in Hs.
  apply in_map_iff in Hs. destruct Hs as [p [<- Hp]].
  exists p.
  assert (Hin : In p (pointers (fst (normalizeStreets E (seq 0 (List.length streets))
                                                       streets)))).
  { rewrite <- Hnm. apply I1, I2, I3, I4, I5, output_incl with (E := E). exact Hp. }
  destruct (Hn p Hin) as [Hlt Hname].
  destruct (Hext p) as [[F1 [F2 F3]] [[pre [post Hpath]] Hincl]].
  destruct (Hf p) as [G1 [G2 G3]].
  unfold grownFrom. split; [exact Hlt|].
  split; [congruence|]. split; [congruence|]. split; [congruence|].
  split.
  - exists pre, post. unfold PathOf in Hpath. rewrite Hpath, G1. reflexivity.
  - intros x Hx. apply Hincl in Hx. apply In_pointsOf in Hx. destruct Hx as [q Hq].
    apply In_pointsOf. exists q. unfold PathOf in *.
    destruct (Hf q) as [Gq _]. rewrite <- Gq. exact Hq.
Qed.

Lemma joinStreets_returns_input_streets_witness :
  exists ret,
    joinStreets plain_environment 40 base_crossing_link = Done ret
    /\ Forall (fun s => exists p, grownFrom plain_environment base_crossing_link s p) ret.
Proof.
  destruct (joinStreets plain_environment 40 base_crossing_link) as [ret| |] eqn:Hr;
    [|vm_compute in Hr; discriminate Hr|vm_compute in Hr; discriminate Hr].
  exists ret. split; [reflexivity|].
  exact (joinStreets_returns_input_streets plain_environment 40 base_crossing_link ret Hr).
Defined.

(** ** Progress of the scans *)

Lemma loop_measure {S : Type} (body : S -> flow S) (I : S -> Prop) (mu : S -> Z) :
  (forall s, I s -> 0 <= mu s) ->
  (forall s, I s -> body s = Stop s \/ exists s', body s = Next s' /\ I s' /\ mu s' < mu s) ->
  forall n s, I s -> mu s < Z.of_nat n ->
              exists s', I s' /\ body s' = Stop s'
                         /\ forall fuel, mu s < Z.of_nat fuel -> loop body fuel s = Done s'.
Proof.
  intros Hpos Hstep. induction n as [|n IH]; intros s Hi Hm.
  - specialize (Hpos s Hi). lia.
  - destruct (Hstep s Hi) as [Hs|[s1 [Hn [Hi1 Hm1]]]].
    + exists s. split; [exact Hi|]. split; [exact Hs|].
      intros fuel Hf. specialize (Hpos s Hi).
      destruct fuel as [|f]; [simpl in Hf; lia|]. simpl. rewrite Hs. reflexivity.
    + destruct (IH s1 Hi1 ltac:(lia)) as [s' [Hi' [Hs' Hl]]].
      exists s'. split; [exact Hi'|]. split; [exact Hs'|].
      intros fuel Hf. specialize (Hpos s Hi).
      destruct fuel as [|f]; [simpl in Hf; lia|]. simpl. rewrite Hn.
      apply Hl. lia.
Qed.

Lemma scan_step_decreases (strs : list ptr) (i : Z) (strs' : list ptr) (i' : Z) :
  0 <= i <= len strs -> scan_step strs i strs' i' ->
  scan_measure strs' i' < scan_measure strs i.
Proof.
  unfold scan_step, scan_measure. intros Hi [Hi' [Hl|[Hl ->]]].
  - pose proof (len_nonneg strs'). nia.
  - rewrite Hl. lia.
Qed.

Lemma scan_measure_nonneg (strs : list ptr) (i : Z) :
  0 <= i <= len strs -> 0 <= scan_measure strs i.
Proof. unfold scan_measure. intros H. nia. Qed.

Lemma removeStreet_len_cases (s : list ptr) (i : Z) :
  (0 <= i < len s /\ len (removeStreet s i) = len s - 1)
  \/ ((i < 0 \/ len s <= i) /\ removeStreet s i = s).
Proof.
  destruct (Z_lt_ge_dec i 0) as [H|H].
  - right. split; [lia|]. apply removeStreet_from_outside. lia.
  - destruct (Z_lt_ge_dec i (len s)) as [H1|H1].
    + left. split; [lia|]. apply removeStreet_length. lia.
    + right. split; [lia|]. apply removeStreet_from_outside. lia.
Qed.

Ltac lens :=
  repeat match goal with
         | |- context [len (removeStreet ?s ?i)] =>
           lazymatch goal with
           | H : len (removeStreet s i) = _ |- _ => fail
           | H : removeStreet s i = _ |- _ => fail
           | _ => let H := fresh "Hrs" in
                  destruct (removeStreet_len_cases s i) as [[? H]|[? H]];
                  [|try rewrite H in *]
           end
         end;
  repeat match goal with
         | |- context [len ?s] =>
           lazymatch goal with
           | H : 0 <= len s |- _ => fail
           | _ => pose proof (len_nonneg s)
           end
         end.

Ltac scan_done :=
  unfold scan_step; simpl; boolZ; lens; try lia.

Lemma Direction_atLast_step (strs : list ptr) (i : Z) (strs1 : list ptr) (i1 : Z) :
  0 <= i < len strs ->
  -1 <= i1 <= len strs1 - 1 ->
  (len strs1 < len strs \/ (len strs1 = len strs /\ i1 = i)) ->
  scan_step strs i (fst (Direction.atLast strs1 i1)) (snd (Direction.atLast strs1 i1) + 1).
Proof.
  intros Hi Hi1 Hl. unfold Direction.atLast.
  destruct (i1 =? len strs1 - 1) eqn:E; scan_done.
Qed.

Lemma Direction_body_step (h : store) (groupStreetName : string) (s : Direction.state) :
  Direction_scan s ->
  Direction.body h groupStreetName s = Stop s
  \/ exists s', Direction.body h groupStreetName s = Next s'
                /\ Direction_scan s'
                /\ scan_step (Direction.strs s) (Direction.i s)
                             (Direction.strs s') (Direction.i s').
Proof.
  intros [Hi Hb]. unfold Direction.body.
  destruct (Direction.i s <? len (Direction.strs s)) eqn:Ei; [right|left; reflexivity].
  boolZ.
  assert (Hbase : exists b bv,
             (if Direction.i s =? 0
              then (Some (at_ (Direction.strs s) 0),
                    Some (createPathVector
                            (geo.First (PathOf h (at_ (Direction.strs s) 0)))
                            (geo.Last (PathOf h (at_ (Direction.strs s) 0)))))
              else (Direction.baseStreet s, Direction.baseVector s))
             = (Some b, Some bv)).
  { destruct (Direction.i s =? 0) eqn:E0; [eauto|]. boolZ.
    destruct (Hb E0) as [H1 H2].
    destruct (Direction.baseStreet s) as [b|]; [|congruence].
    destruct (Direction.baseVector s) as [bv|]; [|congruence]. eauto. }
  destruct Hbase as [b [bv ->]].
  assert (Hset : forall s' : Direction.state,
             Direction.baseStreet s' = Some b -> Direction.baseVector s' = Some bv ->
             0 <= Direction.i s' <= len (Direction.strs s') -> Direction_scan s').
  { intros s' H1 H2 H3. split; [exact H3|]. intros _. rewrite H1, H2. split; discriminate. }
  destruct (String.eqb _ "yes").
  - destruct (len (Direction.strs s) <=? 1) eqn:E1;
      [|destruct (Direction.i s =? 0) eqn:E0].
    + eexists. split; [reflexivity|]. split; [apply Hset; simpl; auto; lia|scan_done].
    + eexists. split; [reflexivity|]. split; [apply Hset; simpl; auto; lia|scan_done].
    + boolZ.
      match goal with
      | |- context [let '(_, _) := (if ?c then _ else _) in _] => destruct c
      end.
      * pose proof (Direction_atLast_step (Direction.strs s) (Direction.i s)
                      (removeStreet (Direction.strs s) (Direction.i s)) (Direction.i s - 1)
                      ltac:(lia)) as Hst.
        destruct (Direction.atLast (removeStreet (Direction.strs s) (Direction.i s))
                                   (Direction.i s - 1)) as [strs2 i2].
        simpl in Hst.
        assert (Hst' : scan_step (Direction.strs s) (Direction.i s) strs2 (i2 + 1)).
        { apply Hst; lens; lia. }
        eexists. split; [reflexivity|]. split; [|exact Hst'].
        apply Hset; simpl; auto. apply Hst'.
      * pose proof (Direction_atLast_step (Direction.strs s) (Direction.i s)
                      (Direction.strs s) (Direction.i s) ltac:(lia) ltac:(lia)
                      ltac:(right; lia)) as Hst.
        destruct (Direction.atLast (Direction.strs s) (Direction.i s)) as [strs2 i2].
        simpl in Hst.
        eexists. split; [reflexivity|]. split; [|exact Hst].
        apply Hset; simpl; auto. apply Hst.
  - pose proof (Direction_atLast_step (Direction.strs s) (Direction.i s)
                  (removeStreet (Direction.strs s) (Direction.i s)) (Direction.i s - 1)
                  ltac:(lia)) as Hst.
    destruct (Direction.atLast (removeStreet (Direction.strs s) (Direction.i s))
                               (Direction.i s - 1)) as [strs2 i2].
    simpl in Hst.
    assert (Hst' : scan_step (Direction.strs s) (Direction.i s) strs2 (i2 + 1)).
    { apply Hst; lens; lia. }
    eexists. split; [reflexivity|]. split; [|exact Hst'].
    apply Hset; simpl; auto. apply Hst'.
Qed.

Lemma SameDirection_finish_step (strName : string) (b : ptr) (strs : list ptr) (i : Z)
      (strs' : list ptr) (i' : Z) (normName' : string) (m : smap) (h : store) :
  1 <= i < len strs ->
  -1 <= i' <= len strs' - 1 ->
  (len strs' = len strs - 1 \/ (strs' = strs /\ i' = i)) ->
  exists s', SameDirection.finish strName b strs' i' normName' m h = Next s'
             /\ SameDirection.str1 s' = Some b
             /\ SameDirection.heap s' = h
             /\ scan_step strs i (SameDirection.strs s') (SameDirection.i s').
Proof.
  intros Hi Hi' Hl. unfold SameDirection.finish, atEnd.
  destruct ((i' =? len strs' - 1) || (len strs' <? 1)) eqn:E.
  - eexists. split; [reflexivity|]. split; [reflexivity|]. split; [reflexivity|].
    apply orb_true_iff in E. destruct Hl as [Hl|[-> ->]]; destruct E as [E|E]; scan_done.
  - eexists. split; [reflexivity|]. split; [reflexivity|]. split; [reflexivity|].
    apply orb_false_iff in E. destruct E as [E1 E2].
    destruct Hl as [Hl|[-> ->]]; scan_done.
Qed.

Lemma SameDirection_refuse_step (strName : string) (b : ptr) (s : SameDirection.state) :
  1 <= SameDirection.i s < len (SameDirection.strs s) ->
  exists s', SameDirection.refuse strName b s = Next s'
             /\ SameDirection.str1 s' = Some b
             /\ SameDirection.heap s' = SameDirection.heap s
             /\ scan_step (SameDirection.strs s) (SameDirection.i s)
                          (SameDirection.strs s') (SameDirection.i s').
Proof.
  intros Hi. unfold SameDirection.refuse.
  destruct (SameDirection.i s =? len (SameDirection.strs s) - 1) eqn:E;
    (eexists; split; [reflexivity|]; split; [reflexivity|]; split; [reflexivity|]);
    scan_done.
Qed.

Lemma SameDirection_body_step (strName : string) (s : SameDirection.state) :
  SameDirection_scan s ->
  SameDirection.body strName s = Stop s
  \/ exists s', SameDirection.body strName s = Next s'
                /\ SameDirection_scan s'
                /\ scan_step (SameDirection.strs s) (SameDirection.i s)
                             (SameDirection.strs s') (SameDirection.i s').
Proof.
  intros [Hi Hb]. unfold SameDirection.body.
  destruct (SameDirection.i s <? len (SameDirection.strs s)) eqn:Ei; [right|left; reflexivity].
  boolZ.
  destruct (len (SameDirection.strs s) =? 1) eqn:E1.
  { boolZ. eexists. split; [reflexivity|]. split; [|scan_done].
    split; simpl; lia. }
  destruct (SameDirection.i s =? 0) eqn:E0.
  { boolZ. eexists. split; [reflexivity|]. split; [|scan_done].
    split; simpl; [lia|discriminate]. }
  boolZ.
  destruct (SameDirection.str1 s) as [b|] eqn:Eb; [|exfalso; apply Hb; [lia|reflexivity]].
  cbv zeta.
  assert (Hr : 1 <= SameDirection.i s < len (SameDirection.strs s)) by lia.
  assert (Hfin : forall strs' i' normName' m h,
             -1 <= i' <= len strs' - 1 ->
             (len strs' = len (SameDirection.strs s) - 1
              \/ (strs' = SameDirection.strs s /\ i' = SameDirection.i s)) ->
             exists s', SameDirection.finish strName b strs' i' normName' m h = Next s'
                        /\ SameDirection_scan s'
                        /\ scan_step (SameDirection.strs s) (SameDirection.i s)
                                     (SameDirection.strs s') (SameDirection.i s')).
  { intros strs' i' normName' m h H1 H2.
    destruct (SameDirection_finish_step strName b (SameDirection.strs s) (SameDirection.i s)
                strs' i' normName' m h Hr H1 H2) as [s' [Hn [H3 [_ H4]]]].
    exists s'. split; [exact Hn|]. split; [|exact H4].
    split; [apply H4|]. intros _. rewrite H3. discriminate. }
  assert (Href : exists s', SameDirection.refuse strName b s = Next s'
                            /\ SameDirection_scan s'
                            /\ scan_step (SameDirection.strs s) (SameDirection.i s)
                                         (SameDirection.strs s') (SameDirection.i s')).
  { destruct (SameDirection_refuse_step strName b s Hr) as [s' [Hn [H3 [_ H4]]]].
    exists s'. split; [exact Hn|]. split; [|exact H4].
    split; [apply H4|]. intros _. rewrite H3. discriminate. }
  assert (Hrem : len (removeStreet (SameDirection.strs s) (SameDirection.i s))
                 = len (SameDirection.strs s) - 1) by (apply removeStreet_length; lia).
  repeat match goal with
         | |- context [if ?c then _ else _] => destruct c
         end;
    first [ exact Href
          | apply Hfin; [lia|left; exact Hrem]
          | apply Hfin; [lia|right; split; reflexivity] ].
Qed.

Lemma Lane_finish_step (normName : string) (b : ptr) (strs : list ptr) (i : Z)
      (strs' : list ptr) (i' : Z) (m : smap) (h : store) :
  0 <= i < len strs ->
  -1 <= i' <= len strs' - 1 ->
  (len strs' = len strs - 1 \/ (strs' = strs /\ i' = i)) ->
  exists s', Lane.finish normName b strs' i' m h = Next s'
             /\ scan_step strs i (Lane.strs s') (Lane.i s').
Proof.
  intros Hi Hi' Hl. unfold Lane.finish, atEnd.
  destruct ((i' =? len strs' - 1) || (len strs' <? 1)) eqn:E.
  - eexists. split; [reflexivity|].
    apply orb_true_iff in E. destruct Hl as [Hl|[-> ->]]; destruct E as [E|E]; scan_done.
  - eexists. split; [reflexivity|].
    apply orb_false_iff in E. destruct E as [E1 E2].
    destruct Hl as [Hl|[-> ->]]; scan_done.
Qed.

Lemma Lane_body_step (normName : string) (b : ptr) (s : Lane.state) :
  Lane_scan s ->
  Lane.body normName b s = Stop s
  \/ exists s', Lane.body normName b s = Next s'
                /\ Lane_scan s'
                /\ scan_step (Lane.strs s) (Lane.i s) (Lane.strs s') (Lane.i s').
Proof.
  intros Hi. unfold Lane_scan in Hi. unfold Lane.body.
  destruct (Lane.i s <? len (Lane.strs s)) eqn:Ei; [right|left; reflexivity].
  boolZ. cbv zeta.
  assert (Hr : 0 <= Lane.i s < len (Lane.strs s)) by lia.
  assert (Hfin : forall strs' i' m h,
             -1 <= i' <= len strs' - 1 ->
             (len strs' = len (Lane.strs s) - 1
              \/ (strs' = Lane.strs s /\ i' = Lane.i s)) ->
             exists s', Lane.finish normName b strs' i' m h = Next s'
                        /\ Lane_scan s'
                        /\ scan_step (Lane.strs s) (Lane.i s) (Lane.strs s') (Lane.i s')).
  { intros strs' i' m h H1 H2.
    destruct (Lane_finish_step normName b (Lane.strs s) (Lane.i s) strs' i' m h Hr H1 H2)
      as [s' [Hn H4]].
    exists s'. split; [exact Hn|]. split; [apply H4|exact H4]. }
  assert (Hrem : len (removeStreet (Lane.strs s) (Lane.i s)) = len (Lane.strs s) - 1)
    by (apply removeStreet_length; lia).
  assert (Href : exists s', Lane.refuse normName b s = Next s'
                            /\ Lane_scan s'
                            /\ scan_step (Lane.strs s) (Lane.i s) (Lane.strs s') (Lane.i s')).
  { unfold Lane.refuse. eexists. split; [reflexivity|].
    unfold Lane_scan, scan_step. simpl. lia. }
  repeat match goal with
         | |- context [if ?c then _ else _] => destruct c
         end;
    first [ exact Href
          | apply Hfin; [lia|left; exact Hrem]
          | apply Hfin; [lia|right; split; reflexivity] ].
Qed.

Lemma Final_finish_step (normName : string) (b : ptr) (strs : list ptr) (i : Z)
      (strs' : list ptr) (i' : Z) (m : smap) (h : store) :
  0 <= i < len strs ->
  -1 <= i' <= len strs' - 1 ->
  (len strs' = len strs - 1 \/ (strs' = strs /\ i' = i)) ->
  exists s', Final.finish normName b strs' i' m h = Next s'
             /\ scan_step strs i (Final.strs s') (Final.i s').
Proof.
  intros Hi Hi' Hl. unfold Final.finish, atEnd.
  destruct ((i' =? len strs' - 1) || (len strs' <? 1)) eqn:E.
  - eexists. split; [reflexivity|].
    apply orb_true_iff in E. destruct Hl as [Hl|[-> ->]]; destruct E as [E|E]; scan_done.
  - eexists. split; [reflexivity|].
    apply orb_false_iff in E. destruct E as [E1 E2].
    destruct Hl as [Hl|[-> ->]]; scan_done.
Qed.

Lemma Final_body_step (normName : string) (b : ptr) (s : Final.state) :
  Final_scan s ->
  Final.body normName b s = Stop s
  \/ exists s', Final.body normName b s = Next s'
                /\ Final_scan s'
                /\ scan_step (Final.strs s) (Final.i s) (Final.strs s') (Final.i s').
Proof.
  intros Hi. unfold Final_scan in Hi. unfold Final.body.
  destruct (Final.i s <? len (Final.strs s)) eqn:Ei; [right|left; reflexivity].
  boolZ. cbv zeta.
  assert (Hr : 0 <= Final.i s < len (Final.strs s)) by lia.
  assert (Hfin : forall strs' i' m h,
             -1 <= i' <= len strs' - 1 ->
             (len strs' = len (Final.strs s) - 1
              \/ (strs' = Final.strs s /\ i' = Final.i s)) ->
             exists s', Final.finish normName b strs' i' m h = Next s'
                        /\ Final_scan s'
                        /\ scan_step (Final.strs s) (Final.i s) (Final.strs s') (Final.i s')).
  { intros strs' i' m h H1 H2.
    destruct (Final_finish_step normName b (Final.strs s) (Final.i s) strs' i' m h Hr H1 H2)
      as [s' [Hn H4]].
    exists s'. split; [exact Hn|]. split; [apply H4|exact H4]. }
  assert (Hrem : len (removeStreet (Final.strs s) (Final.i s)) = len (Final.strs s) - 1)
    by (apply removeStreet_length; lia).
  assert (Href : exists s', Final.refuse normName b s = Next s'
                            /\ Final_scan s'
                            /\ scan_step (Final.strs s) (Final.i s) (Final.strs s') (Final.i s')).
  { unfold Final.refuse. eexists. split; [reflexivity|].
    unfold Final_scan, scan_step. simpl. lia. }
  destruct (Nat.eqb b _); [exact Href|].
  match goal with
  | |- context [if ?c then Next ?x else _] => destruct c eqn:Ec
  end.
  { eexists. split; [reflexivity|].
    apply andb_true_iff in Ec. destruct Ec as [_ Ec]. boolZ.
    unfold Final_scan, scan_step. simpl. lia. }
  repeat match goal with
         | |- context [if ?c then _ else _] => destruct c
         end;
    first [ exact Href
          | apply Hfin; [lia|left; exact Hrem]
          | apply Hfin; [lia|right; split; reflexivity] ].
Qed.

(** ** Termination of the scans *)

Lemma scan_bound (strs : list ptr) (fuel : nat) :
  ((List.length strs + 1) * (List.length strs + 3) <= fuel)%nat ->
  scan_measure strs 0 < Z.of_nat fuel.
Proof. unfold scan_measure, len. intros H. nia. Qed.

Lemma Direction_loop_Done (h : store) (groupStreetName : string) (s : Direction.state) :
  Direction_scan s ->
  exists s', Direction.body h groupStreetName s' = Stop s'
             /\ forall fuel,
                  scan_measure (Direction.strs s) (Direction.i s) < Z.of_nat fuel ->
                  loop (Direction.body h groupStreetName) fuel s = Done s'.
Proof.
  intros Hs.
  destruct (loop_measure (Direction.body h groupStreetName) Direction_scan
              (fun s => scan_measure (Direction.strs s) (Direction.i s))) with
      (n := Datatypes.S (Z.to_nat (scan_measure (Direction.strs s) (Direction.i s)))) (s := s)
    as [s' [_ [Hstop Hl]]].
  - intros s0 [H0 _]. apply scan_measure_nonneg. exact H0.
  - intros s0 H0. destruct (Direction_body_step h groupStreetName s0 H0)
      as [Hst|[s1 [Hn [H1 Hstep]]]]; [left; exact Hst|right].
    exists s1. split; [exact Hn|]. split; [exact H1|].
    apply scan_step_decreases; [apply H0|exact Hstep].
  - exact Hs.
  - lia.
  - exists s'. split; [exact Hstop|exact Hl].
Qed.

Lemma SameDirection_loop_Done (strName : string) (s : SameDirection.state) :
  SameDirection_scan s ->
  exists s', SameDirection.body strName s' = Stop s'
             /\ forall fuel,
                  scan_measure (SameDirection.strs s) (SameDirection.i s) < Z.of_nat fuel ->
                  loop (SameDirection.body strName) fuel s = Done s'.
Proof.
  intros Hs.
  destruct (loop_measure (SameDirection.body strName) SameDirection_scan
              (fun s => scan_measure (SameDirection.strs s) (SameDirection.i s))) with
      (n := Datatypes.S (Z.to_nat (scan_measure (SameDirection.strs s) (SameDirection.i s))))
      (s := s)
    as [s' [_ [Hstop Hl]]].
  - intros s0 [H0 _]. apply scan_measure_nonneg. exact H0.
  - intros s0 H0. destruct (SameDirection_body_step strName s0 H0)
      as [Hst|[s1 [Hn [H1 Hstep]]]]; [left; exact Hst|right].
    exists s1. split; [exact Hn|]. split; [exact H1|].
    apply scan_step_decreases; [apply H0|exact Hstep].
  - exact Hs.
  - lia.
  - exists s'. split; [exact Hstop|exact Hl].
Qed.

Lemma Lane_loop_Done (normName : string) (b : ptr) (s : Lane.state) :
  Lane_scan s ->
  exists s', Lane.body normName b s' = Stop s'
             /\ forall fuel,
                  scan_measure (Lane.strs s) (Lane.i s) < Z.of_nat fuel ->
                  loop (Lane.body normName b) fuel s = Done s'.
Proof.
  intros Hs.
  destruct (loop_measure (Lane.body normName b) Lane_scan
              (fun s => scan_measure (Lane.strs s) (Lane.i s))) with
      (n := Datatypes.S (Z.to_nat (scan_measure (Lane.strs s) (Lane.i s)))) (s := s)
    as [s' [_ [Hstop Hl]]].
  - intros s0 H0. apply scan_measure_nonneg. exact H0.
  - intros s0 H0. destruct (Lane_body_step normName b s0 H0)
      as [Hst|[s1 [Hn [H1 Hstep]]]]; [left; exact Hst|right].
    exists s1. split; [exact Hn|]. split; [exact H1|].
    apply scan_step_decreases; [apply H0|exact Hstep].
  - exact Hs.
  - lia.
  - exists s'. split; [exact Hstop|exact Hl].
Qed.

Lemma Final_loop_Done (normName : string) (b : ptr) (s : Final.state) :
  Final_scan s ->
  exists s', Final.body normName b s' = Stop s'
             /\ forall fuel,
                  scan_measure (Final.strs s) (Final.i s) < Z.of_nat fuel ->
                  loop (Final.body normName b) fuel s = Done s'.
Proof.
  intros Hs.
  destruct (loop_measure (Final.body normName b) Final_scan
              (fun s => scan_measure (Final.strs s) (Final.i s))) with
      (n := Datatypes.S (Z.to_nat (scan_measure (Final.strs s) (Final.i s)))) (s := s)
    as [s' [_ [Hstop Hl]]].
  - intros s0 H0. apply scan_measure_nonneg. exact H0.
  - intros s0 H0. destruct (Final_body_step normName b s0 H0)
      as [Hst|[s1 [Hn [H1 Hstep]]]]; [left; exact Hst|right].
    exists s1. split; [exact Hn|]. split; [exact H1|].
    apply scan_step_decreases; [apply H0|exact Hstep].
  - exact Hs.
  - lia.
  - exists s'. split; [exact Hstop|exact Hl].
Qed.

Lemma Proximity_loop_Done (E : environment) (h : store) (s : Proximity.state) :
  0 <= Proximity.i s <= len (Proximity.strs s) ->
  exists s', forall fuel,
      proximity_measure s < Z.of_nat fuel ->
      loop (Proximity.body E h) fuel s = Done s'.
Proof.
  intros Hs.
  destruct (loop_measure (Proximity.body E h)
              (fun s => 0 <= Proximity.i s <= len (Proximity.strs s))
              proximity_measure) with
      (n := Datatypes.S (Z.to_nat (proximity_measure s))) (s := s)
    as [s' [_ [_ Hl]]].
  - intros s0 H0. unfold proximity_measure. pose proof (len_nonneg (Proximity.strs s0)). nia.
  - intros s0 H0.
    destruct (Z.eq_dec (Proximity.i s0) (len (Proximity.strs s0))) as [He|Hne].
    + left. unfold Proximity.body. rewrite He, Z.ltb_irrefl. reflexivity.
    + right. assert (Hr : 0 <= Proximity.i s0 < len (Proximity.strs s0)) by lia.
      destruct (proximity_body_step E h s0 Hr) as [s1 [Hb Hst]].
      destruct (proximity_step_decreases s0 s1 Hr Hst) as [Hi' Hm'].
      exists s1. split; [exact Hb|]. split; [exact Hi'|lia].
  - exact Hs.
  - lia.
  - exists s'. exact Hl.
Qed.

(** The direction loop of [joinStreets] (lines 270-354) ends for every
    bucket of streets with at least one point each: within [(n+1)*(n+3)]
    iterations for a bucket of [n] streets, and with the whole bucket
    scanned. *)
Theorem Direction_loop_terminates
        (h : store) (groupStreetName : string) (strs0 : list ptr) (m : smap) (fuel : nat) :
  withPoints h strs0 ->
  ((List.length strs0 + 1) * (List.length strs0 + 3) <= fuel)%nat ->
  exists s',
    loop (Direction.body h groupStreetName) fuel (Direction.init groupStreetName strs0 m)
    = Done s'
    /\ len (Direction.strs s') <= Direction.i s'.
Proof.
  intros _ Hf.
  destruct (Direction_loop_Done h groupStreetName (Direction.init groupStreetName strs0 m))
    as [s' [Hstop Hl]].
  { split; simpl; [pose proof (len_nonneg strs0); lia|]. intros H. contradiction. }
  exists s'. split; [apply Hl; simpl; apply scan_bound; exact Hf|].
  unfold Direction.body in Hstop.
  destruct (Direction.i s' <? len (Direction.strs s')) eqn:E; [|boolZ; lia].
  exfalso. revert Hstop.
  repeat match goal with
         | |- context [if ?c then _ else _] => destruct c
         | |- context [match ?x with Some _ => _ | None => _ end] => destruct x
         | |- context [let '(_, _) := ?x in _] => destruct x
         end; discriminate.
Qed.

Lemma Direction_loop_terminates_witness :
  exists s',
    loop (Direction.body loop_and_line "x__1") 15 (Direction.init "x__1" [0%nat; 1%nat] [])
    = Done s'
    /\ len (Direction.strs s') <= Direction.i s'.
Proof.
  apply (Direction_loop_terminates loop_and_line "x__1" [0%nat; 1%nat] [] 15).
  - repeat constructor; vm_compute; discriminate.
  - simpl. lia.
Defined.

(** ** Termination of the stages *)

(** The loops of the three merge functions end.  In
    [mergeStreetSameDirection] the loop over a bucket, in
    [mergeLaneSameDirection] and in [mergeStreet] the loop over the candidates
    of a base: for [n] streets with at least one point each, [(n+1)*(n+3)]
    iterations are enough, the loop ends at its test, and in
    [mergeStreetSameDirection] the base is not read before it is set. *)
Theorem merge_loops_terminate
        (name : string) (baseStreet : ptr) (strs : list ptr) (m : smap) (h : store)
        (fuel : nat) :
  withPoints h (baseStreet :: strs) ->
  ((List.length strs + 1) * (List.length strs + 3) <= fuel)%nat ->
  (exists s',
      loop (SameDirection.body name) fuel (SameDirection.init name strs m h) = Done s'
      /\ SameDirection.body name s' = Stop s')
  /\ (exists s',
         loop (Lane.body name baseStreet) fuel
              {| Lane.strs := strs; Lane.i := 0; Lane.mergedStreetMap := m; Lane.heap := h |}
         = Done s'
         /\ Lane.body name baseStreet s' = Stop s')
  /\ (exists s',
         loop (Final.body name baseStreet) fuel
              {| Final.strs := strs; Final.i := 0; Final.mergedStreetMap := m;
                 Final.heap := h |}
         = Done s'
         /\ Final.body name baseStreet s' = Stop s').
Proof.
  intros _ Hf. split; [|split].
  - destruct (SameDirection_loop_Done name (SameDirection.init name strs m h))
      as [s' [Hstop Hl]].
    { split; simpl; [pose proof (len_nonneg strs); lia|lia]. }
    exists s'. split; [apply Hl; simpl; apply scan_bound; exact Hf|exact Hstop].
  - destruct (Lane_loop_Done name baseStreet
                {| Lane.strs := strs; Lane.i := 0; Lane.mergedStreetMap := m; Lane.heap := h |})
      as [s' [Hstop Hl]].
    { unfold Lane_scan. simpl. pose proof (len_nonneg strs). lia. }
    exists s'. split; [apply Hl; simpl; apply scan_bound; exact Hf|exact Hstop].
  - destruct (Final_loop_Done name baseStreet
                {| Final.strs := strs; Final.i := 0; Final.mergedStreetMap := m;
                   Final.heap := h |})
      as [s' [Hstop Hl]].
    { unfold Final_scan. simpl. pose proof (len_nonneg strs). lia. }
    exists s'. split; [apply Hl; simpl; apply scan_bound; exact Hf|exact Hstop].
Qed.

Lemma merge_loops_terminate_witness :
  (exists s',
      loop (SameDirection.body "x__1") 24
           (SameDirection.init "x__1" [1%nat; 2%nat] [] base_crossing_link) = Done s'
      /\ SameDirection.body "x__1" s' = Stop s')
  /\ (exists s',
         loop (Lane.body "x__1" 0%nat) 24
              {| Lane.strs := [1%nat; 2%nat]; Lane.i := 0; Lane.mergedStreetMap := [];
                 Lane.heap := base_crossing_link |} = Done s'
         /\ Lane.body "x__1" 0%nat s' = Stop s')
  /\ (exists s',
         loop (Final.body "x__1" 0%nat) 24
              {| Final.strs := [1%nat; 2%nat]; Final.i := 0; Final.mergedStreetMap := [];
                 Final.heap := base_crossing_link |} = Done s'
         /\ Final.body "x__1" 0%nat s' = Stop s').
Proof.
  apply (merge_loops_terminate "x__1" 0%nat [1%nat; 2%nat] [] base_crossing_link 24).
  - repeat constructor; vm_compute; discriminate.
  - simpl. lia.
Defined.

Lemma settles_Done {A : Type} (a : A) : settles (fun _ => Done a) a.
Proof. exists 0%nat. reflexivity. Qed.

Lemma settles_rbind {A B : Type} (f : nat -> result A) (g : nat -> A -> result B)
      (a : A) (b : B) :
  settles f a -> settles (fun fuel => g fuel a) b ->
  settles (fun fuel => rbind (f fuel) (g fuel)) b.
Proof.
  intros [F1 H1] [F2 H2]. exists (Nat.max F1 F2). intros fuel Hf.
  rewrite H1 by lia. simpl. apply H2. lia.
Qed.

Lemma settles_foreach {A S : Type} (body : nat -> A -> S -> result S) (R : A -> Prop)
      (l : list A) :
  (forall a s, R a -> exists r, settles (fun fuel => body fuel a s) r) ->
  Forall R l ->
  forall s, exists r, settles (fun fuel => foreach (body fuel) l s) r.
Proof.
  intros Hb. induction 1 as [|a l Ha _ IH]; intros s.
  - exists s. apply settles_Done.
  - destruct (Hb a s Ha) as [r1 H1]. destruct (IH r1) as [r2 H2].
    exists r2. simpl.
    exact (settles_rbind (fun fuel => body fuel a s) (fun fuel => foreach (body fuel) l)
                         r1 r2 H1 H2).
Qed.

Lemma settles_loop {S A : Type} (body : S -> flow S) (s s' : S) (mu : Z) (k : S -> A) :
  (forall fuel, mu < Z.of_nat fuel -> loop body fuel s = Done s') ->
  settles (fun fuel => rbind (loop body fuel s) (fun x => Done (k x))) (k s').
Proof.
  intros H. exists (Datatypes.S (Z.to_nat mu)). intros fuel Hf.
  rewrite H by lia. reflexivity.
Qed.

Lemma Proximity_entry_settles (E : environment) (h : store) (kv : string * list ptr)
      (m : smap) :
  snd kv <> [] ->
  exists r, settles (fun fuel => Proximity.entry E h fuel kv m) r.
Proof.
  intros Hne. unfold Proximity.entry.
  pose proof (proj1 (sortStreetsDescLength_permutes h (snd kv))) as Hp.
  destruct (sortStreetsDescLength h (snd kv)) as [|x t] eqn:Es.
  { apply Permutation_nil in Hp. contradiction. }
  destruct (Proximity_loop_Done E h (Proximity.init E h (x :: t) m)) as [s' Hl].
  { simpl. pose proof (len_nonneg (x :: t)). lia. }
  eexists. eapply settles_loop. exact Hl.
Qed.

Lemma Direction_entry_settles (h : store) (kv : string * list ptr) (m : smap) :
  exists r, settles (fun fuel => Direction.entry h fuel kv m) r.
Proof.
  unfold Direction.entry.
  destruct (Direction_loop_Done h (fst kv)
              (Direction.init (fst kv) (sortStreetsDescLength h (snd kv)) m)) as [s' [_ Hl]].
  { split; simpl; [pose proof (len_nonneg (sortStreetsDescLength h (snd kv))); lia|].
    intros H. contradiction. }
  eexists. eapply settles_loop. exact Hl.
Qed.

Lemma SameDirection_entry_settles (kv : string * list ptr) (mh : smap * store) :
  exists r, settles (fun fuel => SameDirection.entry fuel kv mh) r.
Proof.
  unfold SameDirection.entry.
  destruct (SameDirection_loop_Done (fst kv)
              (SameDirection.init (fst kv) (sortStreetsDescLength (snd mh) (snd kv))
                                  (fst mh) (snd mh))) as [s' [_ Hl]].
  { split; simpl; [pose proof (len_nonneg (sortStreetsDescLength (snd mh) (snd kv))); lia|].
    lia. }
  eexists. eapply settles_loop. exact Hl.
Qed.

Lemma Lane_entry_settles (kv : string * list ptr) (mh : smap * store) :
  exists r, settles (fun fuel => Lane.entry fuel kv mh) r.
Proof.
  unfold Lane.entry. destruct mh as [m h].
  destruct (len _ <? 1); [eexists; apply settles_Done|].
  destruct (len _ =? 1); [eexists; apply settles_Done|].
  match goal with
  | |- context [loop (Lane.body ?n ?b) _ ?s] =>
    destruct (Lane_loop_Done n b s) as [s' [_ Hl]]
  end.
  { unfold Lane_scan. simpl.
    match goal with |- 0 <= 0 <= len ?l => pose proof (len_nonneg l) end. lia. }
  eexists. eapply settles_loop. exact Hl.
Qed.

Lemma Final_entry_settles (kv : string * list ptr) (mh : smap * store) :
  exists r, settles (fun fuel => Final.entry fuel kv mh) r.
Proof.
  unfold Final.entry. destruct mh as [m h].
  destruct (len _ <? 1); [eexists; apply settles_Done|].
  destruct (len _ =? 1); [eexists; apply settles_Done|].
  match goal with
  | |- context [loop (Final.body ?n ?b) _ ?s] =>
    destruct (Final_loop_Done n b s) as [s' [_ Hl]]
  end.
  { unfold Final_scan. simpl.
    match goal with |- 0 <= 0 <= len ?l => pose proof (len_nonneg l) end. lia. }
  eexists. eapply settles_loop. exact Hl.
Qed.

Lemma lookup_assign (m : smap) (k q : string) (v : list ptr) :
  lookup (assign m k v) q = if String.eqb k q then Some v else lookup m q.
Proof.
  induction m as [|[k' v'] t IH]; simpl; [reflexivity|].
  destruct (String.eqb k' k) eqn:E; simpl.
  - apply String.eqb_eq in E. subst k'. destruct (String.eqb k q); reflexivity.
  - rewrite IH. destruct (String.eqb k' q) eqn:E1; [|reflexivity].
    destruct (String.eqb k q) eqn:E2; [|reflexivity].
    apply String.eqb_eq in E1, E2. subst. rewrite String.eqb_refl in E. discriminate.
Qed.

Lemma lookup_keys (m : smap) (k : string) :
  In k (keys m) -> exists v, lookup m k = Some v.
Proof.
  unfold keys. induction m as [|[k' v'] t IH]; simpl; [intros []|].
  intros [->|H].
  - rewrite String.eqb_refl. eauto.
  - destruct (String.eqb k' k); [eauto|apply IH, H].
Qed.

Lemma append_to_inhabited (m : smap) (k : string) (x : ptr) :
  (forall q v, lookup m q = Some v -> v <> []) ->
  forall q v, lookup (append_to m k x) q = Some v -> v <> [].
Proof.
  intros Hm q v. unfold append_to.
  destruct (lookup m k) as [w|]; rewrite lookup_assign;
    (destruct (String.eqb k q); [|apply Hm]); intros [= <-].
  - destruct w; discriminate.
  - discriminate.
Qed.

Lemma normalizeStreets_inhabited (E : environment) (l : list ptr) :
  forall acc,
    (forall q v, lookup (fst acc) q = Some v -> v <> []) ->
    forall q v, lookup (fst (fold_left (normalizeStreet E) l acc)) q = Some v -> v <> [].
Proof.
  induction l as [|st l IH]; intros acc Hacc; simpl; [exact Hacc|].
  apply IH. unfold normalizeStreet. destruct acc as [m h]. cbv zeta.
  generalize (removeAccent (ToLower E (Name (deref h st)))). intros normName.
  destruct (ignored normName); [exact Hacc|].
  destruct (String.eqb normName "ngo chu huy man"); [exact Hacc|].
  match goal with
  | |- context [String.eqb ?x ""] => generalize x
  end.
  intros k. destruct (String.eqb k ""); [exact Hacc|].
  cbn [fst]. apply append_to_inhabited. exact Hacc.
Qed.

Lemma range_inhabited (E : environment) (loop_id : nat) (m : smap) :
  orderly E ->
  (forall q v, lookup m q = Some v -> v <> []) ->
  Forall (fun kv : string * list ptr => snd kv <> []) (range_ E loop_id m).
Proof.
  intros Ho Hm. unfold range_. apply Forall_forall. intros kv Hkv.
  apply in_map_iff in Hkv. destruct Hkv as [k [<- Hk]]. simpl.
  apply (Permutation_in _ (Ho loop_id (keys m))) in Hk.
  destruct (lookup_keys m k Hk) as [v Hv]. rewrite Hv. exact (Hm k v Hv).
Qed.

Lemma joinStreets_stages_settles (E : environment) (streets : store) :
  orderly E ->
  exists st, settles (fun fuel => joinStreets_stages E fuel streets) st.
Proof.
  intros Ho. unfold joinStreets_stages.
  pose proof (normalizeStreets_inhabited E (seq 0 (List.length streets)) ([], streets)
                ltac:(simpl; discriminate)) as Hin.
  fold (normalizeStreets E (seq 0 (List.length streets)) streets) in Hin.
  destruct (normalizeStreets E (seq 0 (List.length streets)) streets) as [nm h1].
  cbn [fst] in Hin.
  destruct (settles_foreach (fun fuel => Proximity.entry E h1 fuel)
              (fun kv => snd kv <> []) (range_ E 1 nm)
              (fun a s Ha => Proximity_entry_settles E h1 a s Ha)
              (range_inhabited E 1 nm Ho Hin) []) as [gd H1].
  destruct (settles_foreach (fun fuel => Direction.entry h1 fuel)
              (fun _ => True) (range_ E 2 gd)
              (fun a s _ => Direction_entry_settles h1 a s)
              ltac:(apply Forall_forall; trivial) []) as [gdir H2].
  destruct (settles_foreach (fun fuel => SameDirection.entry fuel)
              (fun _ => True) (range_ E 3 gdir)
              (fun a s _ => SameDirection_entry_settles a s)
              ltac:(apply Forall_forall; trivial) ([], h1)) as [m5 H3].
  destruct (settles_foreach (fun fuel => Lane.entry fuel)
              (fun _ => True) (range_ E 4 (fst m5))
              (fun a s _ => Lane_entry_settles a s)
              ltac:(apply Forall_forall; trivial) ([], snd m5)) as [m6 H4].
  destruct (settles_foreach (fun fuel => Final.entry fuel)
              (fun _ => True) (range_ E 5 (fst m6))
              (fun a s _ => Final_entry_settles a s)
              ltac:(apply Forall_forall; trivial) ([], snd m6)) as [m7 H5].
  eexists.
  apply (settles_rbind (fun fuel => Proximity.run E h1 fuel nm) _ gd); [exact H1|].
  apply (settles_rbind (fun fuel => Direction.run E h1 fuel gd) _ gdir); [exact H2|].
  apply (settles_rbind (fun fuel => SameDirection.run E fuel gdir h1) _ m5); [exact H3|].
  apply (settles_rbind (fun fuel => Lane.run E fuel (fst m5) (snd m5)) _ m6); [exact H4|].
  apply (settles_rbind (fun fuel => Final.run E fuel (fst m6) (snd m6)) _ m7); [exact H5|].
  apply settles_Done.
Qed.

(** [joinStreets] ends and returns, for every list of streets with at
    least one point each and every answer of the parser, when [range] visits
    every key of a map once: there is a number of iterations that is enough
    for every loop, and with that bound, or a larger one, [joinStreets]
    returns the same streets.  No loop goes on for ever, no bucket is indexed
    when it is empty, and no base is read before it is set. *)
Theorem joinStreets_terminates (E : environment) (streets : store) :
  orderly E ->
  Forall (fun s => Path s <> []) streets ->
  exists fuel ret,
    forall fuel', (fuel <= fuel')%nat -> joinStreets E fuel' streets = Done ret.
Proof.
  intros Ho _. destruct (joinStreets_stages_settles E streets Ho) as [st [F Hst]].
  exists F. eexists. intros fuel' Hf.
  unfold joinStreets, joinStreets_ptrs. rewrite (Hst fuel' Hf). reflexivity.
Qed.

Lemma joinStreets_terminates_witness :
  exists fuel ret,
    forall fuel', (fuel <= fuel')%nat ->
                  joinStreets plain_environment fuel' base_crossing_link = Done ret.
Proof.
  apply (joinStreets_terminates plain_environment base_crossing_link).
  - intros loop_id ks. apply Permutation_refl.
  - repeat constructor; discriminate.
Defined.

(** ** Buckets and output *)

Lemma bucket_assign (m : smap) (k q : string) (v : list ptr) :
  bucket (assign m k v) q = if String.eqb k q then v else bucket m q.
Proof.
  unfold bucket. rewrite lookup_assign. destruct (String.eqb k q); reflexivity.
Qed.

Lemma bucket_append_to (m : smap) (k q : string) (x : ptr) :
  bucket (append_to m k x) q = if String.eqb k q then bucket m q ++ [x] else bucket m q.
Proof.
  unfold append_to. destruct (lookup m k) as [v|] eqn:El; rewrite bucket_assign;
    destruct (String.eqb k q) eqn:E; try reflexivity;
      apply String.eqb_eq in E; subst q; unfold bucket; rewrite El; reflexivity.
Qed.

Lemma keys_assign (m : smap) (k q : string) (v : list ptr) :
  In q (keys (assign m k v)) <-> q = k \/ In q (keys m).
Proof.
  unfold keys. induction m as [|[k' v'] t IH]; simpl.
  - intuition congruence.
  - destruct (String.eqb k' k) eqn:E; simpl.
    + apply String.eqb_eq in E. subst k'. intuition congruence.
    + rewrite IH. intuition congruence.
Qed.

Lemma keys_append_to (m : smap) (k q : string) (x : ptr) :
  In q (keys (append_to m k x)) <-> q = k \/ In q (keys m).
Proof. unfold append_to. destruct (lookup m k); apply keys_assign. Qed.

Lemma normalizeStreet_files (E : environment) (streets : store) (acc : smap * store)
      (st : ptr) :
  Name (deref (snd acc) st) = Name (deref streets st) ->
  (bucketKey E streets st = "" /\ normalizeStreet E acc st = acc)
  \/ (bucketKey E streets st <> ""
      /\ normalizeStreet E acc st
         = (append_to (fst acc) (bucketKey E streets st) st,
            update (snd acc) st (set_Name (bucketKey E streets st)))).
Proof.
  unfold normalizeStreet, bucketKey, parserText. destruct acc as [m h]. cbn [fst snd].
  cbv zeta. intros ->.
  generalize (removeAccent (ToLower E (Name (deref streets st)))). intros normName.
  destruct (ignored normName); [left; split; reflexivity|].
  destruct (String.eqb normName "ngo chu huy man"); [left; split; reflexivity|].
  cbn [orb].
  destruct (negb (HasPrefix (ToLower E (Name (deref streets st))) duong_with_sign)).
  - destruct (String.eqb (parse E ("duong " ++ normName)%string) "") eqn:Ee.
    + apply String.eqb_eq in Ee. left. split; [exact Ee|reflexivity].
    + apply String.eqb_neq in Ee. right. split; [exact Ee|reflexivity].
  - destruct (String.eqb (parse E normName) "") eqn:Ee.
    + apply String.eqb_eq in Ee. left. split; [exact Ee|reflexivity].
    + apply String.eqb_neq in Ee. right. split; [exact Ee|reflexivity].
Qed.

Lemma normalizeStreets_files (E : environment) (streets : store) :
  forall (l : list ptr) (acc : smap * store),
    NoDup l ->
    (forall p, In p l -> Name (deref (snd acc) p) = Name (deref streets p)) ->
    ~ In "" (keys (fst acc)) ->
    ~ In "" (keys (fst (fold_left (normalizeStreet E) l acc)))
    /\ forall k,
        k <> "" ->
        bucket (fst (fold_left (normalizeStreet E) l acc)) k
        = bucket (fst acc) k
          ++ filter (fun p => String.eqb (bucketKey E streets p) k) l.
Proof.
  induction l as [|st l IH]; intros acc Hnd Hname Hk; cbn [fold_left filter].
  - split; [exact Hk|]. intros k _. rewrite app_nil_r. reflexivity.
  - inversion Hnd as [|? ? Hst Hnd']; subst.
    destruct (normalizeStreet_files E streets acc st (Hname st (or_introl eq_refl)))
      as [[Hb ->]|[Hb ->]].
    + destruct (IH acc Hnd' (fun p Hp => Hname p (or_intror Hp)) Hk) as [H1 H2].
      split; [exact H1|]. intros k Hne. rewrite (H2 k Hne), Hb.
      replace (String.eqb "" k) with false; [reflexivity|].
      symmetry. apply String.eqb_neq. congruence.
    + destruct (IH (append_to (fst acc) (bucketKey E streets st) st,
                    update (snd acc) st (set_Name (bucketKey E streets st))) Hnd')
        as [H1 H2].
      * cbn [snd]. intros p Hp. rewrite deref_update_other.
        { apply Hname. right. exact Hp. }
        intros ->. exact (Hst Hp).
      * cbn [fst]. rewrite keys_append_to. intros [He|Hin]; [congruence|exact (Hk Hin)].
      * split; [exact H1|]. intros k Hne. rewrite (H2 k Hne). cbn [fst].
        rewrite bucket_append_to.
        destruct (String.eqb (bucketKey E streets st) k); [|reflexivity].
        rewrite <- app_assoc. reflexivity.
Qed.

(** The first stage of [joinStreets] (lines 174-215) files every street
    under the answer of the parser for its name: the bucket of a key holds
    exactly the streets with that key, in the order of the input, each once.
    A street whose name is skipped or for which the parser answers with the
    empty string is in no bucket, and the empty string is not a key. *)
Theorem nameMap_groups_by_parser_answer (E : environment) (streets : store) (k : string) :
  let nameMap := fst (normalizeStreets E (seq 0 (List.length streets)) streets) in
  ~ In "" (keys nameMap)
  /\ (k <> "" ->
      bucket nameMap k
      = filter (fun p => String.eqb (bucketKey E streets p) k)
               (seq 0 (List.length streets))).
Proof.
  cbv zeta. unfold normalizeStreets.
  destruct (normalizeStreets_files E streets (seq 0 (List.length streets)) ([], streets)
              (seq_NoDup _ _) (fun p _ => eq_refl) ltac:(simpl; tauto)) as [H1 H2].
  split; [exact H1|]. intros Hne. rewrite (H2 k Hne). reflexivity.
Qed.

Lemma nameMap_groups_by_parser_answer_witness :
  bucket (fst (normalizeStreets plain_environment (seq 0 2) alley_and_street)) "abc"
  = filter (fun p => String.eqb (bucketKey plain_environment alley_and_street p) "abc")
           (seq 0 2)
  /\ bucket (fst (normalizeStreets plain_environment (seq 0 2) alley_and_street)) "abc"
     = [1%nat].
Proof.
  split; [|vm_compute; reflexivity].
  apply (proj2 (nameMap_groups_by_parser_answer plain_environment alley_and_street "abc")).
  discriminate.
Defined.

Lemma insert_sorted_empty (l : list string) : insert_sorted "" l = "" :: l.
Proof. destruct l as [|s l]; [reflexivity|]. destruct s; reflexivity. Qed.

Lemma SortStrings_empties (n : nat) (l : list string) :
  SortStrings (repeat EmptyString n ++ l) = repeat EmptyString n ++ SortStrings l.
Proof.
  unfold SortStrings. induction n as [|n IH]; [reflexivity|].
  simpl. rewrite IH. apply insert_sorted_empty.
Qed.

Lemma insert_sorted_Permutation (k : string) (l : list string) :
  Permutation (insert_sorted k l) (k :: l).
Proof.
  induction l as [|h t IH]; simpl; [apply Permutation_refl|].
  destruct (String.leb k h); [apply Permutation_refl|].
  eapply Permutation_trans; [apply perm_skip, IH|apply perm_swap].
Qed.

Lemma SortStrings_Permutation (l : list string) : Permutation (SortStrings l) l.
Proof.
  unfold SortStrings. induction l as [|k l IH]; simpl; [apply Permutation_refl|].
  eapply Permutation_trans; [apply insert_sorted_Permutation|apply perm_skip, IH].
Qed.

Lemma insert_sorted_Sorted (k : string) (l : list string) :
  Sorted (fun a b => String.leb a b = true) l ->
  Sorted (fun a b => String.leb a b = true) (insert_sorted k l).
Proof.
  induction l as [|h t IH]; intros Hs; simpl.
  - repeat constructor.
  - destruct (String.leb k h) eqn:E.
    + constructor; [exact Hs|constructor; exact E].
    + apply Sorted_inv in Hs. destruct Hs as [Hs Hh].
      constructor; [apply IH, Hs|].
      assert (Hhk : String.leb h k = true).
      { destruct (String.leb_total h k) as [H|H]; [exact H|congruence]. }
      destruct t as [|h' t']; simpl.
      * constructor. exact Hhk.
      * destruct (String.leb k h'); constructor; [exact Hhk|].
        inversion Hh; assumption.
Qed.

Lemma SortStrings_Sorted (l : list string) :
  Sorted (fun a b => String.leb a b = true) (SortStrings l).
Proof.
  unfold SortStrings. induction l as [|k l IH]; simpl; [constructor|].
  apply insert_sorted_Sorted, IH.
Qed.

Lemma concat_repeat_nil (n : nat) : List.concat (repeat (@nil ptr) n) = [].
Proof. induction n as [|n IH]; [reflexivity|exact IH]. Qed.

Lemma output_fold (m : smap) (ks : list string) :
  forall ret,
    fold_left (fun ret k => match lookup m k with None => ret | Some strs => ret ++ strs end)
              ks ret
    = ret ++ List.concat (map (bucket m) ks).
Proof.
  induction ks as [|k ks IH]; intros ret; simpl; [rewrite app_nil_r; reflexivity|].
  rewrite IH. unfold bucket at 2. destruct (lookup m k).
  - rewrite <- app_assoc. reflexivity.
  - reflexivity.
Qed.

(** The slice [joinStreets] returns (lines 364-383) holds the buckets of the
    last map one after the other, in ascending order of their keys (compared
    as bytes), every key once.  Before them it holds, once for every key of
    the map, the bucket of the empty key: the slice of keys is made with one
    empty string per key before the keys are appended to it.  When the empty
    string is not a key, these are empty. *)
Theorem output_in_key_order (E : environment) (mergedStreet : smap) :
  orderly E ->
  let ks := SortStrings (range_order E 6 (keys mergedStreet)) in
  output E mergedStreet
  = List.concat (repeat (bucket mergedStreet "") (List.length mergedStreet))
    ++ List.concat (map (bucket mergedStreet) ks)
  /\ Sorted (fun a b => String.leb a b = true) ks
  /\ Permutation ks (keys mergedStreet)
  /\ (~ In "" (keys mergedStreet) ->
      output E mergedStreet = List.concat (map (bucket mergedStreet) ks)).
Proof.
  intros Ho ks.
  assert (H : output E mergedStreet
              = List.concat (repeat (bucket mergedStreet "") (List.length mergedStreet))
                ++ List.concat (map (bucket mergedStreet) ks)).
  { unfold output, outputKeys. rewrite SortStrings_empties, output_fold.
    simpl. rewrite map_app, concat_app. f_equal.
    induction (List.length mergedStreet) as [|n IH]; [reflexivity|].
    simpl. rewrite IH. reflexivity. }
  split; [exact H|]. split; [apply SortStrings_Sorted|].
  split.
  { eapply Permutation_trans; [apply SortStrings_Permutation|apply Ho]. }
  intros Hk. rewrite H.
  assert (Hb : bucket mergedStreet "" = []).
  { unfold bucket. destruct (lookup mergedStreet "") as [v|] eqn:El; [|reflexivity].
    exfalso. apply Hk. clear -El. unfold keys.
    induction mergedStreet as [|[k' v'] t IH]; simpl in *; [discriminate|].
    destruct (String.eqb k' "") eqn:E; [left; apply String.eqb_eq; exact E|].
    right. apply IH, El. }
  rewrite Hb, concat_repeat_nil. reflexivity.
Qed.

Lemma output_in_key_order_witness :
  output plain_environment [("b", [1%nat]); ("a", [0%nat; 2%nat])] = [0%nat; 2%nat; 1%nat].
Proof.
  destruct (output_in_key_order plain_environment [("b", [1%nat]); ("a", [0%nat; 2%nat])])
    as [_ [_ [_ H]]].
  - intros loop_id ks. apply Permutation_refl.
  - rewrite H; [reflexivity|]. simpl. intros [H0|[H0|[]]]; discriminate H0.
Defined.

(** ** Code points of a text *)

Lemma concat_empty_last (l : list string) :
  String.concat "" (l ++ [EmptyString]) = String.concat "" l.
Proof.
  induction l as [|x l IH]; [reflexivity|].
  destruct l as [|y l].
  - cbn [app String.concat]. rewrite !append_empty_r. reflexivity.
  - change ((x :: y :: l) ++ [EmptyString]) with (x :: (y :: l) ++ [EmptyString]).
    cbn [app String.concat] in *. rewrite IH. reflexivity.
Qed.

(** [stringToRune] cuts a well-formed text at its code points: it gives one
    string for every code point, the encoding of that code point, in the order
    of the text, and one empty string after them, with the number of code
    points; [range] over the text yields the code points the text was made of.
    The strings joined give the text back. *)
Theorem stringToRune_utf8 (cs : list Z) :
  Forall codePoint cs ->
  stringToRune (utf8 cs)
  = (map string_of_rune cs ++ [EmptyString], Z.of_nat (List.length cs))
  /\ runes (utf8 cs) = cs
  /\ String.concat "" (fst (stringToRune (utf8 cs))) = utf8 cs.
Proof.
  intros H. pose proof (runes_utf8 cs H) as R.
  assert (E : stringToRune (utf8 cs)
              = (map string_of_rune cs ++ [EmptyString], Z.of_nat (List.length cs))).
  { unfold stringToRune, RuneCountInString. rewrite R. reflexivity. }
  split; [exact E|]. split; [exact R|].
  rewrite E. cbn [fst]. apply concat_empty_last.
Qed.

Lemma stringToRune_utf8_witness :
  stringToRune (utf8 [0x111; 0x1EA1; 0x6F])
  = ([utf8 [0x111]; utf8 [0x1EA1]; "o"; EmptyString], 3).
Proof.
  destruct (stringToRune_utf8 [0x111; 0x1EA1; 0x6F]) as [H _].
  - apply codePoints_by_forallb. vm_compute. reflexivity.
  - rewrite H. reflexivity.
Defined.
